(** * StageLinqDevices: discovery and connection-lifecycle orchestrator

    A shallow embedding of [src/network/StageLinqDevices.ts] and the
    properties of its identity functions ([deviceId], [sourceId]), its
    connection attempt driver ([connectToDevice]), its readiness barrier
    ([waitForAllDevices]) and its device registry ([downloadFile]).

    The class is asynchronous: every [await] of a promise of a
    collaborator (the transport session, the file-transfer service, the
    databases) is a point at which other discovery messages, other
    connection attempts and the interval timer may run.  The embedding
    keeps that.  A [World] holds the fields of the class, the invocations
    of [connectToDevice] suspended at such an [await], and the trace of
    the effects performed so far.  An [Input] is one thing the JavaScript
    event loop can deliver: a discovery message, the settlement of an
    awaited promise, a tick of the interval.  A [step] runs the code this
    sets off up to the next [await] of a collaborator, in one piece, as
    JavaScript does; the class awaits its own [async] methods
    ([setupFileTransferService], [downloadDatabase]) only to go on, and
    those hops are part of the step.

    What collaborators do is not modelled: how their promises settle is
    an input, and the calls made to them are recorded in the trace.  The
    listeners of the events of the class are code of its user, run
    synchronously by [emit]: whether a listener of [connected] returns
    or throws is an input too, since [connectToDevice] emits inside its
    [try].  [ready] is emitted by the last statement of the interval
    callback; an exception of one of its listeners rejects the promise
    of that callback, which nothing observes, and leaves the object as
    it is. *)

From Stdlib Require Import Strings.Ascii Strings.Byte.
From stdpp Require Import gmap strings list fin_maps pretty.

Open Scope Z_scope.
Open Scope string_scope.
Open Scope list_scope.

(** ** Strings *)

(** [s.includes(c)] for a single character. *)
Fixpoint includes (c : ascii) (s : string) : bool :=
  match s with
  | "" => false
  | String d s' => bool_decide (d = c) || includes c s'
  end.

Fixpoint all_chars (p : ascii → bool) (s : string) : bool :=
  match s with
  | "" => true
  | String d s' => p d && all_chars p s'
  end.

(** ASCII lower-casing, as a case-insensitive regular expression compares
    characters. *)
Definition to_lower (c : ascii) : ascii :=
  let n := N_of_ascii c in
  if ((65 <=? n) && (n <=? 90))%N then ascii_of_N (n + 32) else c.

(** [/^p/i.test(s)]: [s] starts with [p], letter case ignored. *)
Fixpoint starts_with_nocase (p s : string) : bool :=
  match p, s with
  | "", _ => true
  | String _ _, "" => false
  | String a p', String b s' =>
      bool_decide (to_lower a = to_lower b) && starts_with_nocase p' s'
  end.

(** ** Data model *)

(** [enum ConnectionStatus { CONNECTING, CONNECTED, FAILED }] *)
Inductive ConnectionStatus := CONNECTING | CONNECTED | FAILED.

Global Instance ConnectionStatus_eq_dec : EqDecision ConnectionStatus.
Proof. solve_decision. Defined.

(** [connectionInfo.software] *)
Record Software := { name : string; version : string }.

(** The fields of [ConnectionInfo] the orchestrator reads.  [port] is an
    integer, [token] the byte array of the discovery message. *)
Record ConnectionInfo := {
  address : string;
  port : Z;
  source : string;
  software : Software;
  token : list byte;
}.

Global Instance Software_eq_dec : EqDecision Software.
Proof. solve_decision. Defined.
Global Instance byte_eq_dec : EqDecision byte := Byte.byte_eq_dec.
Global Instance ConnectionInfo_eq_dec : EqDecision ConnectionInfo.
Proof. solve_decision. Defined.

(** [options.actingAs], of which [source] is read. *)
Record ActingAs := { acting_source : string }.

(** [StageLinqOptions], as far as the orchestrator uses it. *)
Record StageLinqOptions := {
  maxRetries : Z;
  downloadDbSources : bool;
  actingAs : ActingAs;
}.

(** A thrown JavaScript value: a [TypeError] raised by the runtime, or an
    [Error] built with [new Error(msg)]. *)
Inductive JsError :=
| TypeError (msg : string)
| JsErr (msg : string).

Global Instance JsError_eq_dec : EqDecision JsError.
Proof. solve_decision. Defined.

(** ** Device identity *)

(** [deviceId(device)]: the template
    [`${address}:${port}:` + `[${source}/${software.name}]`]. *)
Definition deviceId (device : ConnectionInfo) : string :=
  (address device +:+ ":" +:+ pretty (port device) +:+ ":") +:+
  ("[" +:+ source device +:+ "/" +:+ name (software device) +:+ "]").

(** [Buffer.from(token).toString('hex')]: two lower-case digits a byte. *)
Definition hexDigit (n : N) : ascii :=
  match n with
  | 0 => "0" | 1 => "1" | 2 => "2" | 3 => "3" | 4 => "4" | 5 => "5"
  | 6 => "6" | 7 => "7" | 8 => "8" | 9 => "9" | 10 => "a" | 11 => "b"
  | 12 => "c" | 13 => "d" | 14 => "e" | _ => "f"
  end%char%N.

Fixpoint toHex (bs : list byte) : string :=
  match bs with
  | [] => ""
  | b :: bs' =>
      String (hexDigit (Byte.to_N b / 16))
        (String (hexDigit (Byte.to_N b mod 16)) (toHex bs'))
  end.

(** The character class [\w]. *)
Definition isWordChar (c : ascii) : bool :=
  let n := N_of_ascii c in
  (((48 <=? n) && (n <=? 57)) || ((65 <=? n) && (n <=? 90))
   || ((97 <=? n) && (n <=? 122)) || (n =? 95))%N.

(** [\w{n}] at the head of [s]: the group and the rest of the input. *)
Fixpoint takeWord (n : nat) (s : string) : option (string * string) :=
  match n with
  | O => Some ("", s)
  | S n' =>
      match s with
      | "" => None
      | String c s' =>
          if isWordChar c then
            match takeWord n' s' with
            | Some (g, r) => Some (String c g, r)
            | None => None
            end
          else None
      end
  end.

(** [(\w{8})(\w{4})(\w{4})(\w{4})(\w{12})] anchored at the head of [s]:
    the match array, whole match first. *)
Definition matchAt (s : string) : option (list string) :=
  '(g1, r1) ← takeWord 8 s;
  '(g2, r2) ← takeWord 4 r1;
  '(g3, r3) ← takeWord 4 r2;
  '(g4, r4) ← takeWord 4 r3;
  '(g5, _) ← takeWord 12 r4;
  Some [g1 +:+ g2 +:+ g3 +:+ g4 +:+ g5; g1; g2; g3; g4; g5].

(** [regexp.exec(s)]: the leftmost match, [None] for [null]. *)
Fixpoint exec (s : string) : option (list string) :=
  match matchAt s with
  | Some m => Some m
  | None =>
      match s with
      | "" => None
      | String _ s' => exec s'
      end
  end.

(** [array.join(sep)] *)
Fixpoint join (sep : string) (l : list string) : string :=
  match l with
  | [] => ""
  | [x] => x
  | x :: l' => x +:+ sep +:+ join sep l'
  end.

(** [sourceId(connectionInfo)].  [exec] returns [null] when nothing
    matches, and [null.splice] throws a [TypeError]; [splice(1)] returns
    the array without its first element. *)
Definition sourceId (connectionInfo : ConnectionInfo) : JsError + string :=
  match exec (toHex (token connectionInfo)) with
  | None => inl (TypeError "Cannot read properties of null (reading 'splice')")
  | Some m => inr (join "-" (drop 1 m))
  end.

(** ** Ignore policy *)

(** [isIgnored(device)] *)
Definition isIgnored (opts : StageLinqOptions) (device : ConnectionInfo) : bool :=
  bool_decide (source device = acting_source (actingAs opts))
  || bool_decide (name (software device) = "OfflineAnalyzer")
  || starts_with_nocase "SoundSwitch" (name (software device))
  || starts_with_nocase "Resolume" (name (software device))
  || bool_decide (name (software device) = "JM08")
  || bool_decide (name (software device) = "SSS0").

(** ** Collaborators and effects *)

(** An object built by [new NetworkDevice(connectionInfo)].  Objects have
    identity: this is the one built on attempt [nd_attempt] of the
    [connectToDevice] invocation [nd_owner]. *)
Record NetworkDevice := {
  nd_owner : nat;
  nd_attempt : Z;
  nd_info : ConnectionInfo;
}.

(** The handle [networkDevice.connectToService(FileTransfer)] resolves to:
    the file-transfer service of that session. *)
Record FileTransfer := { ft_device : NetworkDevice }.

(** [interface StageLinqDevice] *)
Record StageLinqDevice := {
  networkDevice : NetworkDevice;
  fileTransferService : FileTransfer;
}.

Global Instance NetworkDevice_eq_dec : EqDecision NetworkDevice.
Proof. solve_decision. Defined.
Global Instance FileTransfer_eq_dec : EqDecision FileTransfer.
Proof. solve_decision. Defined.
Global Instance StageLinqDevice_eq_dec : EqDecision StageLinqDevice.
Proof. solve_decision. Defined.

(** The events the class emits itself.  [message], [trackLoaded],
    [stateChanged] and [nowPlaying] are re-emitted from listeners on the
    StateMap service and the [Player], which are outside this file. *)
Inductive Event :=
| EConnected (connectionInfo : ConnectionInfo)
| EReady.

Global Instance Event_eq_dec : EqDecision Event.
Proof. solve_decision. Defined.

Inductive Service := FileTransferService | StateMapService.

Inductive LogLevel := Silly | Debug | Info | Warn | Plain.

(** What a [Logger] call reports; the wording of the message is left out,
    its data is kept ([entries] in the order of the map, not of
    insertion). *)
Inductive LogMsg :=
| MsgDiscovery (text : string)
| MsgStartWatching
| MsgWaitingDevices (entries : list (string * ConnectionStatus))
| MsgAllDevicesFound
| MsgDevicesFound (n : nat) (entries : list (string * ConnectionStatus))
| MsgWaitingForDevices
| MsgConnecting (key : string) (attempt maxRetries : Z)
| MsgCouldNotConnect (key : string) (attempt maxRetries : Z) (e : JsError)
| MsgStartingFileTransfer (key : string)
| MsgDatabaseSources
| MsgDatabaseDownloadComplete (source : string)
| MsgSettingUpStateMap (address : string).

(** One observable action of the class: a write to one of its fields, an
    emitted event, a call to a collaborator, or the rejection of the
    promise of the running [async] method. *)
Inductive Effect :=
| Log (lvl : LogLevel) (msg : LogMsg)
| SetStatus (key : string) (s : ConnectionStatus)
    (* this.discoveryStatus.set(key, s) *)
| SetDevice (id : string) (d : StageLinqDevice)
    (* this.devices.set(id, d) *)
| PushCallback (connectionInfo : ConnectionInfo) (nd : NetworkDevice)
    (* this.stateMapCallback.push({ connectionInfo, networkDevice }) *)
| ClearInterval
    (* clearInterval(this.deviceWatchTimeout) *)
| Emit (e : Event)
| Connect (nd : NetworkDevice)
    (* nd = new NetworkDevice(connectionInfo); nd.connect() *)
| ConnectToService (nd : NetworkDevice) (svc : Service)
| DownloadSources (connectionInfo : ConnectionInfo) (nd : NetworkDevice)
    (* this.databases.downloadSourcesFromDevice(connectionInfo, nd) *)
| Throw (e : JsError).

(** The method invocation an effect belongs to. *)
Inductive Origin :=
| OConstructor
| OHandleDevice
| OConnectToDevice (tid : nat)
| OTimer
| OSetupStateMap (connectionInfo : ConnectionInfo) (nd : NetworkDevice).

Global Instance Origin_eq_dec : EqDecision Origin.
Proof. solve_decision. Defined.

(** ** The class *)

(** The fields of [StageLinqDevices].  [deviceWatchTimeout] is [true]
    while the interval set by [waitForAllDevices] is scheduled. *)
Record StageLinqDevices := {
  devices : gmap string StageLinqDevice;
  discoveryStatus : gmap string ConnectionStatus;
  options : StageLinqOptions;
  deviceWatchTimeout : bool;
  stateMapCallback : list (ConnectionInfo * NetworkDevice);
}.

(** The write an effect makes to the fields. *)
Definition perform (this : StageLinqDevices) (e : Effect) : StageLinqDevices :=
  match e with
  | SetStatus key s =>
      {| devices := devices this;
         discoveryStatus := <[key := s]> (discoveryStatus this);
         options := options this;
         deviceWatchTimeout := deviceWatchTimeout this;
         stateMapCallback := stateMapCallback this |}
  | SetDevice id d =>
      {| devices := <[id := d]> (devices this);
         discoveryStatus := discoveryStatus this;
         options := options this;
         deviceWatchTimeout := deviceWatchTimeout this;
         stateMapCallback := stateMapCallback this |}
  | PushCallback ci nd =>
      {| devices := devices this;
         discoveryStatus := discoveryStatus this;
         options := options this;
         deviceWatchTimeout := deviceWatchTimeout this;
         stateMapCallback := stateMapCallback this ++ [(ci, nd)] |}
  | ClearInterval =>
      {| devices := devices this;
         discoveryStatus := discoveryStatus this;
         options := options this;
         deviceWatchTimeout := false;
         stateMapCallback := stateMapCallback this |}
  | _ => this
  end.

(** [isConnecting], [isConnected], [isFailed] (lines 269-282): the
    status of the key is the given one; an absent key has none of them. *)
Definition isConnecting (this : StageLinqDevices) (device : ConnectionInfo) : bool :=
  bool_decide (discoveryStatus this !! deviceId device = Some CONNECTING).

Definition isConnected (this : StageLinqDevices) (device : ConnectionInfo) : bool :=
  bool_decide (discoveryStatus this !! deviceId device = Some CONNECTED).

Definition isFailed (this : StageLinqDevices) (device : ConnectionInfo) : bool :=
  bool_decide (discoveryStatus this !! deviceId device = Some FAILED).

(** [showDiscoveryStatus(device)].  Its first test, [!this.isDeviceSeen],
    negates a method (not a call of it) and so is always false. *)
Definition showDiscoveryStatus (this : StageLinqDevices) (device : ConnectionInfo)
    : string :=
  let msg := "Discovery: " +:+ deviceId device +:+ " " in
  if isIgnored (options this) device then msg +:+ "(IGNORED)"
  else msg +:+
    (if isConnecting this device then "(CONNECTING)"
     else if isConnected this device then "(CONNECTED)"
     else if isFailed this device then "(FAILED)"
     else "(NEW)").

(** ** [connectToDevice], one [await] at a time *)

(** Where a [connectToDevice] invocation is suspended. [AwaitFileTransfer]
    is inside [setupFileTransferService], whose local [sourceId] is live
    across the [await]. *)
Inductive AwaitPoint :=
| AwaitConnect                          (* await networkDevice.connect() *)
| AwaitFileTransfer (sourceId : string) (* await networkDevice.connectToService(FileTransfer) *)
| AwaitDownload.                        (* await this.databases.downloadSourcesFromDevice(...) *)

(** A suspended invocation: its locals and its [await]. *)
Record Task := {
  t_info : ConnectionInfo;
  t_attempt : Z;
  t_device : NetworkDevice;
  t_at : AwaitPoint;
}.

(** How an awaited promise settles, and what the listeners do that are
    called before the next [await].  [this.emit] calls the listeners of
    the event synchronously, and an exception one of them throws comes
    out of [emit]: with [Fulfilled] the promise is fulfilled and every
    listener called returns; with [ListenerThrows e] the promise is
    fulfilled and, if an event is emitted before the next [await], a
    listener of it throws [e]. *)
Inductive Settled :=
| Fulfilled
| Rejected (e : JsError)
| ListenerThrows (e : JsError).

(** The loop test with, when it holds, the body up to its first [await]
    (lines 154-161), and, when it fails, the code after the loop
    (lines 196-197). *)
Definition attemptLoop (opts : StageLinqOptions) (tid : nat)
    (connectionInfo : ConnectionInfo) (attempt : Z) : list Effect * option Task :=
  if bool_decide (attempt < maxRetries opts) then
    let networkDevice :=
      {| nd_owner := tid; nd_attempt := attempt; nd_info := connectionInfo |} in
    ([Log Info (MsgConnecting (deviceId connectionInfo) attempt (maxRetries opts));
      Connect networkDevice],
     Some {| t_info := connectionInfo; t_attempt := attempt;
             t_device := networkDevice; t_at := AwaitConnect |})
  else
    ([SetStatus (deviceId connectionInfo) FAILED;
      Throw (JsErr ("Could not connect to " +:+ deviceId connectionInfo))],
     None).

(** [connectToDevice(connectionInfo)] from its call to its first [await]
    (lines 151-161). *)
Definition connectToDevice (opts : StageLinqOptions) (tid : nat)
    (connectionInfo : ConnectionInfo) : list Effect * option Task :=
  let '(effs, t) := attemptLoop opts tid connectionInfo 1 in
  (SetStatus (deviceId connectionInfo) CONNECTING :: effs, t).

(** The [catch] block (lines 186-193) and the next turn of the loop.
    [sleep(500)] is called without [await]: the loop goes on at once. *)
Definition catchRetry (opts : StageLinqOptions) (tid : nat) (t : Task)
    (e : JsError) : list Effect * option Task :=
  let '(effs, t') := attemptLoop opts tid (t_info t) (t_attempt t + 1) in
  (Log Warn (MsgCouldNotConnect (deviceId (t_info t)) (t_attempt t)
               (maxRetries opts) e) :: effs, t').

(** The end of the [try] block up to the call of [emit]
    (lines 179-183). *)
Definition attemptDone (t : Task) : list Effect :=
  [PushCallback (t_info t) (t_device t);
   SetStatus (deviceId (t_info t)) CONNECTED;
   Emit (EConnected (t_info t))].

(** The invocation suspended at another [await]. *)
Definition suspendAt (p : AwaitPoint) (t : Task) : Task :=
  {| t_info := t_info t; t_attempt := t_attempt t; t_device := t_device t;
     t_at := p |}.

(** [setupFileTransferService(networkDevice, connectionInfo)] up to its
    [await] (lines 201-203).  [sourceId] may throw. *)
Definition setupFileTransferService (t : Task)
    : JsError + list Effect * AwaitPoint :=
  match sourceId (t_info t) with
  | inl e => inl e
  | inr sid =>
      inr ([Log Info (MsgStartingFileTransfer (deviceId (t_info t)));
            ConnectToService (t_device t) FileTransferService],
           AwaitFileTransfer sid)
  end.

(** [setupFileTransferService] after its [await] (lines 205-208). *)
Definition registerFileTransfer (sourceId : string) (t : Task) : Effect :=
  SetDevice ("net://" +:+ sourceId)
    {| networkDevice := t_device t;
       fileTransferService := {| ft_device := t_device t |} |}.

(** [downloadDatabase(networkDevice, connectionInfo)] up to its [await]
    (line 218), and after it (lines 219-220). *)
Definition downloadDatabase (t : Task) : list Effect :=
  [DownloadSources (t_info t) (t_device t)].

Definition databaseDownloaded (t : Task) : list Effect :=
  [Log Debug MsgDatabaseSources;
   Log Debug (MsgDatabaseDownloadComplete (source (t_info t)))].

(** What a listener called on this resumption throws, if any does. *)
Definition listenerOf (o : Settled) : option JsError :=
  match o with
  | ListenerThrows e => Some e
  | _ => None
  end.

(** The end of the [try] block (lines 179-185).  The call of [emit] is
    inside the [try]: when the listeners return, [connectToDevice]
    returns; when one throws, the exception lands in the [catch], after
    the pair was queued and the key marked CONNECTED, and the loop goes
    on. *)
Definition completeAttempt (opts : StageLinqOptions) (tid : nat) (t : Task)
    (listener : option JsError) : list Effect * option Task :=
  match listener with
  | None => (attemptDone t, None)
  | Some e =>
      let r := catchRetry opts tid t e in
      (attemptDone t ++ r.1, r.2)
  end.

(** [connectToDevice] from the settlement of the promise it awaits to its
    next [await], its [return] or its [throw].  Every [await] is inside
    the [try], so every rejection, and every exception thrown on the way,
    lands in the [catch]. *)
Definition resume (opts : StageLinqOptions) (tid : nat) (t : Task) (o : Settled)
    : list Effect * option Task :=
  match o with
  | Rejected e => catchRetry opts tid t e
  | Fulfilled | ListenerThrows _ =>
      match t_at t with
      | AwaitConnect =>
          match setupFileTransferService t with
          | inl e => catchRetry opts tid t e
          | inr (effs, p) => (effs, Some (suspendAt p t))
          end
      | AwaitFileTransfer sid =>
          if downloadDbSources opts then
            (registerFileTransfer sid t :: downloadDatabase t,
             Some (suspendAt AwaitDownload t))
          else
            let r := completeAttempt opts tid t (listenerOf o) in
            (registerFileTransfer sid t :: r.1, r.2)
      | AwaitDownload =>
          let r := completeAttempt opts tid t (listenerOf o) in
          (databaseDownloaded t ++ r.1, r.2)
      end
  end.

(** ** [setupStateMap] and the interval callback *)

(** [setupStateMap(connectionInfo, networkDevice)] up to its [await].
    What follows the [await] only subscribes listeners that re-emit
    service events. *)
Definition setupStateMap (connectionInfo : ConnectionInfo) (nd : NetworkDevice)
    : list (Origin * Effect) :=
  [(OSetupStateMap connectionInfo nd,
      Log Debug (MsgSettingUpStateMap (address connectionInfo)));
   (OSetupStateMap connectionInfo nd, ConnectToService nd StateMapService)].

(** [values.length >= 1] and [!values.includes(CONNECTING)], for
    [values = Array.from(this.discoveryStatus.values())]. *)
Definition foundDevices (this : StageLinqDevices) : bool :=
  bool_decide (1 ≤ length (map_to_list (discoveryStatus this)).*2)%nat.

Definition allConnected (this : StageLinqDevices) : bool :=
  negb (bool_decide (CONNECTING ∈ (map_to_list (discoveryStatus this)).*2)).

(** The callback [waitForAllDevices] passes to [setInterval]
    (lines 120-139). *)
Definition intervalCallback (this : StageLinqDevices) : list (Origin * Effect) :=
  let entries := map_to_list (discoveryStatus this) in
  (OTimer, Log Debug (MsgWaitingDevices entries)) ::
  if foundDevices this && allConnected this then
    [(OTimer, Log Plain MsgAllDevicesFound);
     (OTimer, Log Debug (MsgDevicesFound (length entries.*2) entries));
     (OTimer, ClearInterval)]
    ++ mbind (λ cb, setupStateMap cb.1 cb.2) (stateMapCallback this)
    ++ [(OTimer, Emit EReady)]
  else [(OTimer, Log Plain MsgWaitingForDevices)].

(** ** The event loop *)

(** The object, the [connectToDevice] invocations suspended at an
    [await], and everything done so far, oldest first. *)
Record World := {
  self : StageLinqDevices;
  pending : gmap nat Task;
  nextTask : nat;
  trace : list (Origin * Effect);
}.

(** The effects are performed on the fields and recorded. *)
Definition act (effs : list (Origin * Effect)) (w : World) : World :=
  {| self := foldl perform (self w) effs.*2;
     pending := pending w;
     nextTask := nextTask w;
     trace := trace w ++ effs |}.

(** [new StageLinqDevices(options)]: the constructor calls
    [waitForAllDevices], which logs and sets the interval. *)
Definition init (opts : StageLinqOptions) : World :=
  {| self := {| devices := ∅; discoveryStatus := ∅; options := opts;
                deviceWatchTimeout := true; stateMapCallback := [] |};
     pending := ∅;
     nextTask := 0%nat;
     trace := [(OConstructor, Log Plain MsgStartWatching)] |}.

(** Effects of invocation [tid] of [connectToDevice]. *)
Definition tag (tid : nat) (effs : list Effect) : list (Origin * Effect) :=
  (λ e, (OConnectToDevice tid, e)) <$> effs.

(** The invocation [tid] of [connectToDevice] did [r.1] and is now
    suspended as [r.2], or over. *)
Definition settleTask (tid : nat) (r : list Effect * option Task) (w : World)
    : World :=
  act (tag tid r.1)
    {| self := self w;
       pending := match r.2 with
                  | Some t => <[tid := t]> (pending w)
                  | None => delete tid (pending w)
                  end;
       nextTask := nextTask w;
       trace := trace w |}.

(** [handleDevice(connectionInfo)].  It does not await [connectToDevice]:
    the call runs [connectToDevice] up to its first [await] and returns. *)
Definition handleDevice (connectionInfo : ConnectionInfo) (w : World) : World :=
  let w1 :=
    act [(OHandleDevice,
          Log Silly (MsgDiscovery (showDiscoveryStatus (self w) connectionInfo)))] w in
  if isConnected (self w) connectionInfo
     || isConnecting (self w) connectionInfo
     || isFailed (self w) connectionInfo
     || isIgnored (options (self w)) connectionInfo
  then w1
  else
    settleTask (nextTask w)
      (connectToDevice (options (self w)) (nextTask w) connectionInfo)
      {| self := self w1; pending := pending w1;
         nextTask := S (nextTask w); trace := trace w1 |}.

(** What the JavaScript event loop can deliver to the object. *)
Inductive Input :=
| Discovered (connectionInfo : ConnectionInfo)
    (* a discovery message: handleDevice(connectionInfo) *)
| Settle (tid : nat) (o : Settled)
    (* the promise invocation tid awaits is settled; o also says what
       the listeners called on the way do *)
| Tick.
    (* the interval elapsed *)

(** One input is handled.  A promise nobody awaits and a cleared
    interval deliver nothing. *)
Definition step (w : World) (i : Input) : World :=
  match i with
  | Discovered connectionInfo => handleDevice connectionInfo w
  | Settle tid o =>
      match pending w !! tid with
      | Some t => settleTask tid (resume (options (self w)) tid t o) w
      | None => w
      end
  | Tick =>
      if deviceWatchTimeout (self w) then act (intervalCallback (self w)) w
      else w
  end.

(** The inputs are handled one after the other. *)
Definition run (w : World) (ins : list Input) : World := foldl step w ins.

(** ** [downloadFile] *)

(** A call on a file-transfer service. *)
Inductive FileTransferCall :=
| WaitTillAvailable (ft : FileTransfer)
| GetFile (ft : FileTransfer) (path : string).

(** An [async] method that only talks to a file-transfer service: it
    returns, throws, or awaits a call and goes on with what the call
    settles to ([inr file] or [inl error]). *)
Inductive Async (R : Type) :=
| Return (r : R)
| Raise (e : JsError)
| Await (c : FileTransferCall) (k : JsError + R → Async R).
Arguments Return {R} r.
Arguments Raise {R} e.
Arguments Await {R} c k.

(** [downloadFile(deviceId, path)].  [this.devices.get] gives [undefined]
    for a missing key, and reading [fileTransferService] of [undefined]
    throws a [TypeError]. *)
Definition downloadFile (this : StageLinqDevices) (deviceId path : string)
    : Async (list byte) :=
  match devices this !! deviceId with
  | None =>
      Raise (TypeError
        "Cannot read properties of undefined (reading 'fileTransferService')")
  | Some device =>
      Await (WaitTillAvailable (fileTransferService device)) (λ r,
        match r with
        | inl e => Raise e
        | inr _ =>
            Await (GetFile (fileTransferService device) path) (λ r,
              match r with
              | inl e => Raise e
              | inr file => Return file
              end)
        end)
  end.

(** ** [isDeviceSeen] and [disconnectAll] *)

(** [isDeviceSeen(device)] (lines 295-297).  The tracker is asked for
    the address of the announcement, not for its key. *)
Definition isDeviceSeen (this : StageLinqDevices) (device : ConnectionInfo) : bool :=
  bool_decide (is_Some (discoveryStatus this !! address device)).

(** [disconnectAll()] (lines 75-79): the sessions on which
    [disconnect()] is called, one for every entry of the registry (in
    the order of the map, not of insertion).  No field is written. *)
Definition disconnectAll (this : StageLinqDevices) : list NetworkDevice :=
  networkDevice <$> (map_to_list (devices this)).*2.

(** ** [setupStateMap] after its [await] *)

(** The options the [Player] is built with; [po_stateMap] is the session
    whose StateMap service it listens to. *)
Record PlayerOptions := {
  po_stateMap : NetworkDevice;
  po_address : string;
  po_port : Z;
  po_deviceId : string;
}.

Inductive Emitter := StateMapEmitter | PlayerEmitter.

(** A listener [emitter.on(l_event, ...)] whose body emits [l_emit] on
    the class with what it received, after [l_info] when that is given. *)
Record Listener := {
  l_emitter : Emitter;
  l_event : string;
  l_emit : string;
  l_info : option ConnectionInfo;
}.

(** [setupStateMap(connectionInfo, networkDevice)] from the settlement of
    [connectToService(StateMap)] on (lines 238-261): the listeners
    subscribed, and the [Player] built or the error the promise of
    [setupStateMap] is rejected with.  [sourceId] is evaluated for the
    options of the [Player], after the [message] listener is subscribed.
    Nothing is emitted on the way. *)
Definition setupStateMapResumed (connectionInfo : ConnectionInfo)
    (nd : NetworkDevice) (o : Settled)
    : list Listener * (JsError + PlayerOptions) :=
  match o with
  | Rejected e => ([], inl e)
  | Fulfilled | ListenerThrows _ =>
      let onMessage :=
        {| l_emitter := StateMapEmitter; l_event := "message";
           l_emit := "message"; l_info := Some connectionInfo |} in
      match sourceId connectionInfo with
      | inl e => ([onMessage], inl e)
      | inr sid =>
          ([onMessage;
            {| l_emitter := PlayerEmitter; l_event := "trackLoaded";
               l_emit := "trackLoaded"; l_info := None |};
            {| l_emitter := PlayerEmitter; l_event := "stateChanged";
               l_emit := "stateChanged"; l_info := None |};
            {| l_emitter := PlayerEmitter; l_event := "nowPlaying";
               l_emit := "nowPlaying"; l_info := None |}],
           inr {| po_stateMap := nd; po_address := address connectionInfo;
                  po_port := port connectionInfo; po_deviceId := sid |})
      end
  end.

(** * Vocabulary of the properties *)

(** ** Reading a trace *)

(** The events emitted, oldest first. *)
Definition emitted (tr : list (Origin * Effect)) : list Event :=
  omap (λ oe, match oe.2 with Emit e => Some e | _ => None end) tr.

(** The writes to [discoveryStatus] under [key], oldest first. *)
Definition statusWrites (key : string) (tr : list (Origin * Effect))
    : list ConnectionStatus :=
  omap (λ oe, match oe.2 with
              | SetStatus k s => if decide (k = key) then Some s else None
              | _ => None
              end) tr.

(** What invocation [tid] of [connectToDevice] did. *)
Definition byTask (tid : nat) (tr : list (Origin * Effect)) : list Effect :=
  omap (λ oe, match oe.1 with
              | OConnectToDevice t => if decide (t = tid) then Some oe.2 else None
              | _ => None
              end) tr.

(** The sessions opened and the errors thrown among some effects. *)
Definition connects (effs : list Effect) : list NetworkDevice :=
  omap (λ e, match e with Connect nd => Some nd | _ => None end) effs.

Definition throws (effs : list Effect) : list JsError :=
  omap (λ e, match e with Throw err => Some err | _ => None end) effs.

(** The sessions opened by invocation [tid] of [connectToDevice]: its
    connection attempts. *)
Definition attempts (tid : nat) (tr : list (Origin * Effect)) : list NetworkDevice :=
  connects (byTask tid tr).

(** The rejections of the promise of invocation [tid]. *)
Definition thrown (tid : nat) (tr : list (Origin * Effect)) : list JsError :=
  throws (byTask tid tr).

(** The invocations of [setupStateMap]. *)
Definition stateMapRuns (tr : list (Origin * Effect))
    : list (ConnectionInfo * NetworkDevice) :=
  omap (λ oe, match oe with
              | (OSetupStateMap ci nd, ConnectToService _ StateMapService) =>
                  Some (ci, nd)
              | _ => None
              end) tr.

(** The pairs pushed on [stateMapCallback]. *)
Definition pushed (tr : list (Origin * Effect))
    : list (ConnectionInfo * NetworkDevice) :=
  omap (λ oe, match oe.2 with PushCallback ci nd => Some (ci, nd) | _ => None end) tr.

(** [clearInterval] was called. *)
Definition cleared (tr : list (Origin * Effect)) : bool :=
  existsb (λ oe, match oe.2 with ClearInterval => true | _ => false end) tr.

(** The key of the announcement an event carries. *)
Definition eventKey (e : Event) : option string :=
  match e with
  | EConnected ci => Some (deviceId ci)
  | EReady => None
  end.

(** ** Identifiers *)

(** The fields of an announcement that [deviceId] reads. *)
Definition keyFields (d : ConnectionInfo) : string * Z * string * string :=
  (address d, port d, source d, name (software d)).

(** A decimal digit. *)
Definition isDigit (c : ascii) : bool :=
  let n := N_of_ascii c in ((48 <=? n) && (n <=? 57))%N.

(** The five groups of the identifier: bytes 0-3, 4-5, 6-7, 8-9, 10-15. *)
Definition idGroups (tok : list byte) : list string :=
  [toHex (take 4 tok); toHex (take 2 (drop 4 tok)); toHex (take 2 (drop 6 tok));
   toHex (take 2 (drop 8 tok)); toHex (take 6 (drop 10 tok))].

(** ** Agreement of fields and trace *)

(** The fields are what the trace says was written to them. *)
Record Consistent (opts : StageLinqOptions) (w : World) : Prop := {
  cons_options : options (self w) = opts;
  cons_status k :
    discoveryStatus (self w) !! k = last (statusWrites k (trace w));
  cons_queue : stateMapCallback (self w) = pushed (trace w);
  cons_devices id d :
    devices (self w) !! id = Some d → ∃ o, (o, SetDevice id d) ∈ trace w;
  cons_timer : deviceWatchTimeout (self w) = negb (cleared (trace w));
}.

(** ** One turn of [connectToDevice] *)

(** The key of the announcement a suspended invocation works on. *)
Definition key (t : Task) : string := deviceId (t_info t).

(** The session of a suspended invocation is one it built itself for its
    announcement. *)
Definition wfTask (tid : nat) (t : Task) : Prop :=
  nd_owner (t_device t) = tid ∧ nd_info (t_device t) = t_info t.

(** The session of attempt [a] of invocation [tid] for [ci]. *)
Definition session (tid : nat) (ci : ConnectionInfo) (a : Z) : NetworkDevice :=
  {| nd_owner := tid; nd_attempt := a; nd_info := ci |}.

(** What invocation [tid] for the announcement [ci], with the session
    [nd], does from one suspension to the next.  It writes the status of
    its own key only, and never CONNECTING; it registers the session
    [nd], under a ["net://"] key; it queues and emits for [ci]; it does
    not touch the interval. *)
Definition owned (ci : ConnectionInfo) (nd : NetworkDevice) (e : Effect) : Prop :=
  match e with
  | Log _ _ | Connect _ | ConnectToService _ _ | DownloadSources _ _
  | Throw _ => True
  | SetStatus k s => k = deviceId ci ∧ s ≠ CONNECTING
  | SetDevice id d => networkDevice d = nd ∧ ∃ sid, id = "net://" +:+ sid
  | PushCallback c _ => c = ci
  | Emit (EConnected c) => c = ci
  | Emit EReady | ClearInterval => False
  end.

(** Effects that register, queue and emit nothing. *)
Definition hushed (e : Effect) : Prop :=
  match e with
  | SetDevice _ _ | PushCallback _ _ | Emit _ => False
  | _ => True
  end.

(** One turn of invocation [tid]: what it does is its own, and if it
    suspends again it does so for the same announcement, with the
    session it had or with one it built for it. *)
Definition Turn (tid : nat) (ci : ConnectionInfo) (nd : NetworkDevice)
    (r : list Effect * option Task) : Prop :=
  Forall (owned ci nd) r.1
  ∧ match r.2 with
    | Some t => t_info t = ci ∧ (t_device t = nd ∨ wfTask tid t)
    | None => True
    end.

(** Effects that are not those of the firing interval callback. *)
Definition untimed (e : Effect) : Prop :=
  match e with
  | Emit EReady | ClearInterval => False
  | _ => True
  end.

(** ** The invariant of the event loop *)

(** The histories of a key of the tracker when no listener throws. *)
Definition statusForms : list (list ConnectionStatus) :=
  [[]; [CONNECTING]; [CONNECTING; CONNECTED]; [CONNECTING; FAILED]].

(** The histories of a key of the tracker in general: nothing; or
    CONNECTING, then CONNECTED any number of times, then possibly
    FAILED. *)
Fixpoint statusTail (l : list ConnectionStatus) : bool :=
  match l with
  | [] | [FAILED] => true
  | CONNECTED :: l' => statusTail l'
  | _ => false
  end.

Definition statusHistory (l : list ConnectionStatus) : bool :=
  match l with
  | [] => true
  | CONNECTING :: l' => statusTail l'
  | _ => false
  end.

(** The key an effect is about. *)
Definition keyOf (e : Effect) : option string :=
  match e with
  | SetStatus k _ => Some k
  | PushCallback ci _ | Emit (EConnected ci) => Some (deviceId ci)
  | _ => None
  end.

(** Effects of [handleDevice], the interval callback and [setupStateMap]:
    they write neither the tracker, the registry nor the queue, and emit
    at most [ready]. *)
Definition silent (oe : Origin * Effect) : Prop :=
  match oe with
  | (OConnectToDevice _, _) => False
  | (_, Log _ _) | (_, ClearInterval) | (_, ConnectToService _ _)
  | (_, Emit EReady) => True
  | _ => False
  end.

(** [connectToDevice] between its first line, which marks the key
    CONNECTING, and the loop. *)
Definition entered (tid : nat) (ci : ConnectionInfo) : Task :=
  {| t_info := ci; t_attempt := 0;
     t_device := {| nd_owner := tid; nd_attempt := 0; nd_info := ci |};
     t_at := AwaitConnect |}.

(** [handleDevice] on a fresh announcement, up to that point. *)
Definition mark (ci : ConnectionInfo) (w : World) : World :=
  {| self := perform (self w) (SetStatus (deviceId ci) CONNECTING);
     pending := <[nextTask w := entered (nextTask w) ci]> (pending w);
     nextTask := S (nextTask w);
     trace := trace w ++
       [(OHandleDevice,
         Log Silly (MsgDiscovery (showDiscoveryStatus (self w) ci)));
        (OConnectToDevice (nextTask w), SetStatus (deviceId ci) CONNECTING)] |}.

(** What holds of every world the event loop can reach. *)
Record Inv (w : World) : Prop := {
  (* a suspended invocation has marked its key *)
  inv_pending tid t :
    pending w !! tid = Some t →
    wfTask tid t
    ∧ (OConnectToDevice tid, SetStatus (key t) CONNECTING) ∈ trace w;
  inv_unique tid1 tid2 t1 t2 :
    pending w !! tid1 = Some t1 → pending w !! tid2 = Some t2 →
    key t1 = key t2 → tid1 = tid2;
  inv_origin tid e :
    (OConnectToDevice tid, e) ∈ trace w → (tid < nextTask w)%nat;
  (* one invocation only ever marks a key *)
  inv_markers o1 o2 k :
    (o1, SetStatus k CONNECTING) ∈ trace w →
    (o2, SetStatus k CONNECTING) ∈ trace w → o1 = o2;
  (* and whatever is done about the key is done by that invocation *)
  inv_owner o e k :
    (o, e) ∈ trace w → keyOf e = Some k →
    (o, SetStatus k CONNECTING) ∈ trace w;
  (* a session is registered by the invocation that built it, under a
     "net://" key *)
  inv_devices o id d :
    (o, SetDevice id d) ∈ trace w →
    (∃ sid, id = "net://" +:+ sid)
    ∧ o = OConnectToDevice (nd_owner (networkDevice d))
    ∧ (o, SetStatus (deviceId (nd_info (networkDevice d))) CONNECTING) ∈ trace w;
}.

(** The barrier has not fired: the interval is set, nothing was set up.
    Or it fired, on one tick, at which the tracker was not empty and
    held no CONNECTING. *)
Definition barrierState (opts : StageLinqOptions) (ins : list Input)
    (w : World) : Prop :=
  (deviceWatchTimeout (self w) = true
   ∧ (EReady ∉ emitted (trace w)) ∧ stateMapRuns (trace w) = [])
  ∨ (deviceWatchTimeout (self w) = false
     ∧ ∃ ins1 ins2, ins = ins1 ++ Tick :: ins2
       ∧ (EReady ∉ emitted (trace (run (init opts) ins1)))
       ∧ (∃ k s, discoveryStatus (self (run (init opts) ins1)) !! k = Some s)
       ∧ (∀ k, discoveryStatus (self (run (init opts) ins1)) !! k
               ≠ Some CONNECTING)
       ∧ filter (EReady =.) (emitted (trace w)) = [EReady]
       ∧ stateMapRuns (trace w)
         = stateMapCallback (self (run (init opts) ins1))).

(** What the interval callback tests: the tracker holds a key, and no
    key is CONNECTING. *)
Definition barrierOpen (w : World) : Prop :=
  (∃ k s, discoveryStatus (self w) !! k = Some s)
  ∧ (∀ k, discoveryStatus (self w) !! k ≠ Some CONNECTING).

(** ** One invocation of [connectToDevice] among the others *)

(** The outcomes of the promises awaited by invocation [tid], in the
    order in which they settle. *)
Definition settles (tid : nat) (ins : list Input) : list Settled :=
  omap (λ i, match i with
             | Settle t o => if decide (t = tid) then Some o else None
             | _ => None
             end) ins.

(** A suspended invocation taken through the outcomes [os] of the
    promises it awaits: what it does, and where it is left. *)
Fixpoint drive (opts : StageLinqOptions) (tid : nat) (t : option Task)
    (os : list Settled) : list Effect * option Task :=
  match t, os with
  | Some t, o :: os' =>
      let r := resume opts tid t o in
      let r' := drive opts tid r.2 os' in
      (r.1 ++ r'.1, r'.2)
  | _, _ => ([], t)
  end.

(** An invocation of [connectToDevice] from its call on. *)
Definition invocation (opts : StageLinqOptions) (tid : nat)
    (ci : ConnectionInfo) (os : list Settled) : list Effect * option Task :=
  let r := connectToDevice opts tid ci in
  let r' := drive opts tid r.2 os in
  (r.1 ++ r'.1, r'.2).

(** How an attempt fails: at [connect()], at
    [connectToService(FileTransfer)], or at the database download. *)
Inductive AttemptFailure :=
| FailConnect (e : JsError)
| FailFileTransfer (e : JsError)
| FailDownload (e : JsError).

(** The outcomes of the promises of a failing attempt. *)
Definition failureSettles (f : AttemptFailure) : list Settled :=
  match f with
  | FailConnect e => [Rejected e]
  | FailFileTransfer e => [Fulfilled; Rejected e]
  | FailDownload e => [Fulfilled; Fulfilled; Rejected e]
  end.

(** The outcomes of the promises of an attempt that succeeds: connect and
    file transfer, and the download when it is enabled. *)
Definition successSettles (opts : StageLinqOptions) : list Settled :=
  if downloadDbSources opts then [Fulfilled; Fulfilled; Fulfilled]
  else [Fulfilled; Fulfilled].

(** ** Announcements, options and schedules used as examples *)

(** Two announcements that differ in where the ["/"] between source and
    software name falls. *)
Definition slashInSource : ConnectionInfo :=
  {| address := "10.0.0.2"; port := 4000; source := "x/y";
     software := {| name := "z"; version := "1" |}; token := [] |}.
Definition slashInName : ConnectionInfo :=
  {| address := "10.0.0.2"; port := 4000; source := "x";
     software := {| name := "y/z"; version := "1" |}; token := [] |}.

(** Two announcements that differ in where the first [":["] falls. *)
Definition bracketInSource : ConnectionInfo :=
  {| address := "x"; port := 1; source := "a:2:[b";
     software := {| name := "n"; version := "1" |}; token := [] |}.
Definition bracketInAddress : ConnectionInfo :=
  {| address := "x:1:[a"; port := 2; source := "b";
     software := {| name := "n"; version := "1" |}; token := [] |}.

(** A token of 17 bytes. *)
Definition token17 : ConnectionInfo :=
  {| address := "10.0.0.3"; port := 4000; source := "deck";
     software := {| name := "JP13"; version := "1" |};
     token := [x00; x01; x02; x03; x04; x05; x06; x07; x08; x09; x0a; x0b;
               x0c; x0d; x0e; x0f; x10]%byte |}.

(** The same announcement with the first 16 and the first 3 bytes of that
    token. *)
Definition token16 : ConnectionInfo :=
  {| address := "10.0.0.3"; port := 4000; source := "deck";
     software := {| name := "JP13"; version := "1" |};
     token := take 16 (token token17) |}.
Definition token3 : ConnectionInfo :=
  {| address := "10.0.0.3"; port := 4000; source := "deck";
     software := {| name := "JP13"; version := "1" |};
     token := take 3 (token token17) |}.

(** Options with two attempts ([maxRetries = 3]) and with none. *)
Definition options3 : StageLinqOptions :=
  {| maxRetries := 3; downloadDbSources := true;
     actingAs := {| acting_source := "nowplaying" |} |}.

Definition options1 : StageLinqOptions :=
  {| maxRetries := 1; downloadDbSources := true;
     actingAs := {| acting_source := "nowplaying" |} |}.

(** Connect and file transfer succeed, the download fails. *)
Definition downloadFails : list Input :=
  [Discovered token16; Settle 0 Fulfilled; Settle 0 Fulfilled;
   Settle 0 (Rejected (JsErr "no database"))].

(** A second device. *)
Definition otherDeck : ConnectionInfo :=
  {| address := "10.0.0.4"; port := 4000; source := "deck2";
     software := {| name := "JP13"; version := "1" |};
     token := reverse (token token16) |}.

(** Two rejected connects, with a tick and another device in between. *)
Definition connectsFail : list Input :=
  [Settle 0 (Rejected (JsErr "refused")); Tick; Discovered otherDeck;
   Settle 0 (Rejected (JsErr "timeout"))].

(** The file transfer of the first attempt fails, the second attempt
    succeeds; a tick and another device come in between. *)
Definition secondAttempt : list Input :=
  [Settle 0 Fulfilled; Settle 0 (Rejected (JsErr "busy")); Tick;
   Settle 0 Fulfilled; Discovered otherDeck; Settle 0 Fulfilled;
   Settle 0 Fulfilled].

(** ** What an invocation of [connectToDevice] has done *)

(** The writes to the tracker, the registrations, the pairs queued and
    the events emitted among some effects, oldest first. *)
Definition marks (effs : list Effect) : list (string * ConnectionStatus) :=
  omap (λ e, match e with SetStatus k s => Some (k, s) | _ => None end) effs.

Definition registered (effs : list Effect) : list (string * StageLinqDevice) :=
  omap (λ e, match e with SetDevice id d => Some (id, d) | _ => None end) effs.

Definition queued (effs : list Effect) : list (ConnectionInfo * NetworkDevice) :=
  omap (λ e, match e with PushCallback ci nd => Some (ci, nd) | _ => None end) effs.

Definition events (effs : list Effect) : list Event :=
  omap (λ e, match e with Emit ev => Some ev | _ => None end) effs.

(** The entry [setupFileTransferService] makes for a session. *)
Definition entryOf (nd : NetworkDevice) : StageLinqDevice :=
  {| networkDevice := nd; fileTransferService := {| ft_device := nd |} |}.

(** The state of an invocation [tid] for [ci] that has done [r.1] and is
    suspended as [r.2], or over.  [a] attempts were started; the
    attempts [bs] went through to the end of the [try]: each queued its
    pair, marked the key CONNECTED and emitted [connected]; [fin] is the
    status the invocation ended on, if it is over.  An attempt of [bs]
    other than one the invocation returned from had its listener
    throw. *)
Record Progress (opts : StageLinqOptions) (tid : nat) (ci : ConnectionInfo)
    (r : list Effect * option Task) (a : Z) (bs : list Z)
    (fin : option ConnectionStatus) : Prop := {
  prog_connects : connects r.1 = session tid ci <$> seqZ 1 a;
  prog_bound : (0 ≤ a ≤ Z.max 0 (maxRetries opts - 1))%Z;
  prog_marks :
    marks r.1
    = (deviceId ci, CONNECTING) :: ((λ _, (deviceId ci, CONNECTED)) <$> bs)
      ++ if decide (fin = Some FAILED) then [(deviceId ci, FAILED)] else [];
  prog_queued : queued r.1 = (λ b, (ci, session tid ci b)) <$> bs;
  prog_events : events r.1 = (λ _, EConnected ci) <$> bs;
  prog_throws :
    throws r.1 = if decide (fin = Some FAILED)
                 then [JsErr ("Could not connect to " +:+ deviceId ci)] else [];
  prog_registered id d :
    (id, d) ∈ registered r.1 →
    ∃ sid b, sourceId ci = inr sid ∧ id = "net://" +:+ sid ∧ (1 ≤ b ≤ a)%Z
             ∧ d = entryOf (session tid ci b);
  prog_done b :
    b ∈ bs →
    (1 ≤ b ≤ a)%Z
    ∧ ∃ sid, sourceId ci = inr sid
             ∧ ("net://" +:+ sid, entryOf (session tid ci b)) ∈ registered r.1;
  prog_state :
    match r.2, fin with
    | Some t, None =>
        t_info t = ci ∧ t_attempt t = a ∧ t_device t = session tid ci a
        ∧ (1 ≤ a)%Z
        ∧ match t_at t with
          | AwaitConnect => True
          | AwaitFileTransfer sid => sourceId ci = inr sid
          | AwaitDownload =>
              ∃ sid, sourceId ci = inr sid
                     ∧ last (registered r.1)
                       = Some ("net://" +:+ sid, entryOf (session tid ci a))
          end
    | None, Some CONNECTED => (1 ≤ a)%Z ∧ last bs = Some a
    | None, Some FAILED => a = Z.max 0 (maxRetries opts - 1)
    | _, _ => False
    end;
}.

(** The listener exceptions an invocation in that state has caught, and
    the outcomes among [os] with which a listener throws. *)
Definition caught (bs : list Z) (fin : option ConnectionStatus) : nat :=
  (length bs - if decide (fin = Some CONNECTED) then 1 else 0)%nat.

Definition listenerThrows (os : list Settled) : nat :=
  length (filter (λ o, is_Some (listenerOf o)) os).

(** The status a key is left with by an invocation whose attempts [bs]
    went through and which ended on [fin], if it is over. *)
Definition statusAfter (bs : list Z) (fin : option ConnectionStatus)
    : ConnectionStatus :=
  if decide (fin = Some FAILED) then FAILED
  else if decide (bs = []) then CONNECTING else CONNECTED.

(** No listener throws in a run. *)
Definition listenersReturn (ins : list Input) : Prop :=
  ∀ tid e, Settle tid (ListenerThrows e) ∉ ins.

(** What some effects do about the key [k]: the statuses written, the
    pairs queued and the events emitted. *)
Definition writesOf (k : string) (effs : list Effect) : list ConnectionStatus :=
  omap (λ e, match e with
             | SetStatus k' s => if decide (k' = k) then Some s else None
             | _ => None
             end) effs.

Definition queuedFor (k : string) (effs : list Effect)
    : list (ConnectionInfo * NetworkDevice) :=
  omap (λ e, match e with
             | PushCallback ci nd =>
                 if decide (deviceId ci = k) then Some (ci, nd) else None
             | _ => None
             end) effs.

Definition eventsFor (k : string) (effs : list Effect) : list Event :=
  omap (λ e, match e with
             | Emit ev => if decide (eventKey ev = Some k) then Some ev else None
             | _ => None
             end) effs.

(** The promises one attempt awaits at most, and an upper bound on the
    promises a suspended invocation still awaits. *)
Definition awaitsPerAttempt (opts : StageLinqOptions) : nat :=
  if downloadDbSources opts then 3%nat else 2%nat.

Definition awaitsLeft (opts : StageLinqOptions) (t : Task) : nat :=
  (awaitsPerAttempt opts * Z.to_nat (maxRetries opts - 1 - t_attempt t)
   + match t_at t with
     | AwaitConnect => awaitsPerAttempt opts
     | AwaitFileTransfer _ => awaitsPerAttempt opts - 1
     | AwaitDownload => 1
     end)%nat.

(** The sessions registered under [id], oldest first. *)
Definition registrations (id : string) (tr : list (Origin * Effect))
    : list StageLinqDevice :=
  omap (λ oe, match oe.2 with
              | SetDevice i d => if decide (i = id) then Some d else None
              | _ => None
              end) tr.

(** An effect of the class that is not a log line or a call of
    [connectToService]. *)
Definition ownEffect (e : Effect) : Prop :=
  match e with
  | SetStatus _ _ | SetDevice _ _ | PushCallback _ _ | Connect _
  | DownloadSources _ _ | Throw _ | Emit (EConnected _) => True
  | _ => False
  end.

(** ** Further announcements and schedules used as examples *)

(** A lighting console, whose name matches [/^SoundSwitch/i] in lower
    case, and the application itself. *)
Definition lighting : ConnectionInfo :=
  {| address := "10.0.0.9"; port := 5000; source := "lights";
     software := {| name := "soundswitch-pro"; version := "2" |};
     token := token token16 |}.

Definition myself : ConnectionInfo :=
  {| address := "10.0.0.1"; port := 6000; source := "nowplaying";
     software := {| name := "np"; version := "1" |};
     token := token token16 |}.

(** The first attempt succeeds. *)
Definition firstAttempt : list Input :=
  [Discovered token16; Settle 0 Fulfilled; Settle 0 Fulfilled;
   Settle 0 Fulfilled].

(** The first and the second attempt go through, and both times a
    listener of [connected] throws. *)
Definition listenerFails : list Input :=
  [Discovered token16; Settle 0 Fulfilled; Settle 0 Fulfilled;
   Settle 0 (ListenerThrows (JsErr "listener"));
   Settle 0 Fulfilled; Settle 0 Fulfilled;
   Settle 0 (ListenerThrows (JsErr "listener"))].

(** * Properties *)

(** ** Strings *)

Section strings.
Implicit Types (s t : string) (c : ascii).

Lemma app_cons d s t : String d s +:+ t = String d (s +:+ t).
Proof. done. Qed.

Lemma includes_app c s t :
  includes c (s +:+ t) = includes c s || includes c t.
Proof.
  induction s as [|d s IH]; simpl; [done|].
  by rewrite IH, orb_assoc.
Qed.

Lemma includes_cons_self c s : includes c (String c s) = true.
Proof. simpl. by rewrite bool_decide_eq_true_2. Qed.

(** A string is cut in one way only at the first occurrence of [c]. *)
Lemma cut_first c s1 s2 t1 t2 :
  includes c s1 = false → includes c s2 = false →
  s1 +:+ String c t1 = s2 +:+ String c t2 → s1 = s2 ∧ t1 = t2.
Proof.
  revert s2. induction s1 as [|d s1 IH]; intros [|e s2]; simpl;
    intros H1 H2 Heq.
  - by simplify_eq.
  - simplify_eq. by rewrite bool_decide_eq_true_2 in H2.
  - simplify_eq. by rewrite bool_decide_eq_true_2 in H1.
  - apply orb_false_elim in H1 as [_ H1].
    apply orb_false_elim in H2 as [_ H2].
    simplify_eq. by destruct (IH s2 H1 H2) as [-> ->].
Qed.

(** And in one way only at the last occurrence. *)
Lemma cut_last c s1 s2 t1 t2 :
  includes c t1 = false → includes c t2 = false →
  s1 +:+ String c t1 = s2 +:+ String c t2 → s1 = s2 ∧ t1 = t2.
Proof.
  revert s2. induction s1 as [|d s1 IH]; intros [|e s2]; simpl;
    intros H1 H2 Heq.
  - by simplify_eq.
  - simplify_eq.
    by rewrite includes_app, includes_cons_self, orb_true_r in H1.
  - simplify_eq.
    by rewrite includes_app, includes_cons_self, orb_true_r in H2.
  - simplify_eq. by destruct (IH s2 H1 H2) as [-> ->].
Qed.

Lemma app_assoc_string s t u : (s +:+ t) +:+ u = s +:+ (t +:+ u).
Proof. induction s as [|d s IH]; [done|]. by rewrite !app_cons, IH. Qed.

Lemma length_app_string s t :
  String.length (s +:+ t) = (String.length s + String.length t)%nat.
Proof.
  induction s as [|d s IH]; [done|]. rewrite app_cons. simpl. by rewrite IH.
Qed.
End strings.

Lemma pretty_N_char_digit x : isDigit (pretty_N_char x) = true.
Proof. by repeat (done || destruct x as [|x] || destruct x as [x|x|]). Qed.

Lemma pretty_N_go_digits x s :
  all_chars isDigit s = true → all_chars isDigit (pretty_N_go x s) = true.
Proof.
  revert s. induction (N.lt_wf_0 x) as [x _ IH]; intros s Hs.
  destruct (decide (x = 0)%N) as [->|].
  - by rewrite pretty_N_go_0.
  - rewrite pretty_N_go_step by lia. apply IH.
    + apply N.div_lt; lia.
    + simpl. by rewrite pretty_N_char_digit.
Qed.

Lemma pretty_N_digits (x : N) : all_chars isDigit (pretty x) = true.
Proof.
  unfold pretty, pretty_N. case_decide; [done|].
  by apply pretty_N_go_digits.
Qed.

Lemma all_chars_not_includes p c s :
  p c = false → all_chars p s = true → includes c s = false.
Proof.
  intros Hc. induction s as [|d s IH]; simpl; [done|].
  intros [Hd Hs]%andb_true_iff. rewrite IH by done.
  rewrite bool_decide_eq_false_2; [done|]. intros ->. congruence.
Qed.

Lemma pretty_Z_not_includes (c : ascii) (z : Z) :
  isDigit c = false → c ≠ "-"%char → includes c (pretty z) = false.
Proof.
  intros Hc Hdash. unfold pretty, pretty_Z. destruct z as [|p|p].
  - apply (all_chars_not_includes isDigit); done.
  - apply (all_chars_not_includes isDigit); [done|]. apply pretty_N_digits.
  - simpl. rewrite bool_decide_eq_false_2 by done. simpl.
    apply (all_chars_not_includes isDigit); [done|]. apply pretty_N_digits.
Qed.

(** ** Device identity: [deviceId] *)

Lemma deviceId_eq (a b : ConnectionInfo) :
  address a = address b → port a = port b → source a = source b →
  name (software a) = name (software b) → deviceId a = deviceId b.
Proof. unfold deviceId. by intros -> -> -> ->. Qed.

Lemma deviceId_inj (a b : ConnectionInfo) :
  includes "[" (address a) = false → includes "[" (address b) = false →
  includes "/" (source a) = false → includes "/" (source b) = false →
  deviceId a = deviceId b →
  address a = address b ∧ port a = port b ∧ source a = source b
  ∧ name (software a) = name (software b).
Proof.
  intros Ha Hb Hsa Hsb. unfold deviceId.
  change ("[" +:+ ?s) with (String "[" s).
  intros [Hx Hy]%cut_first.
  - apply cut_first in Hy as [Hs Hn]; [|done..].
    change "]" with (String "]" "") in Hn.
    apply cut_last in Hn as [Hn _]; [|done..].
    rewrite <-!app_assoc_string in Hx.
    change ":" with (String ":" "") in Hx at 2 4.
    apply cut_last in Hx as [Hx _]; [|done..].
    change (?s +:+ ":") with (s +:+ String ":" "") in Hx.
    rewrite !app_assoc_string in Hx. simpl in Hx.
    apply cut_last in Hx as [Had Hp];
      [|by apply pretty_Z_not_includes..].
    by apply (inj pretty) in Hp.
  - rewrite !includes_app, Ha, pretty_Z_not_includes by done. done.
  - rewrite !includes_app, Hb, pretty_Z_not_includes by done. done.
Qed.

(** C8, as stated, fails: distinct (address, port, source, software name)
    tuples with one [deviceId]. *)
Lemma deviceId_collision :
  keyFields slashInSource ≠ keyFields slashInName
  ∧ deviceId slashInSource = deviceId slashInName.
Proof. split; [discriminate|reflexivity]. Qed.

(** The same with no ["/"] in a source, and a ["["] in an address. *)
Lemma deviceId_collision_address :
  keyFields bracketInSource ≠ keyFields bracketInAddress
  ∧ includes "/" (source bracketInSource) = false
  ∧ includes "/" (source bracketInAddress) = false
  ∧ deviceId bracketInSource = deviceId bracketInAddress.
Proof. split_and!; [discriminate|reflexivity..]. Qed.

(** C8, amended: [deviceId] is a function of the (address, port, source,
    software name) tuple, and it tells distinct tuples apart when no
    address holds a ["["] and no source holds a ["/"]. *)
Theorem deviceId_key (a b : ConnectionInfo) :
  (keyFields a = keyFields b → deviceId a = deviceId b)
  ∧ (includes "[" (address a) = false → includes "[" (address b) = false →
     includes "/" (source a) = false → includes "/" (source b) = false →
     keyFields a ≠ keyFields b → deviceId a ≠ deviceId b).
Proof.
  split.
  - unfold keyFields. intros [= ? ? ? ?]. by apply deviceId_eq.
  - intros Ha Hb Hsa Hsb Hne Heq. apply Hne.
    destruct (deviceId_inj a b Ha Hb Hsa Hsb Heq) as (? & ? & ? & ?).
    unfold keyFields. congruence.
Qed.

(** ** Device identity: [sourceId] *)

Lemma toHex_app (l1 l2 : list byte) : toHex (l1 ++ l2) = toHex l1 +:+ toHex l2.
Proof. induction l1 as [|b l1 IH]; [done|]. simpl. by rewrite IH. Qed.

Lemma toHex_length (l : list byte) :
  String.length (toHex l) = (2 * length l)%nat.
Proof. induction l as [|b l IH]; simpl; [done|]. rewrite IH. lia. Qed.

Lemma hexDigit_word (n : N) : isWordChar (hexDigit n) = true.
Proof. by repeat (done || destruct n as [|n] || destruct n as [n|n|]). Qed.

Lemma toHex_word (l : list byte) : all_chars isWordChar (toHex l) = true.
Proof.
  induction l as [|b l IH]; simpl; [done|]. by rewrite !hexDigit_word, IH.
Qed.

Lemma takeWord_app (n : nat) (g r : string) :
  String.length g = n → all_chars isWordChar g = true →
  takeWord n (g +:+ r) = Some (g, r).
Proof.
  revert g. induction n as [|n IH]; intros [|c g]; simpl; try done.
  intros [= Hlen] [Hc Hg]%andb_true_iff.
  rewrite ?app_cons; simpl; rewrite Hc. by rewrite (IH g).
Qed.

Lemma takeWord_length (n : nat) (s g r : string) :
  takeWord n s = Some (g, r) →
  String.length s = (n + String.length r)%nat ∧ String.length g = n.
Proof.
  revert s g. induction n as [|n IH]; intros s g; simpl.
  - by intros [= <- <-].
  - destruct s as [|c s]; [done|]. destruct (isWordChar c); [|done].
    destruct (takeWord n s) as [[g' r']|] eqn:Hn; [|done].
    intros [= <- <-]. destruct (IH _ _ Hn) as [Hs Hg]. simpl. by rewrite Hs, Hg.
Qed.

Lemma matchAt_length (s : string) (m : list string) :
  matchAt s = Some m → (32 ≤ String.length s)%nat.
Proof.
  unfold matchAt. intros Hm.
  repeat match type of Hm with
  | context [takeWord ?n ?s] =>
      let H := fresh "H" in
      destruct (takeWord n s) as [[??]|] eqn:H; cbn -[takeWord] in Hm; [|done];
      apply takeWord_length in H as [H _]
  end. lia.
Qed.

Lemma exec_length (s : string) (m : list string) :
  exec s = Some m → (32 ≤ String.length s)%nat.
Proof.
  induction s as [|c s IH]; cbn -[matchAt].
  - done.
  - destruct (matchAt (String c s)) eqn:Hm.
    + intros _. by apply matchAt_length in Hm.
    + intros ?%IH. lia.
Qed.

Lemma exec_matchAt (s : string) (m : list string) :
  matchAt s = Some m → exec s = Some m.
Proof. intros Hm. destruct s; cbn -[matchAt]; by rewrite Hm. Qed.

Lemma token_cut (tok : list byte) :
  tok = take 4 tok ++ take 2 (drop 4 tok) ++ take 2 (drop 6 tok)
        ++ take 2 (drop 8 tok) ++ take 6 (drop 10 tok) ++ drop 16 tok.
Proof.
  rewrite <-(take_drop 4 tok) at 1. f_equal.
  rewrite <-(take_drop 2 (drop 4 tok)) at 1. rewrite drop_drop. f_equal.
  rewrite <-(take_drop 2 (drop (4 + 2) tok)) at 1. rewrite drop_drop. f_equal.
  rewrite <-(take_drop 2 (drop (4 + 2 + 2) tok)) at 1. rewrite drop_drop. f_equal.
  rewrite <-(take_drop 6 (drop (4 + 2 + 2 + 2) tok)) at 1. by rewrite drop_drop.
Qed.

Lemma matchAt_toHex (tok : list byte) :
  (16 ≤ length tok)%nat →
  ∃ whole, matchAt (toHex tok) = Some (whole :: idGroups tok).
Proof.
  intros Hlen. pose proof (f_equal toHex (token_cut tok)) as Hcut.
  rewrite !toHex_app in Hcut. eexists. rewrite Hcut. unfold matchAt.
  repeat (rewrite takeWord_app;
    [cbn -[takeWord]
    |rewrite toHex_length, length_take, ?length_drop; lia
    |apply toHex_word]).
  done.
Qed.

Lemma sourceId_long (ci : ConnectionInfo) :
  (16 ≤ length (token ci))%nat →
  sourceId ci = inr (join "-" (idGroups (token ci))).
Proof.
  intros Hlen. unfold sourceId.
  destruct (matchAt_toHex _ Hlen) as [whole Hm].
  by rewrite (exec_matchAt _ _ Hm).
Qed.

Lemma sourceId_short (ci : ConnectionInfo) :
  (length (token ci) < 16)%nat →
  sourceId ci = inl (TypeError "Cannot read properties of null (reading 'splice')").
Proof.
  intros Hlen. unfold sourceId.
  destruct (exec (toHex (token ci))) as [m|] eqn:Hm; [|done].
  apply exec_length in Hm. rewrite toHex_length in Hm. lia.
Qed.

Lemma idGroups_take (tok : list byte) : idGroups (take 16 tok) = idGroups tok.
Proof. unfold idGroups. by rewrite !take_drop_commute, !take_take. Qed.

Lemma idGroups_lengths (tok : list byte) :
  (16 ≤ length tok)%nat → String.length <$> idGroups tok = [8; 4; 4; 4; 12]%nat.
Proof.
  intros Hlen. unfold idGroups. simpl.
  rewrite !toHex_length, !length_take, !length_drop.
  repeat f_equal; lia.
Qed.

Lemma idGroups_concat (tok : list byte) :
  length tok = 16%nat → foldr String.append "" (idGroups tok) = toHex tok.
Proof.
  intros Hlen. pose proof (f_equal toHex (token_cut tok)) as Hcut.
  rewrite (drop_ge tok 16), !toHex_app in Hcut by lia.
  rewrite Hcut. unfold idGroups. cbn [foldr]. done.
Qed.

Lemma join_dash_length (g1 g2 g3 g4 g5 : string) :
  String.length <$> [g1; g2; g3; g4; g5] = [8; 4; 4; 4; 12]%nat →
  String.length (join "-" [g1; g2; g3; g4; g5]) = 36%nat.
Proof.
  intros [= H1 H2 H3 H4 H5]. cbn [join].
  rewrite !length_app_string, H1, H2, H3, H4, H5. done.
Qed.

(** C7, as stated, fails: a token whose length is not 16 for which
    [sourceId] returns an identifier. *)
Lemma sourceId_token17 :
  length (token token17) ≠ 16%nat
  ∧ sourceId token17 = inr "00010203-0405-0607-0809-0a0b0c0d0e0f".
Proof. split; [discriminate|reflexivity]. Qed.

(** C7, amended: for a 16-byte token [sourceId] returns the 36-character
    identifier made of the token's hex digits in groups of 8, 4, 4, 4 and
    12 joined by dashes; for a token of more than 16 bytes it returns the
    identifier of the first 16 bytes; for a token of fewer than 16 bytes it
    throws a [TypeError], and in [connectToDevice] that throw is caught
    like any failure of the attempt: the announcement is retried. *)
Theorem sourceId_by_length (ci : ConnectionInfo) :
  let tok := token ci in
  (length tok = 16%nat →
     sourceId ci = inr (join "-" (idGroups tok))
     ∧ String.length (join "-" (idGroups tok)) = 36%nat
     ∧ String.length <$> idGroups tok = [8; 4; 4; 4; 12]%nat
     ∧ foldr String.append "" (idGroups tok) = toHex tok)
  ∧ ((16 < length tok)%nat →
     sourceId ci = inr (join "-" (idGroups (take 16 tok))))
  ∧ ((length tok < 16)%nat →
     ∃ e, sourceId ci = inl (TypeError e)
          ∧ ∀ opts tid t, t_info t = ci → t_at t = AwaitConnect →
              resume opts tid t Fulfilled = catchRetry opts tid t (TypeError e)).
Proof.
  intros tok. split; [|split].
  - intros Hlen. split; [apply sourceId_long; unfold tok in *; lia|].
    assert (String.length <$> idGroups tok = [8; 4; 4; 4; 12]%nat) as Hg
      by (apply idGroups_lengths; lia).
    split; [by apply join_dash_length|]. split; [done|].
    by apply idGroups_concat.
  - intros Hlen. rewrite idGroups_take. apply sourceId_long. unfold tok in *; lia.
  - intros Hlen. eexists. split; [by apply sourceId_short|].
    intros opts tid t Hci Hat. unfold resume, setupFileTransferService.
    by rewrite Hat, Hci, sourceId_short.
Qed.

Lemma sourceId_by_length_witness :
  sourceId token16 = inr (join "-" (idGroups (token token16)))
  ∧ sourceId token17 = inr (join "-" (idGroups (take 16 (token token17))))
  ∧ ∃ e, sourceId token3 = inl (TypeError e).
Proof.
  split; [|split].
  - apply (proj1 (sourceId_by_length token16)). reflexivity.
  - apply (proj1 (proj2 (sourceId_by_length token17))). simpl. lia.
  - destruct (proj2 (proj2 (sourceId_by_length token3))) as (e & He & _).
    + simpl. lia.
    + by exists e.
Defined.

Lemma deviceId_key_witness :
  deviceId token16 = deviceId token17 ∧ deviceId token16 ≠ deviceId slashInName.
Proof.
  split.
  - apply (proj1 (deviceId_key token16 token17)). reflexivity.
  - apply (proj2 (deviceId_key token16 slashInName)); try reflexivity.
    discriminate.
Defined.

(** ** Fields and trace agree *)

Section readers.
Implicit Types (tr : list (Origin * Effect)) (k : string) (tid : nat).

Lemma emitted_app tr1 tr2 : emitted (tr1 ++ tr2) = emitted tr1 ++ emitted tr2.
Proof. apply omap_app. Qed.
Lemma statusWrites_app k tr1 tr2 :
  statusWrites k (tr1 ++ tr2) = statusWrites k tr1 ++ statusWrites k tr2.
Proof. apply omap_app. Qed.
Lemma byTask_app tid tr1 tr2 :
  byTask tid (tr1 ++ tr2) = byTask tid tr1 ++ byTask tid tr2.
Proof. apply omap_app. Qed.
Lemma connects_app (effs1 effs2 : list Effect) :
  connects (effs1 ++ effs2) = connects effs1 ++ connects effs2.
Proof. apply omap_app. Qed.
Lemma throws_app (effs1 effs2 : list Effect) :
  throws (effs1 ++ effs2) = throws effs1 ++ throws effs2.
Proof. apply omap_app. Qed.
Lemma stateMapRuns_app tr1 tr2 :
  stateMapRuns (tr1 ++ tr2) = stateMapRuns tr1 ++ stateMapRuns tr2.
Proof. apply omap_app. Qed.
Lemma pushed_app tr1 tr2 : pushed (tr1 ++ tr2) = pushed tr1 ++ pushed tr2.
Proof. apply omap_app. Qed.
Lemma cleared_app tr1 tr2 : cleared (tr1 ++ tr2) = cleared tr1 || cleared tr2.
Proof. apply existsb_app. Qed.
End readers.

Create Rewrite HintDb trace.
#[global] Hint Rewrite emitted_app statusWrites_app byTask_app connects_app
  throws_app stateMapRuns_app pushed_app cleared_app : trace.

Section perform.
Implicit Types (this : StageLinqDevices) (tr : list (Origin * Effect)).

Lemma perform_options this tr :
  options (foldl perform this tr.*2) = options this.
Proof.
  revert this. induction tr as [|[o e] tr IH]; intros this; simpl; [done|].
  rewrite IH. by destruct e.
Qed.

Lemma perform_status this tr k :
  discoveryStatus (foldl perform this tr.*2) !! k
  = from_option Some (discoveryStatus this !! k) (last (statusWrites k tr)).
Proof.
  revert this. induction tr as [|[o e] tr IH]; intros this; simpl; [done|].
  rewrite IH. unfold statusWrites at 2. simpl. fold (statusWrites k tr).
  destruct e; simpl; try done.
  case_decide as Hk; simpl.
  - subst. rewrite last_cons, lookup_insert_eq.
    by destruct (last (statusWrites k tr)).
  - by rewrite lookup_insert_ne.
Qed.

Lemma perform_queue this tr :
  stateMapCallback (foldl perform this tr.*2)
  = stateMapCallback this ++ pushed tr.
Proof.
  revert this. induction tr as [|[o e] tr IH]; intros this; simpl.
  - by rewrite app_nil_r.
  - rewrite IH. unfold pushed at 2. simpl. fold (pushed tr).
    destruct e; simpl; try done. by rewrite <-app_assoc.
Qed.

Lemma perform_devices this tr id d :
  devices (foldl perform this tr.*2) !! id = Some d →
  devices this !! id = Some d ∨ ∃ o, (o, SetDevice id d) ∈ tr.
Proof.
  revert this. induction tr as [|[o e] tr IH]; intros this; simpl; [by left|].
  intros [H|[o' H]]%IH.
  - destruct e; simpl in H; try by left.
    destruct (decide (id0 = id)) as [->|].
    + rewrite lookup_insert_eq in H. simplify_eq. right. exists o. by left.
    + rewrite lookup_insert_ne in H by done. by left.
  - right. exists o'. by right.
Qed.

Lemma perform_timer this tr :
  deviceWatchTimeout (foldl perform this tr.*2)
  = deviceWatchTimeout this && negb (cleared tr).
Proof.
  revert this. induction tr as [|[o e] tr IH]; intros this.
  - simpl. by rewrite andb_true_r.
  - simpl. rewrite IH. by destruct e; simpl; rewrite ?andb_false_r.
Qed.
End perform.

(** Every step performs a list of effects on the fields and appends it
    to the trace. *)
Lemma step_act (w : World) (i : Input) :
  ∃ effs, trace (step w i) = trace w ++ effs
          ∧ self (step w i) = foldl perform (self w) effs.*2.
Proof.
  destruct i as [ci|tid o|]; simpl.
  - unfold handleDevice. case_match.
    + by eexists.
    + unfold settleTask, act. simpl. eexists. split.
      * by rewrite <-app_assoc.
      * done.
  - destruct (pending w !! tid); [by eexists|].
    exists []. by rewrite app_nil_r.
  - case_match; [by eexists|]. exists []. by rewrite app_nil_r.
Qed.

Lemma consistent_init opts : Consistent opts (init opts).
Proof. split; try done. Qed.

Lemma consistent_step opts w i : Consistent opts w → Consistent opts (step w i).
Proof.
  intros [Ho Hs Hq Hd Ht]. destruct (step_act w i) as (effs & Htr & Hself).
  split.
  - by rewrite Hself, perform_options.
  - intros k. rewrite Hself, Htr, perform_status, statusWrites_app, last_app, Hs.
    by destruct (last (statusWrites k effs)).
  - by rewrite Hself, Htr, perform_queue, pushed_app, Hq.
  - intros id d. rewrite Hself, Htr.
    intros [H|[o H]]%perform_devices.
    + destruct (Hd _ _ H) as [o Ho']. exists o. rewrite elem_of_app. by left.
    + exists o. rewrite elem_of_app. by right.
  - rewrite Hself, Htr, perform_timer, cleared_app, Ht. by rewrite negb_orb.
Qed.

Lemma run_snoc w ins i : run w (ins ++ [i]) = step (run w ins) i.
Proof. unfold run. by rewrite foldl_app. Qed.

Lemma run_app w ins1 ins2 : run w (ins1 ++ ins2) = run (run w ins1) ins2.
Proof. unfold run. by rewrite foldl_app. Qed.

Lemma consistent_run opts ins : Consistent opts (run (init opts) ins).
Proof.
  induction ins as [|i ins IH] using rev_ind.
  - apply consistent_init.
  - rewrite run_snoc. by apply consistent_step.
Qed.

(** ** [handleDevice] on a key that has a status *)

(** C5: when the key of an announcement has a status (CONNECTING,
    CONNECTED or FAILED), [handleDevice] starts no connection attempt and
    emits nothing: the fields (tracker, registry, deferred queue) and the
    suspended invocations are unchanged, and the one thing done is the
    discovery log line. *)
Theorem handleDevice_known_key (w : World) (ci : ConnectionInfo)
    (s : ConnectionStatus) :
  discoveryStatus (self w) !! deviceId ci = Some s →
  let w' := step w (Discovered ci) in
  self w' = self w
  ∧ pending w' = pending w
  ∧ nextTask w' = nextTask w
  ∧ trace w' = trace w ++
      [(OHandleDevice,
        Log Silly (MsgDiscovery (showDiscoveryStatus (self w) ci)))]
  ∧ emitted (trace w') = emitted (trace w)
  ∧ ∀ tid, attempts tid (trace w') = attempts tid (trace w).
Proof.
  intros Hs. simpl. unfold handleDevice, isConnected, isConnecting, isFailed.
  rewrite Hs.
  assert (bool_decide (Some s = Some CONNECTED)
          || bool_decide (Some s = Some CONNECTING)
          || bool_decide (Some s = Some FAILED) = true) as ->
    by by destruct s.
  simpl. repeat split; try done.
  - rewrite emitted_app. apply app_nil_r.
  - intros tid. unfold attempts. rewrite byTask_app. f_equal.
    apply app_nil_r.
Qed.

(** ** [maxRetries = 1] *)

(** C10: with [maxRetries = 1], [handleDevice] on a fresh announcement that
    is not ignored opens no session: the key is set to CONNECTING and at
    once to FAILED, the promise of [connectToDevice] is rejected with the
    "Could not connect" error, and nothing is left suspended. *)
Theorem maxRetries_one_no_attempt (w : World) (ci : ConnectionInfo) :
  maxRetries (options (self w)) = 1 →
  discoveryStatus (self w) !! deviceId ci = None →
  isIgnored (options (self w)) ci = false →
  let w' := step w (Discovered ci) in
  let tid := nextTask w in
  trace w' = trace w ++
    [(OHandleDevice, Log Silly (MsgDiscovery (showDiscoveryStatus (self w) ci)));
     (OConnectToDevice tid, SetStatus (deviceId ci) CONNECTING);
     (OConnectToDevice tid, SetStatus (deviceId ci) FAILED);
     (OConnectToDevice tid, Throw (JsErr ("Could not connect to " +:+ deviceId ci)))]
  ∧ attempts tid (trace w') = attempts tid (trace w)
  ∧ pending w' !! tid = None
  ∧ discoveryStatus (self w') !! deviceId ci = Some FAILED.
Proof.
  intros Hmax Hs Hi. simpl.
  unfold handleDevice, isConnected, isConnecting, isFailed.
  rewrite Hs, Hi. simpl.
  unfold connectToDevice, attemptLoop. rewrite Hmax. simpl.
  repeat split.
  - by rewrite <-app_assoc.
  - unfold attempts. rewrite <-app_assoc, byTask_app. simpl.
    rewrite !decide_True by done. rewrite connects_app. apply app_nil_r.
  - apply lookup_delete_eq.
  - apply lookup_insert_eq.
Qed.

(** ** A failing database download *)

(** C2, as stated, fails: the failed download enqueues nothing, emits no
    [connected], leaves the key CONNECTING and opens a second session (a
    retry); when the second attempt fails too the key is FAILED. *)
Lemma download_failure_is_retried :
  let w := run (init options3) downloadFails in
  let w' := step w (Settle 0 (Rejected (JsErr "refused"))) in
  stateMapCallback (self w) = []
  ∧ emitted (trace w) = []
  ∧ discoveryStatus (self w) !! deviceId token16 = Some CONNECTING
  ∧ length (attempts 0 (trace w)) = 2%nat
  ∧ discoveryStatus (self w') !! deviceId token16 = Some FAILED
  ∧ emitted (trace w') = [].
Proof. vm_compute. done. Qed.

(** C2, amended: a rejection of the database download lands in the
    [catch] of the retry loop like any other failure of the attempt.  It
    is logged as a warning; the attempt enqueues nothing, emits no
    [connected] and does not mark the key CONNECTED; the registry entry
    made by the file-transfer step stays.  If another attempt is left the
    driver retries at once with a new session, otherwise it marks the key
    FAILED and rejects with the "Could not connect" error. *)
Theorem download_failure_fails_attempt (w : World) (tid : nat) (t : Task)
    (e : JsError) :
  pending w !! tid = Some t → t_at t = AwaitDownload →
  let opts := options (self w) in
  let key := deviceId (t_info t) in
  let w' := step w (Settle tid (Rejected e)) in
  let warn := (OConnectToDevice tid,
               Log Warn (MsgCouldNotConnect key (t_attempt t) (maxRetries opts) e)) in
  let nd := {| nd_owner := tid; nd_attempt := t_attempt t + 1;
               nd_info := t_info t |} in
  stateMapCallback (self w') = stateMapCallback (self w)
  ∧ emitted (trace w') = emitted (trace w)
  ∧ devices (self w') = devices (self w)
  ∧ if bool_decide (t_attempt t + 1 < maxRetries opts) then
      trace w' = trace w ++
        [warn;
         (OConnectToDevice tid,
          Log Info (MsgConnecting key (t_attempt t + 1) (maxRetries opts)));
         (OConnectToDevice tid, Connect nd)]
      ∧ discoveryStatus (self w') = discoveryStatus (self w)
      ∧ pending w' !! tid =
          Some {| t_info := t_info t; t_attempt := t_attempt t + 1;
                  t_device := nd; t_at := AwaitConnect |}
    else
      trace w' = trace w ++
        [warn;
         (OConnectToDevice tid, SetStatus key FAILED);
         (OConnectToDevice tid, Throw (JsErr ("Could not connect to " +:+ key)))]
      ∧ discoveryStatus (self w') = <[key := FAILED]> (discoveryStatus (self w))
      ∧ pending w' !! tid = None.
Proof.
  intros Ht Hat. simpl. rewrite Ht.
  unfold settleTask, resume, catchRetry, attemptLoop.
  case_bool_decide; simpl.
  - repeat split; try done.
    + rewrite emitted_app. apply app_nil_r.
    + apply lookup_insert_eq.
  - repeat split; try done.
    + rewrite emitted_app. apply app_nil_r.
    + apply lookup_delete_eq.
Qed.

Lemma download_failure_fails_attempt_witness :
  let w := run (init options3) (take 3 downloadFails) in
  let w' := step w (Settle 0 (Rejected (JsErr "no database"))) in
  stateMapCallback (self w') = stateMapCallback (self w)
  ∧ emitted (trace w') = emitted (trace w)
  ∧ devices (self w') = devices (self w).
Proof.
  intros w w'.
  destruct (download_failure_fails_attempt w 0
    {| t_info := token16; t_attempt := 1;
       t_device := {| nd_owner := 0; nd_attempt := 1; nd_info := token16 |};
       t_at := AwaitDownload |} (JsErr "no database"))
    as (Hq & He & Hd & _); [reflexivity|reflexivity|].
  by split; [|split].
Defined.

(** ** One turn of [connectToDevice] *)

Lemma attemptLoop_turn opts tid ci a nd :
  Turn tid ci nd (attemptLoop opts tid ci a).
Proof.
  unfold attemptLoop, Turn. case_bool_decide; simpl.
  - split; [by repeat constructor|]. split; [done|by right].
  - split; [by repeat constructor|done].
Qed.

Lemma turn_app tid ci nd pre r :
  Forall (owned ci nd) pre → Turn tid ci nd r → Turn tid ci nd (pre ++ r.1, r.2).
Proof. intros Hpre [Hr Ht]. split; [by apply Forall_app|done]. Qed.

Lemma catchRetry_turn opts tid t e :
  Turn tid (t_info t) (t_device t) (catchRetry opts tid t e).
Proof.
  unfold catchRetry.
  pose proof (attemptLoop_turn opts tid (t_info t) (t_attempt t + 1)
    (t_device t)) as H.
  destruct (attemptLoop opts tid (t_info t) (t_attempt t + 1)) as [effs t'].
  by apply (turn_app _ _ _ [_] (effs, t')); [repeat constructor|].
Qed.

Lemma attemptDone_owned t : Forall (owned (t_info t) (t_device t)) (attemptDone t).
Proof. by repeat constructor. Qed.

Lemma completeAttempt_turn opts tid t listener :
  Turn tid (t_info t) (t_device t) (completeAttempt opts tid t listener).
Proof.
  unfold completeAttempt. destruct listener as [e|].
  - apply (turn_app _ _ _ _ (catchRetry opts tid t e));
      [apply attemptDone_owned|apply catchRetry_turn].
  - split; [apply attemptDone_owned|done].
Qed.

Lemma resume_turn opts tid t o :
  Turn tid (t_info t) (t_device t) (resume opts tid t o).
Proof.
  assert (∀ listener,
    Turn tid (t_info t) (t_device t)
      match t_at t with
      | AwaitConnect =>
          match setupFileTransferService t with
          | inl e => catchRetry opts tid t e
          | inr (effs, p) => (effs, Some (suspendAt p t))
          end
      | AwaitFileTransfer sid =>
          if downloadDbSources opts then
            (registerFileTransfer sid t :: downloadDatabase t,
             Some (suspendAt AwaitDownload t))
          else
            (registerFileTransfer sid t
               :: (completeAttempt opts tid t listener).1,
             (completeAttempt opts tid t listener).2)
      | AwaitDownload =>
          (databaseDownloaded t ++ (completeAttempt opts tid t listener).1,
           (completeAttempt opts tid t listener).2)
      end) as Hok.
  { intros listener. destruct (t_at t) as [|sid|].
    - unfold setupFileTransferService.
      destruct (sourceId (t_info t)); [apply catchRetry_turn|].
      split; [by repeat constructor|]. split; [done|by left].
    - destruct (downloadDbSources opts).
      + split; [|split; [done|by left]]. repeat constructor; simpl; eauto.
      + apply (turn_app _ _ _ [_] (completeAttempt opts tid t listener));
          [|apply completeAttempt_turn].
        repeat constructor; simpl; eauto.
    - apply (turn_app _ _ _ _ (completeAttempt opts tid t listener));
        [by repeat constructor|apply completeAttempt_turn]. }
  destruct o as [|e|e]; [apply (Hok None)|apply catchRetry_turn|apply (Hok (Some e))].
Qed.

Lemma elem_of_tag tid o e effs :
  (o, e) ∈ tag tid effs ↔ o = OConnectToDevice tid ∧ e ∈ effs.
Proof.
  unfold tag. rewrite list_elem_of_fmap. split.
  - by intros (e' & [= -> ->] & He).
  - intros [-> He]. by exists e.
Qed.

Lemma owned_elem ci nd effs e : Forall (owned ci nd) effs → e ∈ effs → owned ci nd e.
Proof. intros H He. by eapply Forall_forall in H. Qed.

Lemma owned_keyOf ci nd e k : owned ci nd e → keyOf e = Some k → k = deviceId ci.
Proof.
  destruct e as [| | | | |[]| | | |]; simpl; try done.
  - by intros [-> _] [= <-].
  - by intros -> [= <-].
  - by intros -> [= <-].
Qed.

Lemma owned_untimed ci nd effs : Forall (owned ci nd) effs → Forall untimed effs.
Proof.
  intros H. eapply Forall_impl; [done|]. by intros [| | | | |[]| | | |].
Qed.

Lemma untimed_readers tid effs :
  Forall untimed effs →
  (EReady ∉ emitted (tag tid effs))
  ∧ stateMapRuns (tag tid effs) = []
  ∧ cleared (tag tid effs) = false.
Proof.
  induction 1 as [|e effs He _ (IH1 & IH2 & IH3)].
  - split_and!; try done. apply not_elem_of_nil.
  - destruct e as [| | | | |[]| | | |]; try done; simpl; split_and!; try done.
    intros [?|?]%elem_of_cons; [done|]. by apply IH1.
Qed.

Lemma byTask_tag tid effs : byTask tid (tag tid effs) = effs.
Proof.
  induction effs as [|e effs IH]; [done|]. simpl.
  unfold byTask in *. simpl. rewrite decide_True by done. simpl. by f_equal.
Qed.

Lemma byTask_tag_ne tid tid' effs : tid ≠ tid' → byTask tid (tag tid' effs) = [].
Proof.
  intros Hne. induction effs as [|e effs IH]; [done|]. simpl.
  unfold byTask in *. simpl. by rewrite decide_False.
Qed.

(** ** The invariant of the event loop *)

Lemma elem_statusWrites o k s tr :
  (o, SetStatus k s) ∈ tr → s ∈ statusWrites k tr.
Proof.
  intros H. apply list_elem_of_omap. exists (o, SetStatus k s).
  split; [done|]. simpl. by rewrite decide_True.
Qed.

Section silent.
Context (effs : list (Origin * Effect)).

Lemma silent_statusWrites k : Forall silent effs → statusWrites k effs = [].
Proof.
  induction 1 as [|[o e] ? He _ IH]; [done|].
  by destruct o, e as [| | | | |[]| | | |].
Qed.

Lemma silent_pushed : Forall silent effs → pushed effs = [].
Proof.
  induction 1 as [|[o e] ? He _ IH]; [done|].
  by destruct o, e as [| | | | |[]| | | |].
Qed.

Lemma silent_emitted k :
  Forall silent effs → filter (λ e, eventKey e = Some k) (emitted effs) = [].
Proof.
  induction 1 as [|[o e] ? He _ IH]; [done|].
  by destruct o, e as [| | | | |[]| | | |].
Qed.

Lemma silent_byTask tid : Forall silent effs → byTask tid effs = [].
Proof.
  induction 1 as [|[o e] ? He _ IH]; [done|].
  by destruct o, e as [| | | | |[]| | | |].
Qed.

Lemma silent_elem oe : Forall silent effs → oe ∈ effs → silent oe.
Proof. intros H He. by eapply Forall_forall in H. Qed.

Lemma silent_keyOf o e k : Forall silent effs → (o, e) ∈ effs → keyOf e ≠ Some k.
Proof.
  intros H He. apply (silent_elem _ H) in He.
  by destruct o, e as [| | | | |[]| | | |].
Qed.
End silent.

(** Membership in an explicit list of other constructors. *)
Ltac elem_absurd H :=
  repeat (apply elem_of_cons in H as [H|H]; [discriminate H|]);
  by apply elem_of_nil in H.

Lemma tag_app tid effs1 effs2 :
  tag tid (effs1 ++ effs2) = tag tid effs1 ++ tag tid effs2.
Proof. apply fmap_app. Qed.

Lemma inv_init opts : Inv (init opts).
Proof.
  split; simpl.
  - intros tid t. by rewrite lookup_empty.
  - intros tid1 tid2 t1 t2. by rewrite lookup_empty.
  - intros tid e [=]%list_elem_of_singleton.
  - intros o1 o2 k [=]%list_elem_of_singleton.
  - by intros o e k [= -> ->]%list_elem_of_singleton.
  - intros o id d [=]%list_elem_of_singleton.
Qed.

Lemma inv_silent w effs : Inv w → Forall silent effs → Inv (act effs w).
Proof.
  intros [Hp Hu Ho Hm Hown Hd] Hs.
  assert (∀ o k s, (o, SetStatus k s) ∉ effs) as Hno.
  { intros o k s H. apply (silent_elem _ _ Hs) in H. by destruct o. }
  split; simpl.
  - intros tid t Ht. destruct (Hp _ _ Ht) as (Hwf & Hin).
    split; [done|]. apply elem_of_app. by left.
  - done.
  - intros tid e [H|H]%elem_of_app; [by eapply Ho|].
    by apply (silent_elem _ _ Hs) in H.
  - intros o1 o2 k [H1|H1]%elem_of_app [H2|H2]%elem_of_app;
      try (by destruct (Hno _ _ _ H1)); try (by destruct (Hno _ _ _ H2)).
    by eapply Hm.
  - intros o e k [H|H]%elem_of_app Hk.
    + apply elem_of_app. left. by eapply Hown.
    + by destruct (silent_keyOf _ _ _ k Hs H).
  - intros o id d [H|H]%elem_of_app.
    + destruct (Hd _ _ _ H) as (? & ? & ?). split_and!; [done..|].
      apply elem_of_app. by left.
    + apply (silent_elem _ _ Hs) in H. by destruct o.
Qed.

Lemma inv_mark w ci :
  Inv w → statusWrites (deviceId ci) (trace w) = [] → Inv (mark ci w).
Proof.
  intros [Hp Hu Ho Hm Hown Hd] Hnew.
  assert (∀ o, (o, SetStatus (deviceId ci) CONNECTING) ∉ trace w) as Hfresh.
  { intros o H%elem_statusWrites. rewrite Hnew in H. by apply elem_of_nil in H. }
  assert (∀ tid t, pending w !! tid = Some t → key t ≠ deviceId ci) as Hne.
  { intros tid t Ht Hk. destruct (Hp _ _ Ht) as (_ & Hin).
    rewrite Hk in Hin. by destruct (Hfresh _ Hin). }
  assert (∀ tid t, pending w !! tid = Some t → tid ≠ nextTask w) as Hlt.
  { intros tid t Ht. destruct (Hp _ _ Ht) as (_ & Hin).
    apply Ho in Hin. lia. }
  split.
  - intros tid t. simpl. rewrite lookup_insert_Some.
    intros [[<- <-]|[Hn Ht]].
    + split; [done|]. apply elem_of_app. right. by repeat constructor.
    + destruct (Hp _ _ Ht) as (Hwf & Hin).
      split; [done|]. apply elem_of_app. by left.
  - intros tid1 tid2 t1 t2. simpl. rewrite !lookup_insert_Some.
    intros [[<- <-]|[Hn1 Ht1]] [[<- <-]|[Hn2 Ht2]] Hk; [done| | |by eapply Hu].
    + destruct (Hne _ _ Ht2). by rewrite <-Hk.
    + destruct (Hne _ _ Ht1). by rewrite Hk.
  - intros tid e. simpl. intros [H|H]%elem_of_app.
    + apply Ho in H. lia.
    + apply elem_of_cons in H as [[=]|H].
      apply list_elem_of_singleton in H as [= -> _]. lia.
  - intros o1 o2 k. simpl. intros [H1|H1]%elem_of_app [H2|H2]%elem_of_app.
    + by eapply Hm.
    + apply elem_of_cons in H2 as [[=]|H2].
      apply list_elem_of_singleton in H2 as [= -> ->]. by destruct (Hfresh o1).
    + apply elem_of_cons in H1 as [[=]|H1].
      apply list_elem_of_singleton in H1 as [= -> ->]. by destruct (Hfresh o2).
    + apply elem_of_cons in H1 as [[=]|H1].
      apply list_elem_of_singleton in H1 as [= -> ->].
      apply elem_of_cons in H2 as [[=]|H2].
      by apply list_elem_of_singleton in H2 as [= ->].
  - intros o e k. simpl. intros [H|H]%elem_of_app Hk.
    + apply elem_of_app. left. by eapply Hown.
    + apply elem_of_cons in H as [[= -> ->]|H]; [done|].
      apply list_elem_of_singleton in H as [= -> ->].
      injection Hk as <-. apply elem_of_app. right. by repeat constructor.
  - intros o id d. simpl. intros [H|H]%elem_of_app.
    + destruct (Hd _ _ _ H) as (? & ? & ?). split_and!; [done..|].
      apply elem_of_app. by left.
    + elem_absurd H.
Qed.

Lemma inv_turn w tid t r :
  Inv w → pending w !! tid = Some t → Turn tid (t_info t) (t_device t) r →
  Inv (settleTask tid r w).
Proof.
  intros [Hp Hu Ho Hm Hown Hd] Ht [Heffs Hnext].
  destruct (Hp _ _ Ht) as ([Hnd Hinfo] & Hmark).
  destruct r as [effs t']. cbn [fst snd] in Heffs, Hnext.
  assert (match t' with
          | Some t2 => t_info t2 = t_info t ∧ wfTask tid t2
          | None => True
          end) as Hnext'.
  { destruct t' as [t2|]; [|done]. destruct Hnext as [Hci [Hsame|Hwf]]; [|done].
    split; [done|]. unfold wfTask. by rewrite Hsame, Hci. }
  clear Hnext. rename Hnext' into Hnext.
  assert (∀ o k, (o, SetStatus k CONNECTING) ∉ tag tid effs) as Hnomark.
  { intros o k [_ H]%elem_of_tag. by destruct (owned_elem _ _ _ _ Heffs H). }
  split; simpl.
  - intros tid' t''. destruct t' as [t2|].
    + destruct Hnext as [Hci Hwf2].
      rewrite lookup_insert_Some. intros [[<- <-]|[Hne Ht']].
      * split; [done|]. unfold key. rewrite Hci. apply elem_of_app. by left.
      * destruct (Hp _ _ Ht') as (Hwf' & Hin').
        split; [done|]. apply elem_of_app. by left.
    + rewrite lookup_delete_Some. intros [Hne Ht'].
      destruct (Hp _ _ Ht') as (Hwf' & Hin').
      split; [done|]. apply elem_of_app. by left.
  - intros tid1 tid2 t1 t2. destruct t' as [t3|].
    + destruct Hnext as [Hci Hwf2].
      assert (key t3 = key t) as Hk3 by (unfold key; by rewrite Hci).
      rewrite !lookup_insert_Some.
      intros [[<- <-]|[Hn1 Ht1]] [[<- <-]|[Hn2 Ht2]] Hk; [done| | |by eapply Hu].
      * rewrite Hk3 in Hk. by eapply Hu.
      * rewrite Hk3 in Hk. by eapply Hu.
    + rewrite !lookup_delete_Some. intros [_ Ht1] [_ Ht2]. by eapply Hu.
  - intros tid' e [H|H]%elem_of_app; [by eapply Ho|].
    apply elem_of_tag in H as [[= ->] _]. by eapply Ho.
  - intros o1 o2 k [H1|H1]%elem_of_app [H2|H2]%elem_of_app;
      try (by destruct (Hnomark _ _ H1)); try (by destruct (Hnomark _ _ H2)).
    by eapply Hm.
  - intros o e k [H|H]%elem_of_app Hk.
    + apply elem_of_app. left. by eapply Hown.
    + apply elem_of_tag in H as [-> H].
      rewrite (owned_keyOf _ _ _ _ (owned_elem _ _ _ _ Heffs H) Hk).
      apply elem_of_app. by left.
  - intros o id d [H|H]%elem_of_app.
    + destruct (Hd _ _ _ H) as (? & ? & ?). split_and!; [done..|].
      apply elem_of_app. by left.
    + apply elem_of_tag in H as [-> H].
      destruct (owned_elem _ _ _ _ Heffs H) as [-> Hsid].
      rewrite Hnd, Hinfo. split_and!; [done..|].
      apply elem_of_app. by left.
Qed.

(** [handleDevice] on a fresh announcement: the key is marked, then the
    loop takes its first turn. *)
Lemma handleDevice_fresh w ci :
  discoveryStatus (self w) !! deviceId ci = None →
  isIgnored (options (self w)) ci = false →
  handleDevice ci w
  = settleTask (nextTask w)
      (attemptLoop (options (self w)) (nextTask w) ci 1) (mark ci w).
Proof.
  intros Hs Hi. unfold handleDevice, isConnected, isConnecting, isFailed.
  rewrite Hs, Hi. simpl. unfold connectToDevice.
  destruct (attemptLoop (options (self w)) (nextTask w) ci 1) as [effs t'].
  unfold settleTask, act, mark. simpl. f_equal.
  - destruct t'; symmetry; [apply insert_insert_eq|apply delete_insert_eq].
  - by rewrite <-!app_assoc.
Qed.

Lemma status_absent (this : StageLinqDevices) ci :
  isConnected this ci || isConnecting this ci || isFailed this ci = false →
  discoveryStatus this !! deviceId ci = None.
Proof.
  unfold isConnected, isConnecting, isFailed.
  destruct (discoveryStatus this !! deviceId ci) as [[]|]; by simpl.
Qed.

Lemma setupStateMap_silent queue :
  Forall silent (queue ≫= λ cb, setupStateMap cb.1 cb.2).
Proof.
  induction queue as [|[ci nd] queue IH]; [constructor|].
  simpl. by repeat constructor.
Qed.

Lemma intervalCallback_silent this : Forall silent (intervalCallback this).
Proof.
  unfold intervalCallback. constructor; [done|].
  case_match; [|by repeat constructor].
  repeat (constructor; [done|]). apply Forall_app. split.
  - apply setupStateMap_silent.
  - by repeat constructor.
Qed.

Lemma inv_step opts w i : Consistent opts w → Inv w → Inv (step w i).
Proof.
  intros Hc Hinv. destruct i as [ci|tid o|]; simpl.
  - destruct (isConnected (self w) ci || isConnecting (self w) ci
              || isFailed (self w) ci) eqn:Hknown.
    { unfold handleDevice. rewrite Hknown. simpl.
      apply inv_silent; [done|]. by repeat constructor. }
    destruct (isIgnored (options (self w)) ci) eqn:Hi.
    { unfold handleDevice. rewrite Hknown, Hi. simpl.
      apply inv_silent; [done|]. by repeat constructor. }
    apply status_absent in Hknown as Hs.
    rewrite handleDevice_fresh by done.
    assert (statusWrites (deviceId ci) (trace w) = []) as Hnew.
    { apply last_None. by rewrite <-(cons_status _ _ Hc). }
    eapply inv_turn.
    + by apply inv_mark.
    + simpl. apply lookup_insert_eq.
    + apply attemptLoop_turn.
  - destruct (pending w !! tid) as [t|] eqn:Ht; [|done].
    eapply inv_turn; [done..|]. apply resume_turn.
  - case_match; [|done]. apply inv_silent; [done|].
    apply intervalCallback_silent.
Qed.

Lemma inv_run opts ins : Inv (run (init opts) ins).
Proof.
  induction ins as [|i ins IH] using rev_ind.
  - apply inv_init.
  - rewrite run_snoc. eapply inv_step; [apply consistent_run|done].
Qed.

Lemma run_trace_extends w ins : ∃ effs, trace (run w ins) = trace w ++ effs.
Proof.
  induction ins as [|i ins [effs IH]] using rev_ind.
  - exists []. by rewrite app_nil_r.
  - rewrite run_snoc. destruct (step_act (run w ins) i) as (effs' & -> & _).
    exists (effs ++ effs'). by rewrite IH, app_assoc.
Qed.

Lemma run_act w ins :
  ∃ effs, trace (run w ins) = trace w ++ effs
          ∧ self (run w ins) = foldl perform (self w) effs.*2.
Proof.
  induction ins as [|i ins (effs & IHt & IHs)] using rev_ind.
  - exists []. by rewrite app_nil_r.
  - rewrite run_snoc.
    destruct (step_act (run w ins) i) as (effs' & -> & ->).
    exists (effs ++ effs'). by rewrite IHt, IHs, app_assoc, fmap_app, foldl_app.
Qed.

(** ** The readiness barrier *)

(** A discovery message or a settled promise does nothing of what the
    interval callback does. *)
Lemma not_tick_effects w i :
  i ≠ Tick →
  ∃ effs, trace (step w i) = trace w ++ effs
          ∧ self (step w i) = foldl perform (self w) effs.*2
          ∧ (EReady ∉ emitted effs)
          ∧ stateMapRuns effs = []
          ∧ cleared effs = false.
Proof.
  destruct i as [ci|tid o|]; [| |done]; intros _.
  - change (step w (Discovered ci)) with (handleDevice ci w).
    unfold handleDevice. case_match.
    { eexists. unfold act. cbn [trace self].
      split_and!; [done|done| |done|done].
      simpl. intros Hel. elem_absurd Hel. }
    pose proof (attemptLoop_turn (options (self w)) (nextTask w) ci 1
      (t_device (entered (nextTask w) ci))) as [Hloop _].
    unfold connectToDevice.
    destruct (attemptLoop (options (self w)) (nextTask w) ci 1) as [effs t'].
    cbn [fst] in Hloop.
    destruct (untimed_readers (nextTask w)
      (SetStatus (deviceId ci) CONNECTING :: effs)) as (He & Hm & Hc).
    { constructor; [done|]. by eapply owned_untimed. }
    eexists (_ :: tag (nextTask w) (SetStatus (deviceId ci) CONNECTING :: effs)).
    unfold settleTask, act. cbn [trace self fst].
    split_and!; [by rewrite <- app_assoc|done| |done|done].
    simpl. intros Hel. simpl in He. by apply He.
  - simpl. destruct (pending w !! tid) as [t|].
    2:{ exists []. rewrite app_nil_r. split_and!; try done. apply not_elem_of_nil. }
    pose proof (resume_turn (options (self w)) tid t o) as [Howned _].
    destruct (untimed_readers tid (resume (options (self w)) tid t o).1)
      as (He & Hm & Hc); [by eapply owned_untimed|].
    eexists. unfold settleTask, act. cbn [trace self].
    split_and!; done.
Qed.

Lemma setups_emitted queue :
  emitted (queue ≫= λ cb, setupStateMap cb.1 cb.2) = [].
Proof. induction queue as [|[ci nd] queue IH]; [done|]. by simpl. Qed.

Lemma setups_stateMapRuns (queue : list (ConnectionInfo * NetworkDevice)) :
  stateMapRuns (queue ≫= λ cb, setupStateMap cb.1 cb.2) = queue.
Proof.
  induction queue as [|[ci nd] queue IH]; [done|].
  simpl. unfold stateMapRuns in *. simpl. by f_equal.
Qed.

Lemma setups_cleared queue :
  cleared (queue ≫= λ cb, setupStateMap cb.1 cb.2) = false.
Proof. induction queue as [|[ci nd] queue IH]; [done|]. by simpl. Qed.

Lemma intervalCallback_fire this :
  foundDevices this && allConnected this = true →
  emitted (intervalCallback this) = [EReady]
  ∧ stateMapRuns (intervalCallback this) = stateMapCallback this
  ∧ cleared (intervalCallback this) = true.
Proof.
  intros Hfire.
  assert (∃ pre, intervalCallback this
                 = (pre ++ [(OTimer, ClearInterval)])
                   ++ (stateMapCallback this ≫= λ cb, setupStateMap cb.1 cb.2)
                   ++ [(OTimer, Emit EReady)]
                 ∧ Forall (λ oe, ∃ lvl msg, oe = (OTimer, Log lvl msg)) pre)
    as (pre & -> & Hpre).
  { unfold intervalCallback. rewrite Hfire. eexists [_; _; _].
    split; [done|]. repeat constructor; by eexists _, _. }
  assert (emitted pre = [] ∧ stateMapRuns pre = []) as [He Hm].
  { clear Hfire. induction Hpre as [|? ? (? & ? & ->) _ [? ?]]; [done|].
    by split. }
  rewrite !emitted_app, !stateMapRuns_app, !cleared_app.
  rewrite setups_emitted, setups_stateMapRuns, setups_cleared, He, Hm.
  split_and!; [done|simpl; apply app_nil_r|].
  simpl. by rewrite orb_true_r.
Qed.

Lemma intervalCallback_wait this :
  foundDevices this && allConnected this = false →
  emitted (intervalCallback this) = []
  ∧ stateMapRuns (intervalCallback this) = []
  ∧ cleared (intervalCallback this) = false.
Proof. intros Hwait. unfold intervalCallback. by rewrite Hwait. Qed.

Lemma foundDevices_true this :
  foundDevices this = true → ∃ k s, discoveryStatus this !! k = Some s.
Proof.
  unfold foundDevices. intros Hf%bool_decide_eq_true.
  destruct (map_to_list (discoveryStatus this)) as [|[k s] l] eqn:Hl;
    [simpl in Hf; lia|].
  exists k, s. apply elem_of_map_to_list. rewrite Hl. by left.
Qed.

Lemma allConnected_true this k :
  allConnected this = true → discoveryStatus this !! k ≠ Some CONNECTING.
Proof.
  unfold allConnected. intros Ha%negb_true_iff%bool_decide_eq_false Hk.
  apply Ha, list_elem_of_fmap. exists (k, CONNECTING).
  split; [done|]. by apply elem_of_map_to_list.
Qed.

Lemma filter_ready_absent (evs : list Event) :
  EReady ∉ evs → filter (EReady =.) evs = [].
Proof.
  induction evs as [|e evs IH]; [done|].
  rewrite not_elem_of_cons. intros [Hne Hevs].
  by rewrite filter_cons_False, IH.
Qed.

Lemma tick_armed w :
  deviceWatchTimeout (self w) = true →
  step w Tick = act (intervalCallback (self w)) w.
Proof. intros H. simpl. by rewrite H. Qed.

Lemma tick_cleared w : deviceWatchTimeout (self w) = false → step w Tick = w.
Proof. intros H. simpl. by rewrite H. Qed.

Lemma act_self effs w : self (act effs w) = foldl perform (self w) effs.*2.
Proof. done. Qed.

Lemma act_trace effs w : trace (act effs w) = trace w ++ effs.
Proof. done. Qed.

Lemma barrier_run opts ins : barrierState opts ins (run (init opts) ins).
Proof.
  induction ins as [|i ins IH] using rev_ind.
  { left. split_and!; [done| |done]. simpl. apply not_elem_of_nil. }
  rewrite run_snoc. set (w := run (init opts) ins) in *.
  unfold barrierState in IH |- *.
  assert (i = Tick ∨ i ≠ Tick) as [->|Hi]
    by (destruct i; [by right|by right|by left]).
  - destruct IH as [(Ht & Hr & Hs)|(Ht & ins1 & ins2 & -> & ?)].
    + rewrite tick_armed by done.
      destruct (foundDevices (self w) && allConnected (self w)) eqn:Hfire.
      * destruct (intervalCallback_fire _ Hfire) as (He & Hm & Hc).
        apply andb_true_iff in Hfire as [Hfound Hall].
        right. rewrite act_self, act_trace, perform_timer, Hc, andb_false_r.
        split; [done|]. exists ins, []. split_and!; try done.
        -- by apply foundDevices_true.
        -- intros k. by apply allConnected_true.
        -- by rewrite emitted_app, filter_app, filter_ready_absent, He.
        -- by rewrite stateMapRuns_app, Hs, Hm.
      * destruct (intervalCallback_wait _ Hfire) as (He & Hm & Hc).
        left. rewrite act_self, act_trace, perform_timer, Hc, Ht.
        split_and!; [done| |].
        -- by rewrite emitted_app, He, app_nil_r.
        -- by rewrite stateMapRuns_app, Hs, Hm.
    + right. rewrite tick_cleared by done. split; [done|].
      exists ins1, (ins2 ++ [Tick]). by rewrite <-app_assoc.
  - destruct (not_tick_effects w i Hi) as (effs & Htr & Hself & He & Hm & Hc).
    assert (deviceWatchTimeout (self (step w i)) = deviceWatchTimeout (self w))
      as Htimer.
    { by rewrite Hself, perform_timer, Hc, andb_true_r. }
    rewrite Htimer, Htr, emitted_app, stateMapRuns_app, Hm, app_nil_r.
    destruct IH as [(Ht & Hr & Hs)|(Ht & ins1 & ins2 & -> & H1 & H2 & H3 & H4 & H5)].
    + left. split_and!; [done| |done].
      rewrite elem_of_app. by intros [?|?].
    + right. split; [done|]. exists ins1, (ins2 ++ [i]).
      rewrite <-app_assoc. split_and!; try done.
      by rewrite filter_app, (filter_ready_absent (emitted effs)), app_nil_r.
Qed.

(** With no discovery message nothing is tracked, nothing is suspended
    and [ready] is not emitted. *)
Lemma quiet_network opts ins :
  (∀ ci, Discovered ci ∉ ins) →
  let w := run (init opts) ins in
  discoveryStatus (self w) = ∅ ∧ pending w = ∅ ∧ (EReady ∉ emitted (trace w)).
Proof.
  induction ins as [|i ins IH] using rev_ind; intros Hno.
  { simpl. split_and!; [done..|apply not_elem_of_nil]. }
  simpl. rewrite run_snoc. destruct IH as (Hs & Hp & Hr).
  { intros ci H. apply (Hno ci), elem_of_app. by left. }
  destruct i as [ci|tid o|].
  - destruct (Hno ci). apply elem_of_app. right. by left.
  - simpl. by rewrite Hp, lookup_empty.
  - simpl. case_match; [|done].
    unfold intervalCallback, foundDevices. rewrite Hs, map_to_list_empty.
    simpl. split_and!; try done.
    by rewrite emitted_app, app_nil_r.
Qed.

Lemma foundDevices_intro this k s :
  discoveryStatus this !! k = Some s → foundDevices this = true.
Proof.
  intros Hs. apply bool_decide_eq_true. apply elem_of_map_to_list in Hs.
  rewrite length_fmap. destruct (map_to_list (discoveryStatus this)); simpl.
  - by apply elem_of_nil in Hs.
  - lia.
Qed.

Lemma allConnected_intro this :
  (∀ k, discoveryStatus this !! k ≠ Some CONNECTING) → allConnected this = true.
Proof.
  intros Hnone. unfold allConnected. apply negb_true_iff, bool_decide_eq_false.
  intros ([k s] & Heq & Hel%elem_of_map_to_list)%list_elem_of_fmap.
  simpl in Heq. subst s. by apply (Hnone k).
Qed.

Lemma barrierOpen_test w :
  barrierOpen w ↔ foundDevices (self w) && allConnected (self w) = true.
Proof.
  rewrite andb_true_iff. split.
  - intros [(k & s & Hs) Hnone]. split.
    + by apply (foundDevices_intro _ k s).
    + by apply allConnected_intro.
  - intros [Hfound Hall]. split.
    + by apply foundDevices_true.
    + intros k. by apply allConnected_true.
Qed.

(** The interval is set exactly as long as [ready] was not emitted. *)
Lemma ready_timer opts ins :
  let w := run (init opts) ins in
  if deviceWatchTimeout (self w)
  then (EReady ∉ emitted (trace w)) ∧ stateMapRuns (trace w) = []
  else filter (EReady =.) (emitted (trace w)) = [EReady].
Proof.
  intros w. subst w.
  destruct (barrier_run opts ins)
    as [(Ht & Hr & Hs)|(Ht & ins1 & ins2 & _ & _ & _ & _ & Hr & _)];
    by rewrite Ht.
Qed.

Lemma ready_armed opts ins :
  let w := run (init opts) ins in
  (EReady ∉ emitted (trace w)) →
  deviceWatchTimeout (self w) = true ∧ stateMapRuns (trace w) = [].
Proof.
  intros w Hnot. pose proof (ready_timer opts ins) as Htimer.
  cbv zeta in Htimer. fold w in Htimer.
  destruct (deviceWatchTimeout (self w)); [by destruct Htimer|].
  destruct Hnot.
  assert (EReady ∈ filter (EReady =.) (emitted (trace w))) as Hel
    by (rewrite Htimer; apply list_elem_of_here).
  by apply list_elem_of_filter in Hel as [_ Hel].
Qed.

(** The step on which the barrier fires. *)
Lemma barrier_fires opts ins :
  let w := run (init opts) ins in
  (EReady ∉ emitted (trace w)) → barrierOpen w →
  trace (step w Tick) = trace w ++ intervalCallback (self w)
  ∧ emitted (trace (step w Tick)) = emitted (trace w) ++ [EReady]
  ∧ stateMapRuns (trace w) = []
  ∧ stateMapRuns (trace (step w Tick)) = stateMapCallback (self w)
  ∧ deviceWatchTimeout (self (step w Tick)) = false.
Proof.
  intros w Hnot Hopen.
  destruct (ready_armed opts ins Hnot) as [Harmed Hruns]. fold w in Harmed, Hruns.
  apply barrierOpen_test in Hopen.
  destruct (intervalCallback_fire _ Hopen) as (He & Hm & Hc).
  rewrite tick_armed by done.
  rewrite act_trace, act_self, emitted_app, stateMapRuns_app, perform_timer.
  rewrite He, Hm, Hc, Hruns, andb_false_r. by split_and!.
Qed.

(** Every other step. *)
Lemma barrier_waits opts ins i :
  let w := run (init opts) ins in
  ¬ (i = Tick ∧ (EReady ∉ emitted (trace w)) ∧ barrierOpen w) →
  filter (EReady =.) (emitted (trace (step w i)))
  = filter (EReady =.) (emitted (trace w))
  ∧ stateMapRuns (trace (step w i)) = stateMapRuns (trace w).
Proof.
  intros w Hnot.
  assert (i = Tick ∨ i ≠ Tick) as [->|Hi]
    by (destruct i; [by right|by right|by left]).
  - destruct (deviceWatchTimeout (self w)) eqn:Harmed;
      [|by rewrite tick_cleared].
    pose proof (ready_timer opts ins) as Htimer.
    cbv zeta in Htimer. fold w in Htimer. rewrite Harmed in Htimer.
    destruct Htimer as [Hr _].
    destruct (foundDevices (self w) && allConnected (self w)) eqn:Htest.
    { destruct Hnot. split_and!; [done|done|]. by apply barrierOpen_test. }
    destruct (intervalCallback_wait _ Htest) as (He & Hm & _).
    rewrite tick_armed by done.
    by rewrite act_trace, emitted_app, stateMapRuns_app, He, Hm, !app_nil_r.
  - destruct (not_tick_effects w i Hi) as (effs & -> & _ & He & Hm & _).
    rewrite emitted_app, stateMapRuns_app, filter_app, Hm, app_nil_r.
    by rewrite (filter_ready_absent (emitted effs)), app_nil_r.
Qed.

(** C1: in every run [ready] is emitted at most once.  It is emitted by
    the interval callback, on the tick at which [ready] was not emitted
    yet, the tracker holds at least one key and no key is CONNECTING:
    on that step the callback invokes [setupStateMap] once for each pair
    of the deferred queue, in order, and then emits [ready];
    [setupStateMap] was not invoked before.  On any other step, a tick
    or not, [ready] is not emitted and [setupStateMap] is not invoked.
    So a run in which [ready] was emitted has one tick at which the
    barrier was open, on which [ready] was emitted, and its invocations
    of [setupStateMap] are those of that tick, the queue of that
    moment.  If no discovery message is ever handled, [ready] is never
    emitted. *)
Theorem ready_barrier (opts : StageLinqOptions) (ins : list Input) :
  let w := run (init opts) ins in
  (length (filter (EReady =.) (emitted (trace w))) ≤ 1)%nat
  ∧ ((EReady ∉ emitted (trace w)) → barrierOpen w →
     trace (step w Tick) = trace w ++ intervalCallback (self w)
     ∧ emitted (trace (step w Tick)) = emitted (trace w) ++ [EReady]
     ∧ stateMapRuns (trace w) = []
     ∧ stateMapRuns (trace (step w Tick)) = stateMapCallback (self w))
  ∧ (∀ i, ¬ (i = Tick ∧ (EReady ∉ emitted (trace w)) ∧ barrierOpen w) →
       filter (EReady =.) (emitted (trace (step w i)))
       = filter (EReady =.) (emitted (trace w))
       ∧ stateMapRuns (trace (step w i)) = stateMapRuns (trace w))
  ∧ ((EReady ∉ emitted (trace w)) ∧ stateMapRuns (trace w) = []
     ∨ ∃ ins1 ins2, ins = ins1 ++ Tick :: ins2
       ∧ let w1 := run (init opts) ins1 in
         (EReady ∉ emitted (trace w1))
         ∧ barrierOpen w1
         ∧ emitted (trace (step w1 Tick)) = emitted (trace w1) ++ [EReady]
         ∧ stateMapRuns (trace (step w1 Tick)) = stateMapCallback (self w1)
         ∧ filter (EReady =.) (emitted (trace w)) = [EReady]
         ∧ stateMapRuns (trace w) = stateMapCallback (self w1))
  ∧ ((∀ ci, Discovered ci ∉ ins) → EReady ∉ emitted (trace w)).
Proof.
  intros w. split_and!.
  - destruct (barrier_run opts ins)
      as [(_ & Hr & _)|(_ & ? & ? & _ & _ & _ & _ & Hr & _)]; fold w in Hr.
    + rewrite filter_ready_absent by done. simpl. lia.
    + rewrite Hr. simpl. lia.
  - intros Hnot Hopen.
    by destruct (barrier_fires opts ins Hnot Hopen) as (? & ? & ? & ? & _).
  - intros i. apply barrier_waits.
  - destruct (barrier_run opts ins)
      as [(_ & Hr & Hs)|(_ & ins1 & ins2 & ? & Hnot & Hk & Hnone & ? & ?)].
    + by left.
    + right. exists ins1, ins2.
      destruct (barrier_fires opts ins1 Hnot (conj Hk Hnone))
        as (_ & ? & _ & ? & _).
      by split_and!.
  - intros Hno. by apply quiet_network.
Qed.

Lemma ready_barrier_witness :
  let w := run (init options3) firstAttempt in
  emitted (trace (step w Tick)) = emitted (trace w) ++ [EReady]
  ∧ stateMapRuns (trace (step w Tick)) = [(token16, session 0 token16 1)]
  ∧ (EReady ∉ emitted (trace (run (init options3) [Tick; Tick]))).
Proof.
  intros w.
  assert (discoveryStatus (self w) = <[deviceId token16 := CONNECTED]> ∅) as Hmap
    by (vm_compute; reflexivity).
  destruct (proj1 (proj2 (ready_barrier options3 firstAttempt)))
    as (_ & He & _ & Hm).
  - fold w. match goal with |- ?P => apply (@bool_decide_unpack P _) end.
    vm_compute. exact I.
  - fold w. split.
    + exists (deviceId token16), CONNECTED. by rewrite Hmap, lookup_insert_eq.
    + intros k. rewrite Hmap.
      destruct (decide (k = deviceId token16)) as [->|Hne].
      * by rewrite lookup_insert_eq.
      * rewrite lookup_insert_ne by done. by rewrite lookup_empty.
  - split_and!; [exact He|exact Hm|].
    apply (proj2 (proj2 (proj2 (proj2 (ready_barrier options3 [Tick; Tick]))))).
    intros ci H. elem_absurd H.
Defined.

(** ** The registry *)

Lemma hexDigit_not_n (x : N) : hexDigit x ≠ "n"%char.
Proof. by repeat (done || destruct x as [|x] || destruct x as [x|x|]). Qed.

Lemma sourceId_not_net ci sid x : sourceId ci = inr sid → sid ≠ "net://" +:+ x.
Proof.
  destruct (decide (16 ≤ length (token ci))%nat) as [Hlen|Hlen].
  - rewrite sourceId_long by done. intros [= <-].
    destruct (token ci) as [|b tok]; [simpl in Hlen; lia|].
    intros [= H%hexDigit_not_n]. done.
  - rewrite sourceId_short by lia. done.
Qed.

(** C9: [downloadFile] with a [deviceId] that is not a key of the
    registry throws a [TypeError] before it calls the file-transfer
    service.  In every run the keys of the registry start with
    ["net://"], so the identifier [sourceId] derives from a token is never
    one of them. *)
Theorem downloadFile_absent :
  (∀ this deviceId path,
     devices this !! deviceId = None →
     ∃ msg, downloadFile this deviceId path = Raise (TypeError msg))
  ∧ (∀ opts ins id,
       is_Some (devices (self (run (init opts) ins)) !! id) →
       ∃ sid, id = "net://" +:+ sid)
  ∧ (∀ opts ins ci sid path,
       sourceId ci = inr sid →
       devices (self (run (init opts) ins)) !! sid = None
       ∧ ∃ msg, downloadFile (self (run (init opts) ins)) sid path
                = Raise (TypeError msg)).
Proof.
  assert (∀ opts ins id,
    is_Some (devices (self (run (init opts) ins)) !! id) →
    ∃ sid, id = "net://" +:+ sid) as Hnet.
  { intros opts ins id [d Hd].
    destruct (cons_devices _ _ (consistent_run opts ins) _ _ Hd) as [o Ho].
    by destruct (inv_devices _ (inv_run opts ins) _ _ _ Ho) as (? & _). }
  assert (∀ this deviceId path,
    devices this !! deviceId = None →
    ∃ msg, downloadFile this deviceId path = Raise (TypeError msg)) as Hraise.
  { intros this id path Hid. unfold downloadFile. rewrite Hid. by eexists. }
  split_and!; [done..|].
  intros opts ins ci sid path Hsid.
  assert (devices (self (run (init opts) ins)) !! sid = None) as Hnone.
  { apply eq_None_not_Some. intros [x ->]%Hnet.
    by eapply sourceId_not_net. }
  split; [done|]. by apply Hraise.
Qed.

Lemma downloadFile_absent_witness :
  ∃ msg,
    downloadFile (self (run (init options3) downloadFails))
      "00010203-0405-0607-0809-0a0b0c0d0e0f" "/music/track.mp3"
    = Raise (TypeError msg).
Proof.
  apply (proj2 (proj2 downloadFile_absent) options3 downloadFails token16).
  reflexivity.
Defined.

Lemma handleDevice_known_key_witness :
  let w := run (init options3) [Discovered token16] in
  let w' := step w (Discovered token16) in
  self w' = self w ∧ pending w' = pending w ∧ nextTask w' = nextTask w
  ∧ emitted (trace w') = emitted (trace w).
Proof.
  intros w w'.
  destruct (handleDevice_known_key w token16 CONNECTING)
    as (Hs & Hp & Hn & _ & He & _); [reflexivity|].
  by split_and!.
Defined.

Lemma maxRetries_one_no_attempt_witness :
  let w' := step (init options1) (Discovered token16) in
  attempts 0 (trace w') = []
  ∧ pending w' !! 0%nat = None
  ∧ discoveryStatus (self w') !! deviceId token16 = Some FAILED.
Proof.
  intros w'.
  destruct (maxRetries_one_no_attempt (init options1) token16)
    as (_ & Ha & Hp & Hs); [reflexivity..|].
  by split_and!.
Defined.

(** ** One invocation of [connectToDevice] among the others *)

Lemma elem_byTask tid e tr : e ∈ byTask tid tr ↔ (OConnectToDevice tid, e) ∈ tr.
Proof.
  unfold byTask. rewrite list_elem_of_omap. split.
  - intros ([o e'] & Hin & Hf). simpl in Hf.
    destruct o; try done. case_decide; by simplify_eq.
  - intros Hin. exists (OConnectToDevice tid, e). split; [done|].
    simpl. by rewrite decide_True.
Qed.

Lemma byTask_fresh w tid : Inv w → (nextTask w ≤ tid)%nat → byTask tid (trace w) = [].
Proof.
  intros Hinv Hle. apply elem_of_nil_inv. intros e He%elem_byTask.
  apply (inv_origin _ Hinv) in He. lia.
Qed.

Lemma step_options w i : options (self (step w i)) = options (self w).
Proof.
  destruct (step_act w i) as (effs & _ & ->). apply perform_options.
Qed.

Lemma step_nextTask w i : (nextTask w ≤ nextTask (step w i))%nat.
Proof.
  destruct i as [ci|tid o|]; simpl.
  - unfold handleDevice. case_match; simpl; lia.
  - by case_match.
  - by case_match.
Qed.

Lemma settleTask_byTask tid tid' r w :
  byTask tid (trace (settleTask tid' r w))
  = byTask tid (trace w) ++ (if decide (tid = tid') then r.1 else [])
  ∧ pending (settleTask tid' r w) !! tid
    = if decide (tid = tid') then r.2 else pending w !! tid.
Proof.
  unfold settleTask. simpl. rewrite byTask_app. case_decide as Hne.
  - subst. rewrite byTask_tag. split; [done|].
    destruct r.2; [apply lookup_insert_eq|apply lookup_delete_eq].
  - rewrite byTask_tag_ne by done. split; [done|].
    destruct r.2; [by rewrite lookup_insert_ne|by rewrite lookup_delete_ne].
Qed.

Lemma drive_nil opts tid t : drive opts tid t [] = ([], t).
Proof. by destruct t. Qed.

Lemma drive_one opts tid t o :
  drive opts tid (Some t) [o] = resume opts tid t o.
Proof.
  cbn [drive]. destruct (resume opts tid t o) as [effs [t'|]]; cbn [fst snd];
    by rewrite app_nil_r.
Qed.

(** Only the settlement of its own promises moves an invocation. *)
Lemma step_byTask w i tid :
  (tid < nextTask w)%nat →
  let r := drive (options (self w)) tid (pending w !! tid) (settles tid [i]) in
  byTask tid (trace (step w i)) = byTask tid (trace w) ++ r.1
  ∧ pending (step w i) !! tid = r.2.
Proof.
  intros Hlt r. subst r. destruct i as [ci|tid' o|].
  - change (settles tid [Discovered ci]) with (@nil Settled).
    rewrite drive_nil. cbn [fst snd]. rewrite app_nil_r.
    change (step w (Discovered ci)) with (handleDevice ci w).
    destruct (isConnected (self w) ci || isConnecting (self w) ci
              || isFailed (self w) ci || isIgnored (options (self w)) ci)
      eqn:Hguard.
    + unfold handleDevice. rewrite Hguard.
      rewrite act_trace, byTask_app. split; [apply app_nil_r|done].
    + apply orb_false_elim in Hguard as [Hknown%status_absent Hi].
      rewrite handleDevice_fresh by done.
      destruct (settleTask_byTask tid (nextTask w)
        (attemptLoop (options (self w)) (nextTask w) ci 1) (mark ci w))
        as [Hb Hp].
      rewrite decide_False in Hb by lia. rewrite decide_False in Hp by lia.
      rewrite Hb, Hp. cbn [trace pending mark].
      rewrite byTask_app, !app_nil_r, lookup_insert_ne by lia.
      split; [|done]. unfold byTask at 2. simpl.
      rewrite decide_False by lia. apply app_nil_r.
  - change (step w (Settle tid' o))
      with (match pending w !! tid' with
            | Some t => settleTask tid' (resume (options (self w)) tid' t o) w
            | None => w
            end).
    destruct (decide (tid' = tid)) as [->|Hne].
    + assert (settles tid [Settle tid o] = [o]) as ->.
      { unfold settles. simpl. by rewrite decide_True. }
      destruct (pending w !! tid) as [t|] eqn:Ht.
      * rewrite drive_one.
        destruct (settleTask_byTask tid tid (resume (options (self w)) tid t o) w)
          as [Hb Hp].
        rewrite decide_True in Hb by done. by rewrite decide_True in Hp by done.
      * simpl. by rewrite app_nil_r.
    + assert (settles tid [Settle tid' o] = []) as ->.
      { unfold settles. simpl. by rewrite decide_False. }
      rewrite drive_nil. cbn [fst snd]. rewrite app_nil_r.
      destruct (pending w !! tid') as [t'|] eqn:Ht'; [|done].
      destruct (settleTask_byTask tid tid' (resume (options (self w)) tid' t' o) w)
        as [Hb Hp].
      rewrite decide_False in Hb by done. rewrite decide_False in Hp by done. by rewrite app_nil_r in Hb.
  - change (settles tid [Tick]) with (@nil Settled).
    rewrite drive_nil. cbn [fst snd]. rewrite app_nil_r.
    change (step w Tick)
      with (if deviceWatchTimeout (self w)
            then act (intervalCallback (self w)) w else w).
    case_match; [|done].
    rewrite act_trace, byTask_app,
      (silent_byTask (intervalCallback (self w))), app_nil_r; [done|].
    apply intervalCallback_silent.
Qed.

Lemma drive_app opts tid t os1 os2 :
  drive opts tid t (os1 ++ os2)
  = ((drive opts tid t os1).1
       ++ (drive opts tid (drive opts tid t os1).2 os2).1,
     (drive opts tid (drive opts tid t os1).2 os2).2).
Proof.
  revert t. induction os1 as [|o os1 IH]; intros t.
  - rewrite drive_nil. simpl. by destruct (drive opts tid t os2).
  - destruct t as [t|].
    + cbn [app drive fst snd]. rewrite IH. cbn [fst snd].
      by rewrite app_assoc.
    + simpl. by destruct os2.
Qed.

Lemma run_options w ins : options (self (run w ins)) = options (self w).
Proof.
  induction ins as [|i ins IH] using rev_ind; [done|].
  by rewrite run_snoc, step_options.
Qed.

Lemma run_nextTask w ins : (nextTask w ≤ nextTask (run w ins))%nat.
Proof.
  induction ins as [|i ins IH] using rev_ind; [done|].
  rewrite run_snoc. pose proof (step_nextTask (run w ins) i). lia.
Qed.

(** Under any interleaving, an invocation does what it would do alone
    with the same outcomes of its promises. *)
Lemma run_byTask w ins tid :
  (tid < nextTask w)%nat →
  let r := drive (options (self w)) tid (pending w !! tid) (settles tid ins) in
  byTask tid (trace (run w ins)) = byTask tid (trace w) ++ r.1
  ∧ pending (run w ins) !! tid = r.2.
Proof.
  intros Hlt r. subst r. induction ins as [|i ins [IHb IHp]] using rev_ind.
  - change (settles tid []) with (@nil Settled). rewrite drive_nil.
    split; [symmetry; apply app_nil_r|done].
  - rewrite run_snoc.
    destruct (step_byTask (run w ins) i tid) as [Hb Hp].
    { pose proof (run_nextTask w ins). lia. }
    rewrite run_options, IHp in Hb, Hp.
    unfold settles. rewrite omap_app. fold (settles tid ins) (settles tid [i]).
    rewrite drive_app. cbn [fst snd].
    by rewrite Hb, Hp, IHb, app_assoc.
Qed.

Lemma invocation_trace opts ins1 ci ins2 :
  let w1 := run (init opts) ins1 in
  let tid := nextTask w1 in
  discoveryStatus (self w1) !! deviceId ci = None →
  isIgnored opts ci = false →
  let w2 := run w1 (Discovered ci :: ins2) in
  let r := invocation opts tid ci (settles tid ins2) in
  byTask tid (trace w2) = r.1 ∧ pending w2 !! tid = r.2.
Proof.
  intros w1 tid Hs Hi w2 r. subst w2 r.
  assert (options (self w1) = opts) as Hopts
    by apply (cons_options _ _ (consistent_run opts ins1)).
  change (run w1 (Discovered ci :: ins2))
    with (run (handleDevice ci w1) ins2).
  rewrite handleDevice_fresh by (by rewrite ?Hopts).
  rewrite Hopts. fold tid.
  set (r0 := attemptLoop opts tid ci 1).
  destruct (settleTask_byTask tid tid r0 (mark ci w1)) as [Hb Hp].
  rewrite decide_True in Hb by done. rewrite decide_True in Hp by done.
  destruct (run_byTask (settleTask tid r0 (mark ci w1)) ins2 tid) as [Hb' Hp'].
  { simpl. fold tid. lia. }
  assert (options (self (settleTask tid r0 (mark ci w1))) = opts) as Hopts'.
  { unfold settleTask. rewrite act_self, perform_options. simpl. done. }
  rewrite Hopts', Hp in Hb', Hp'. rewrite Hb', Hp', Hb.
  cbn [trace mark]. rewrite byTask_app, (byTask_fresh w1 tid); [|apply inv_run|done].
  unfold invocation, connectToDevice. fold r0. destruct r0 as [effs0 t0].
  cbn [fst snd]. split; [|done].
  unfold byTask at 1. simpl. fold tid. rewrite decide_True by done.
  simpl. done.
Qed.

(** ** One invocation, attempt by attempt *)

Lemma drive_none opts tid os : drive opts tid None os = ([], None).
Proof. by destruct os. Qed.

Lemma drive_cons opts tid t o os :
  drive opts tid (Some t) (o :: os)
  = ((resume opts tid t o).1 ++ (drive opts tid (resume opts tid t o).2 os).1,
     (drive opts tid (resume opts tid t o).2 os).2).
Proof. done. Qed.

Lemma resume_rejected opts tid t e :
  t_attempt t + 1 < maxRetries opts →
  resume opts tid t (Rejected e)
  = ([Log Warn (MsgCouldNotConnect (deviceId (t_info t)) (t_attempt t)
                  (maxRetries opts) e);
      Log Info (MsgConnecting (deviceId (t_info t)) (t_attempt t + 1)
                  (maxRetries opts));
      Connect (session tid (t_info t) (t_attempt t + 1))],
     Some {| t_info := t_info t; t_attempt := t_attempt t + 1;
             t_device := session tid (t_info t) (t_attempt t + 1);
             t_at := AwaitConnect |}).
Proof.
  intros Hlt. unfold resume, catchRetry, attemptLoop.
  by rewrite bool_decide_eq_true_2.
Qed.

(** Search an explicit list. *)
Ltac elem_find :=
  simpl; repeat first [apply list_elem_of_here | apply list_elem_of_further].

Section resume.
Context (opts : StageLinqOptions) (tid : nat) (t : Task).

Lemma resume_connect_ok sid :
  t_at t = AwaitConnect → sourceId (t_info t) = inr sid →
  resume opts tid t Fulfilled
  = ([Log Info (MsgStartingFileTransfer (deviceId (t_info t)));
      ConnectToService (t_device t) FileTransferService],
     Some {| t_info := t_info t; t_attempt := t_attempt t;
             t_device := t_device t; t_at := AwaitFileTransfer sid |}).
Proof.
  intros Hat Hsid. unfold resume, setupFileTransferService.
  by rewrite Hat, Hsid.
Qed.

Lemma resume_fileTransfer_ok sid :
  t_at t = AwaitFileTransfer sid → downloadDbSources opts = true →
  resume opts tid t Fulfilled
  = ([SetDevice ("net://" +:+ sid)
        {| networkDevice := t_device t;
           fileTransferService := {| ft_device := t_device t |} |};
      DownloadSources (t_info t) (t_device t)],
     Some {| t_info := t_info t; t_attempt := t_attempt t;
             t_device := t_device t; t_at := AwaitDownload |}).
Proof. intros Hat Hdb. unfold resume. by rewrite Hat, Hdb. Qed.

Lemma resume_fileTransfer_last sid :
  t_at t = AwaitFileTransfer sid → downloadDbSources opts = false →
  resume opts tid t Fulfilled
  = (SetDevice ("net://" +:+ sid)
       {| networkDevice := t_device t;
          fileTransferService := {| ft_device := t_device t |} |}
     :: attemptDone t, None).
Proof. intros Hat Hdb. unfold resume. by rewrite Hat, Hdb. Qed.

Lemma resume_download_ok :
  t_at t = AwaitDownload →
  resume opts tid t Fulfilled
  = ([Log Debug MsgDatabaseSources;
      Log Debug (MsgDatabaseDownloadComplete (source (t_info t)))]
     ++ attemptDone t, None).
Proof. intros Hat. unfold resume. by rewrite Hat. Qed.
End resume.

Lemma drive_rejected opts tid ci (n : nat) t errs :
  t_info t = ci →
  maxRetries opts - t_attempt t = Z.of_nat (S n) →
  (S n ≤ length errs)%nat →
  let r := drive opts tid (Some t) (Rejected <$> errs) in
  r.2 = None
  ∧ connects r.1 = session tid ci <$> seqZ (t_attempt t + 1) (Z.of_nat n)
  ∧ throws r.1 = [JsErr ("Could not connect to " +:+ deviceId ci)]
  ∧ SetStatus (deviceId ci) FAILED ∈ r.1
  ∧ Forall hushed r.1.
Proof.
  revert t errs. induction n as [|n IH]; intros t [|e errs] Hci Hmax Hlen;
    simpl in Hlen; try lia.
  - cbn [fmap list_fmap drive resume]. unfold catchRetry, attemptLoop.
    rewrite bool_decide_eq_false_2 by lia. rewrite Hci. cbn [fst snd].
    rewrite drive_none. simpl. split_and!; try done.
    + by repeat constructor.
    + by repeat constructor.
  - cbn [fmap list_fmap drive resume]. unfold catchRetry, attemptLoop.
    rewrite bool_decide_eq_true_2 by lia. rewrite Hci. cbn [fst snd].
    match goal with
    | |- context [drive opts tid (Some ?t') _] =>
        destruct (IH t' errs) as (H2 & Hc & Ht & Hf & Hh);
          [done|simpl; lia|lia|]
    end.
    simpl in Hc. split_and!.
    + done.
    + rewrite (seqZ_cons (t_attempt t + 1)) by lia. simpl.
      rewrite Hc. do 3 f_equal; lia.
    + simpl. done.
    + do 3 apply list_elem_of_further. done.
    + by repeat (constructor; [done|]).
Qed.

Lemma invocation_rejected opts tid ci errs :
  (1 ≤ maxRetries opts)%Z →
  (Z.to_nat (maxRetries opts - 1) ≤ length errs)%nat →
  let r := invocation opts tid ci (Rejected <$> errs) in
  r.2 = None
  ∧ connects r.1 = session tid ci <$> seqZ 1 (maxRetries opts - 1)
  ∧ throws r.1 = [JsErr ("Could not connect to " +:+ deviceId ci)]
  ∧ SetStatus (deviceId ci) CONNECTING ∈ r.1
  ∧ SetStatus (deviceId ci) FAILED ∈ r.1
  ∧ Forall hushed r.1.
Proof.
  intros Hmax Hlen. unfold invocation, connectToDevice, attemptLoop.
  case_bool_decide as Hlt; cbn [fst snd].
  - match goal with
    | |- context [drive opts tid (Some ?t') _] =>
        destruct (drive_rejected opts tid ci (Z.to_nat (maxRetries opts - 2))
          t' errs) as (H2 & Hc & Ht & Hf & Hh); [done|simpl; lia|lia|]
    end.
    simpl in Hc. split_and!.
    + done.
    + rewrite (seqZ_cons 1) by lia. simpl. rewrite Hc.
      do 3 f_equal; lia.
    + simpl. done.
    + by left.
    + do 3 apply list_elem_of_further. done.
    + by repeat (constructor; [done|]).
  - rewrite drive_none. rewrite seqZ_nil by lia. simpl. split_and!; try done.
    + by repeat constructor.
    + by repeat constructor.
    + by repeat constructor.
Qed.

Lemma drive_success_attempt opts tid t sid rest :
  t_at t = AwaitConnect → sourceId (t_info t) = inr sid →
  ∃ effs,
    drive opts tid (Some t) (successSettles opts ++ rest) = (effs, None)
    ∧ connects effs = [] ∧ throws effs = []
    ∧ SetStatus (deviceId (t_info t)) CONNECTED ∈ effs
    ∧ PushCallback (t_info t) (t_device t) ∈ effs
    ∧ Emit (EConnected (t_info t)) ∈ effs.
Proof.
  intros Hat Hsid. unfold successSettles.
  destruct (downloadDbSources opts) eqn:Hdb; cbn [app].
  - rewrite drive_cons, (resume_connect_ok _ _ _ sid) by done. cbn [fst snd].
    rewrite drive_cons, (resume_fileTransfer_ok _ _ _ sid) by done.
    cbn [fst snd].
    rewrite drive_cons, resume_download_ok by done. cbn [fst snd].
    rewrite drive_none. eexists. split; [done|].
    split_and!; try done; elem_find.
  - rewrite drive_cons, (resume_connect_ok _ _ _ sid) by done. cbn [fst snd].
    rewrite drive_cons, (resume_fileTransfer_last _ _ _ sid) by done.
    cbn [fst snd]. rewrite drive_none. eexists. split; [done|].
    split_and!; try done; elem_find.
Qed.

(** An attempt fails and the next one begins. *)
Lemma drive_failure opts tid t sid f os :
  t_at t = AwaitConnect → sourceId (t_info t) = inr sid →
  (∀ e, f = FailDownload e → downloadDbSources opts = true) →
  t_attempt t + 1 < maxRetries opts →
  let t' := {| t_info := t_info t; t_attempt := t_attempt t + 1;
               t_device := session tid (t_info t) (t_attempt t + 1);
               t_at := AwaitConnect |} in
  ∃ pre,
    drive opts tid (Some t) (failureSettles f ++ os)
    = (pre ++ (drive opts tid (Some t') os).1, (drive opts tid (Some t') os).2)
    ∧ connects pre = [session tid (t_info t) (t_attempt t + 1)]
    ∧ throws pre = [].
Proof.
  intros Hat Hsid Hdb Hlt t'. destruct f as [e|e|e]; cbn [failureSettles app].
  - rewrite drive_cons, resume_rejected by done. cbn [fst snd].
    by eexists.
  - rewrite drive_cons, (resume_connect_ok _ _ _ sid) by done. cbn [fst snd].
    rewrite drive_cons, resume_rejected by done. cbn [fst snd].
    rewrite app_assoc. by eexists.
  - rewrite drive_cons, (resume_connect_ok _ _ _ sid) by done. cbn [fst snd].
    rewrite drive_cons, (resume_fileTransfer_ok _ _ _ sid) by eauto.
    cbn [fst snd].
    rewrite drive_cons, resume_rejected by done. cbn [fst snd].
    rewrite !app_assoc. by eexists.
Qed.

Lemma drive_succeeds opts tid ci sid fails rest t :
  t_info t = ci → t_at t = AwaitConnect →
  t_device t = session tid ci (t_attempt t) →
  sourceId ci = inr sid →
  (∀ e, FailDownload e ∈ fails → downloadDbSources opts = true) →
  t_attempt t + Z.of_nat (length fails) < maxRetries opts →
  let r := drive opts tid (Some t)
             ((fails ≫= failureSettles) ++ successSettles opts ++ rest) in
  r.2 = None
  ∧ connects r.1
    = session tid ci <$> seqZ (t_attempt t + 1) (Z.of_nat (length fails))
  ∧ throws r.1 = []
  ∧ SetStatus (deviceId ci) CONNECTED ∈ r.1
  ∧ PushCallback ci (session tid ci (t_attempt t + Z.of_nat (length fails)))
    ∈ r.1
  ∧ Emit (EConnected ci) ∈ r.1.
Proof.
  revert t. induction fails as [|f fails IH];
    intros t Hci Hat Hdev Hsid Hdb Hlt r; subst r.
  - cbn [mbind list_bind app length]. rewrite <-Hci in Hsid.
    destruct (drive_success_attempt opts tid t sid rest Hat Hsid)
      as (effs & -> & Hc & Ht & H1 & H2 & H3).
    rewrite Hci in H1, H2, H3. rewrite Hdev in H2.
    rewrite Z.add_0_r. by split_and!.
  - change ((f :: fails) ≫= failureSettles)
      with (failureSettles f ++ (fails ≫= failureSettles)).
    rewrite <-app_assoc. rewrite <-Hci in Hsid.
    destruct (drive_failure opts tid t sid f
      ((fails ≫= failureSettles) ++ successSettles opts ++ rest) Hat Hsid)
      as (pre & -> & Hc & Ht).
    { intros e ->. apply (Hdb e). by left. }
    { simpl in Hlt. lia. }
    rewrite Hci in *.
    match goal with
    | |- context [drive opts tid (Some ?t') _] =>
        destruct (IH t') as (H2 & Hc' & Ht' & Hs & Hp & He)
    end; try done.
    { intros e He. apply (Hdb e). by right. }
    { simpl in *. lia. }
    cbn [fst snd t_attempt] in *. split_and!.
    + done.
    + rewrite connects_app, Hc, Hc'.
      rewrite (seqZ_cons (t_attempt t + 1)) by (simpl; lia).
      simpl. do 3 f_equal; lia.
    + by rewrite throws_app, Ht, Ht'.
    + apply elem_of_app. by right.
    + apply elem_of_app. right.
      replace (t_attempt t + Z.of_nat (length (f :: fails)))
        with (t_attempt t + 1 + Z.of_nat (length fails)) by (simpl; lia).
      done.
    + apply elem_of_app. by right.
Qed.

Lemma invocation_succeeds opts tid ci sid fails rest :
  sourceId ci = inr sid →
  (∀ e, FailDownload e ∈ fails → downloadDbSources opts = true) →
  1 + Z.of_nat (length fails) < maxRetries opts →
  let r := invocation opts tid ci
             ((fails ≫= failureSettles) ++ successSettles opts ++ rest) in
  r.2 = None
  ∧ connects r.1 = session tid ci <$> seqZ 1 (1 + Z.of_nat (length fails))
  ∧ throws r.1 = []
  ∧ SetStatus (deviceId ci) CONNECTING ∈ r.1
  ∧ SetStatus (deviceId ci) CONNECTED ∈ r.1
  ∧ PushCallback ci (session tid ci (1 + Z.of_nat (length fails))) ∈ r.1
  ∧ Emit (EConnected ci) ∈ r.1.
Proof.
  intros Hsid Hdb Hlt. unfold invocation, connectToDevice, attemptLoop.
  rewrite bool_decide_eq_true_2 by lia. cbn [fst snd].
  match goal with
  | |- context [drive opts tid (Some ?t') _] =>
      destruct (drive_succeeds opts tid ci sid fails rest t')
        as (H2 & Hc & Ht & Hs & Hp & He); try done
  end.
  cbn [t_attempt] in *. split_and!.
  - done.
  - rewrite (seqZ_cons 1) by lia. simpl. rewrite Hc. do 3 f_equal; lia.
  - simpl. done.
  - by left.
  - do 3 right. done.
  - do 3 right. done.
  - do 3 right. done.
Qed.

Lemma elem_pushed o ci nd tr : (o, PushCallback ci nd) ∈ tr → (ci, nd) ∈ pushed tr.
Proof.
  intros H. apply list_elem_of_omap. by exists (o, PushCallback ci nd).
Qed.

Lemma singleton_of_elem {A} (l : list A) x : length l = 1%nat → x ∈ l → l = [x].
Proof.
  destruct l as [|y [|z l]]; try done.
  by intros _ ->%list_elem_of_singleton.
Qed.

(** ** What an invocation of [connectToDevice] has done *)

Section effects.
Implicit Types effs : list Effect.

Lemma marks_app effs1 effs2 : marks (effs1 ++ effs2) = marks effs1 ++ marks effs2.
Proof. apply omap_app. Qed.
Lemma registered_app effs1 effs2 :
  registered (effs1 ++ effs2) = registered effs1 ++ registered effs2.
Proof. apply omap_app. Qed.
Lemma queued_app effs1 effs2 :
  queued (effs1 ++ effs2) = queued effs1 ++ queued effs2.
Proof. apply omap_app. Qed.
Lemma events_app effs1 effs2 :
  events (effs1 ++ effs2) = events effs1 ++ events effs2.
Proof. apply omap_app. Qed.
Lemma writesOf_app k effs1 effs2 :
  writesOf k (effs1 ++ effs2) = writesOf k effs1 ++ writesOf k effs2.
Proof. apply omap_app. Qed.
Lemma queuedFor_app k effs1 effs2 :
  queuedFor k (effs1 ++ effs2) = queuedFor k effs1 ++ queuedFor k effs2.
Proof. apply omap_app. Qed.
Lemma eventsFor_app k effs1 effs2 :
  eventsFor k (effs1 ++ effs2) = eventsFor k effs1 ++ eventsFor k effs2.
Proof. apply omap_app. Qed.

End effects.

#[global] Hint Rewrite marks_app registered_app queued_app events_app
  writesOf_app queuedFor_app eventsFor_app : trace.

Lemma seqZ_snoc (a : Z) : (0 ≤ a)%Z → seqZ 1 (a + 1) = seqZ 1 a ++ [a + 1].
Proof.
  intros Ha. rewrite seqZ_app by lia. f_equal.
  rewrite (seqZ_cons (1 + a)) by lia. rewrite seqZ_nil by lia.
  f_equal. lia.
Qed.

(** [Progress] reads the effects through the six readers only. *)
Lemma progress_ext opts tid ci effs effs' t a bs fin :
  connects effs' = connects effs → marks effs' = marks effs →
  queued effs' = queued effs → events effs' = events effs →
  throws effs' = throws effs → registered effs' = registered effs →
  Progress opts tid ci (effs, t) a bs fin →
  Progress opts tid ci (effs', t) a bs fin.
Proof.
  intros Hc Hm Hq He Ht Hr [? ? ? ? ? ? ? ? ?]. cbn [fst snd] in *.
  split; cbn [fst snd]; rewrite ?Hc, ?Hm, ?Hq, ?He, ?Ht, ?Hr; done.
Qed.

Lemma progress_start opts tid ci :
  ∃ a fin, Progress opts tid ci (connectToDevice opts tid ci) a [] fin
           ∧ fin ≠ Some CONNECTED.
Proof.
  unfold connectToDevice, attemptLoop.
  destruct (bool_decide (1 < maxRetries opts)) eqn:Hlt.
  - apply bool_decide_eq_true in Hlt. exists 1, None.
    split; [|done]. split; cbn [fst snd]; try done.
    + lia.
    + intros id d Hel. by apply elem_of_nil in Hel.
    + intros b Hel. by apply elem_of_nil in Hel.
  - apply bool_decide_eq_false in Hlt. exists 0, (Some FAILED).
    split; [|done]. split; cbn [fst snd]; try done.
    + lia.
    + intros id d Hel. by apply elem_of_nil in Hel.
    + intros b Hel. by apply elem_of_nil in Hel.
    + lia.
Qed.

(** The [catch] block and the next turn of the loop. *)
Lemma progress_catch opts tid ci effs t a bs e :
  Progress opts tid ci (effs, Some t) a bs None →
  ∃ a' fin,
    Progress opts tid ci
      (effs ++ (catchRetry opts tid t e).1, (catchRetry opts tid t e).2)
      a' bs fin
    ∧ fin ≠ Some CONNECTED.
Proof.
  intros [Hc Hb Hm Hq He Ht Hr Hd (Hci & Hat & Hdev & H1 & _)].
  cbn [fst snd] in *. unfold catchRetry, attemptLoop.
  rewrite decide_False in Hm by done. rewrite decide_False in Ht by done.
  rewrite app_nil_r in Hm. rewrite Hci, Hat.
  destruct (bool_decide (a + 1 < maxRetries opts)) eqn:Hlt.
  - apply bool_decide_eq_true in Hlt. exists (a + 1), None.
    split; [|done]. split; cbn [fst snd]; autorewrite with trace.
    + rewrite Hc, seqZ_snoc, fmap_app by lia. done.
    + lia.
    + rewrite Hm, decide_False by done. by rewrite !app_nil_r.
    + rewrite Hq. apply app_nil_r.
    + rewrite He. apply app_nil_r.
    + rewrite Ht. done.
    + intros id d Hel. simpl in Hel. rewrite app_nil_r in Hel.
      destruct (Hr id d Hel) as (sid & b & ? & ? & ? & ?).
      exists sid, b. split_and!; try done; lia.
    + intros b Hel. destruct (Hd b Hel) as (Hb' & sid & Hs & Hreg).
      split; [lia|]. exists sid. split; [done|].
      simpl. by rewrite app_nil_r.
    + simpl. split_and!; try done. lia.
  - apply bool_decide_eq_false in Hlt. exists a, (Some FAILED).
    split; [|done]. split; cbn [fst snd]; autorewrite with trace.
    + rewrite Hc. apply app_nil_r.
    + lia.
    + rewrite Hm, decide_True by done. done.
    + rewrite Hq. apply app_nil_r.
    + rewrite He. apply app_nil_r.
    + rewrite Ht. done.
    + intros id d Hel. simpl in Hel. rewrite app_nil_r in Hel. by apply Hr.
    + intros b Hel. destruct (Hd b Hel) as (Hb' & sid & Hs & Hreg).
      split; [done|]. exists sid. split; [done|].
      simpl. by rewrite app_nil_r.
    + lia.
Qed.

(** The end of the [try] block, up to the call of the listeners. *)
Lemma progress_done opts tid ci effs t a bs sid :
  Progress opts tid ci (effs, Some t) a bs None →
  sourceId ci = inr sid →
  ("net://" +:+ sid, entryOf (session tid ci a)) ∈ registered effs →
  Progress opts tid ci (effs ++ attemptDone t, Some t) a (bs ++ [a]) None
  ∧ Progress opts tid ci (effs ++ attemptDone t, None) a (bs ++ [a])
      (Some CONNECTED).
Proof.
  intros [Hc Hb Hm Hq He Ht Hr Hd (Hci & Hat & Hdev & H1 & Hpoint)] Hsid Hreg.
  cbn [fst snd] in *. unfold attemptDone.
  rewrite decide_False in Hm by done. rewrite decide_False in Ht by done.
  rewrite app_nil_r in Hm. rewrite Hci, Hdev.
  assert (∀ b, b ∈ bs ++ [a] →
    (1 ≤ b ≤ a)%Z
    ∧ ∃ sid, sourceId ci = inr sid
             ∧ ("net://" +:+ sid, entryOf (session tid ci b))
               ∈ registered effs ++ []) as Hd'.
  { intros b [Hel|Hel%list_elem_of_singleton]%elem_of_app.
    - destruct (Hd b Hel) as (Hb' & sid' & Hs & Hreg').
      split; [done|]. exists sid'. by rewrite app_nil_r.
    - subst b. split; [lia|]. exists sid. by rewrite app_nil_r. }
  split; split; cbn [fst snd]; autorewrite with trace;
    rewrite ?Hc, ?Hm, ?Hq, ?He, ?Ht, ?fmap_app, ?decide_False by done;
    simpl; rewrite ?app_nil_r; try done.
  - intros b Hel. destruct (Hd' b Hel) as (? & sid' & ? & Hreg').
    rewrite app_nil_r in Hreg'. eauto.
  - intros b Hel. destruct (Hd' b Hel) as (? & sid' & ? & Hreg').
    rewrite app_nil_r in Hreg'. eauto.
  - split; [done|]. apply last_snoc.
Qed.

Lemma caught_running bs fin :
  fin ≠ Some CONNECTED → caught bs fin = length bs.
Proof. intros Hfin. unfold caught. rewrite decide_False by done. lia. Qed.

Lemma progress_complete opts tid ci effs t a bs sid listener :
  Progress opts tid ci (effs, Some t) a bs None →
  sourceId ci = inr sid →
  ("net://" +:+ sid, entryOf (session tid ci a)) ∈ registered effs →
  ∃ a' bs' fin,
    Progress opts tid ci
      (effs ++ (completeAttempt opts tid t listener).1,
       (completeAttempt opts tid t listener).2) a' bs' fin
    ∧ (caught bs' fin
       ≤ length bs + if listener is Some _ then 1 else 0)%nat.
Proof.
  intros HP Hsid Hreg.
  destruct (progress_done _ _ _ _ _ _ _ _ HP Hsid Hreg) as [Hgo Hret].
  unfold completeAttempt. destruct listener as [e|]; cbn [fst snd].
  - destruct (progress_catch _ _ _ _ _ _ _ e Hgo) as (a' & fin & HP' & Hfin).
    rewrite app_assoc. exists a', (bs ++ [a]), fin. split; [done|].
    rewrite caught_running, length_app by done. simpl. lia.
  - exists a, (bs ++ [a]), (Some CONNECTED). split; [done|].
    unfold caught. rewrite decide_True, length_app by done. simpl. lia.
Qed.

Lemma progress_resume opts tid ci effs t a bs o :
  Progress opts tid ci (effs, Some t) a bs None →
  ∃ a' bs' fin,
    Progress opts tid ci
      (effs ++ (resume opts tid t o).1, (resume opts tid t o).2) a' bs' fin
    ∧ (caught bs' fin ≤ length bs + listenerThrows [o])%nat.
Proof.
  intros HP.
  assert (∀ e, ∃ a' bs' fin,
    Progress opts tid ci
      (effs ++ (catchRetry opts tid t e).1, (catchRetry opts tid t e).2)
      a' bs' fin
    ∧ (caught bs' fin ≤ length bs + listenerThrows [o])%nat) as Hcatch.
  { intros e.
    destruct (progress_catch _ _ _ _ _ _ _ e HP) as (a' & fin & HP' & Hfin).
    exists a', bs, fin. split; [done|]. rewrite caught_running by done. lia. }
  assert (listenerThrows [o] = if listenerOf o is Some _ then 1%nat else 0%nat)
    as Hthrows.
  { by destruct o. }
  assert ((∃ e, o = Rejected e) ∨ ¬ (∃ e, o = Rejected e)) as [[e ->]|Hok].
  { destruct o as [|e|e]; [right; by intros [? ?]|left; by exists e
                          |right; by intros [? ?]]. }
  { apply Hcatch. }
  assert (resume opts tid t o
          = match t_at t with
            | AwaitConnect =>
                match setupFileTransferService t with
                | inl e => catchRetry opts tid t e
                | inr (effs, p) => (effs, Some (suspendAt p t))
                end
            | AwaitFileTransfer sid =>
                if downloadDbSources opts then
                  (registerFileTransfer sid t :: downloadDatabase t,
                   Some (suspendAt AwaitDownload t))
                else
                  (registerFileTransfer sid t
                     :: (completeAttempt opts tid t (listenerOf o)).1,
                   (completeAttempt opts tid t (listenerOf o)).2)
            | AwaitDownload =>
                (databaseDownloaded t
                   ++ (completeAttempt opts tid t (listenerOf o)).1,
                 (completeAttempt opts tid t (listenerOf o)).2)
            end) as ->.
  { destruct o as [|e|e]; [done| |done]. destruct Hok. by exists e. }
  pose proof HP as [Hc Hb Hm Hq He Ht Hr Hd (Hci & Hat & Hdev & H1 & Hpoint)].
  cbn [fst snd] in *.
  rewrite decide_False in Hm by done. rewrite decide_False in Ht by done.
  rewrite app_nil_r in Hm.
  destruct (t_at t) as [|sid|] eqn:Hp.
  - unfold setupFileTransferService.
    destruct (sourceId (t_info t)) as [e|sid] eqn:Hsid; [apply Hcatch|].
    exists a, bs, None. split; [|rewrite caught_running by done; lia].
    split; cbn [fst snd]; autorewrite with trace; simpl;
      rewrite ?decide_False by done; rewrite ?app_nil_r; try done.
    split_and!; try done. by rewrite <- Hci.
  - assert (registerFileTransfer sid t
            = SetDevice ("net://" +:+ sid) (entryOf (session tid ci a))) as Hreg.
    { unfold registerFileTransfer, entryOf. by rewrite Hdev. }
    assert (∀ p, match p with
                 | AwaitConnect => False
                 | _ => True
                 end →
      Progress opts tid ci
        (effs ++ [registerFileTransfer sid t],
         Some {| t_info := t_info t; t_attempt := t_attempt t;
                 t_device := t_device t;
                 t_at := match p with
                         | AwaitDownload => AwaitDownload
                         | _ => AwaitFileTransfer sid
                         end |})
        a bs None) as Hregd.
    { intros p Hp'. rewrite Hreg.
      split; cbn [fst snd]; autorewrite with trace; simpl;
        rewrite ?decide_False by done; rewrite ?app_nil_r; try done.
      - intros id d [Hel|Hel%list_elem_of_singleton]%elem_of_app; [by apply Hr|].
        injection Hel as -> ->. exists sid, a. split_and!; try done; lia.
      - intros b Hel. destruct (Hd b Hel) as (? & sid' & ? & Hreg').
        split; [done|]. exists sid'. split; [done|]. apply elem_of_app. by left.
      - split_and!; try done. destruct p; try done.
        exists sid. split; [done|]. apply last_snoc. }
    destruct (downloadDbSources opts).
    + exists a, bs, None. split; [|rewrite caught_running by done; lia].
      eapply progress_ext; [..|apply (Hregd AwaitDownload I)];
        by autorewrite with trace; simpl; rewrite ?app_nil_r.
    + cbn [fst snd].
      replace (effs ++ registerFileTransfer sid t
                 :: (completeAttempt opts tid t (listenerOf o)).1)
        with ((effs ++ [registerFileTransfer sid t])
                ++ (completeAttempt opts tid
                      {| t_info := t_info t; t_attempt := t_attempt t;
                         t_device := t_device t;
                         t_at := AwaitFileTransfer sid |} (listenerOf o)).1)
        by (by rewrite <- app_assoc).
      change (completeAttempt opts tid t (listenerOf o)).2
        with (completeAttempt opts tid
                {| t_info := t_info t; t_attempt := t_attempt t;
                   t_device := t_device t;
                   t_at := AwaitFileTransfer sid |} (listenerOf o)).2.
      rewrite Hthrows.
      apply (progress_complete opts tid ci _ _ a bs sid);
        [apply (Hregd (AwaitFileTransfer sid) I)|done|].
      rewrite Hreg. autorewrite with trace. apply elem_of_app. right.
      apply list_elem_of_here.
  - destruct Hpoint as (sid & Hsid & Hlast). cbn [fst snd].
    rewrite app_assoc, Hthrows.
    apply (progress_complete opts tid ci _ _ a bs sid); [|done|].
    + eapply progress_ext; [..|apply HP];
        by autorewrite with trace; simpl; rewrite ?app_nil_r.
    + autorewrite with trace. simpl. rewrite app_nil_r.
      destruct (registered effs) as [|x l] using rev_ind; [done|].
      rewrite last_snoc in Hlast. injection Hlast as ->.
      apply elem_of_app. right. apply list_elem_of_here.
Qed.

Lemma listenerThrows_app os1 os2 :
  listenerThrows (os1 ++ os2) = (listenerThrows os1 + listenerThrows os2)%nat.
Proof. unfold listenerThrows. by rewrite filter_app, length_app. Qed.

Lemma progress_drive opts tid ci os : ∀ effs t a bs fin,
  Progress opts tid ci (effs, t) a bs fin →
  ∃ a' bs' fin',
    Progress opts tid ci
      (effs ++ (drive opts tid t os).1, (drive opts tid t os).2) a' bs' fin'
    ∧ (caught bs' fin' ≤ caught bs fin + listenerThrows os)%nat.
Proof.
  induction os as [|o os IH]; intros effs t a bs fin HP.
  - rewrite drive_nil. cbn [fst snd]. rewrite app_nil_r.
    exists a, bs, fin. split; [done|lia].
  - destruct t as [t|].
    + assert (fin = None) as ->.
      { destruct HP as [_ _ _ _ _ _ _ _ Hs]. cbn [snd] in Hs. by destruct fin. }
      rewrite drive_cons. cbn [fst snd]. rewrite app_assoc.
      destruct (progress_resume opts tid ci effs t a bs o HP)
        as (a1 & bs1 & fin1 & HP1 & Hc1).
      destruct (IH _ _ a1 bs1 fin1 HP1) as (a2 & bs2 & fin2 & HP2 & Hc2).
      exists a2, bs2, fin2. split; [done|].
      change (o :: os) with ([o] ++ os). rewrite listenerThrows_app.
      rewrite (caught_running bs None) by done. lia.
    + rewrite drive_none. cbn [fst snd]. rewrite app_nil_r.
      exists a, bs, fin. split; [done|lia].
Qed.

Lemma progress_invocation opts tid ci os :
  ∃ a bs fin,
    Progress opts tid ci (invocation opts tid ci os) a bs fin
    ∧ (caught bs fin ≤ listenerThrows os)%nat.
Proof.
  destruct (progress_start opts tid ci) as (a & fin & HP & Hfin).
  unfold invocation. destruct (connectToDevice opts tid ci) as [effs t].
  destruct (progress_drive _ _ _ os effs t a [] fin HP)
    as (a' & bs' & fin' & HP' & Hc).
  exists a', bs', fin'. split; [done|].
  rewrite (caught_running [] fin) in Hc by done. simpl in Hc. lia.
Qed.

(** ** Every invocation in a run *)

Lemma step_spawn w i :
  nextTask (step w i) = nextTask w
  ∨ ∃ ci, i = Discovered ci
          ∧ discoveryStatus (self w) !! deviceId ci = None
          ∧ isIgnored (options (self w)) ci = false
          ∧ nextTask (step w i) = S (nextTask w).
Proof.
  destruct i as [ci|tid o|].
  - change (step w (Discovered ci)) with (handleDevice ci w).
    destruct (isConnected (self w) ci || isConnecting (self w) ci
              || isFailed (self w) ci || isIgnored (options (self w)) ci)
      eqn:Hguard.
    + left. unfold handleDevice. by rewrite Hguard.
    + right. exists ci.
      apply orb_false_elim in Hguard as [Hknown%status_absent Hi].
      split_and!; try done. by rewrite handleDevice_fresh.
  - left. simpl. by destruct (pending w !! tid).
  - left. simpl. by destruct (deviceWatchTimeout (self w)).
Qed.

Lemma run_spawned opts ins tid :
  (tid < nextTask (run (init opts) ins))%nat →
  ∃ ins1 ci ins2,
    ins = ins1 ++ Discovered ci :: ins2
    ∧ nextTask (run (init opts) ins1) = tid
    ∧ discoveryStatus (self (run (init opts) ins1)) !! deviceId ci = None
    ∧ isIgnored opts ci = false.
Proof.
  induction ins as [|i ins IH] using rev_ind; [simpl; lia|].
  rewrite run_snoc. intros Hlt.
  destruct (decide (tid < nextTask (run (init opts) ins))%nat) as [Hold|Hnew].
  - destruct (IH Hold) as (ins1 & ci & ins2 & -> & ?).
    exists ins1, ci, (ins2 ++ [i]). by rewrite <- app_assoc.
  - destruct (step_spawn (run (init opts) ins) i)
      as [Heq|(ci & -> & Hs & Hi & Heq)]; [lia|].
    exists ins, ci, []. split_and!; try done; [lia|].
    by rewrite (cons_options _ _ (consistent_run opts ins)) in Hi.
Qed.

Lemma settles_app tid ins1 ins2 :
  settles tid (ins1 ++ ins2) = settles tid ins1 ++ settles tid ins2.
Proof. apply omap_app. Qed.

Lemma listenersReturn_settles ins tid :
  listenersReturn ins → listenerThrows (settles tid ins) = 0%nat.
Proof.
  intros Hret. induction ins as [|i ins IH]; [done|].
  assert (listenersReturn ins) as Hret'.
  { intros tid' e Hel. apply (Hret tid' e). by apply list_elem_of_further. }
  specialize (IH Hret').
  destruct i as [ci|tid' o|]; try done.
  assert (settles tid (Settle tid' o :: ins)
          = (if decide (tid' = tid) then [o] else []) ++ settles tid ins) as ->.
  { unfold settles. simpl. by case_decide. }
  rewrite listenerThrows_app, IH. case_decide; [|done]. subst tid'.
  destruct o as [|e|e]; try done.
  destruct (Hret tid e). apply list_elem_of_here.
Qed.

Lemma run_progress opts ins tid :
  let w := run (init opts) ins in
  (tid < nextTask w)%nat →
  ∃ ci a bs fin,
    Discovered ci ∈ ins ∧ isIgnored opts ci = false
    ∧ Progress opts tid ci (byTask tid (trace w), pending w !! tid) a bs fin
    ∧ (caught bs fin ≤ listenerThrows (settles tid ins))%nat.
Proof.
  intros w Hlt. subst w.
  destruct (run_spawned opts ins tid Hlt) as (ins1 & ci & ins2 & -> & <- & Hs & Hi).
  destruct (invocation_trace opts ins1 ci ins2 Hs Hi) as [Hb Hp].
  rewrite run_app, Hb, Hp.
  destruct (progress_invocation opts (nextTask (run (init opts) ins1)) ci
    (settles (nextTask (run (init opts) ins1)) ins2)) as (a & bs & fin & HP & Hc).
  exists ci, a, bs, fin. split_and!; [|done| |].
  - apply elem_of_app. right. apply list_elem_of_here.
  - by destruct (invocation _ _ _ _).
  - rewrite settles_app, listenerThrows_app.
    change (settles (nextTask (run (init opts) ins1)) (Discovered ci :: ins2))
      with (settles (nextTask (run (init opts) ins1)) ins2).
    lia.
Qed.

(** Whatever the class does to its fields, the network or its listeners,
    apart from [ready], it does in [connectToDevice]. *)
Lemma step_origins w i :
  ∃ effs, trace (step w i) = trace w ++ effs
          ∧ Forall (λ oe, silent oe ∨ ∃ tid, oe.1 = OConnectToDevice tid) effs.
Proof.
  destruct i as [ci|tid o|].
  - change (step w (Discovered ci)) with (handleDevice ci w).
    unfold handleDevice. case_match.
    + eexists. split; [apply act_trace|]. repeat constructor.
    + unfold settleTask. rewrite act_trace. cbn [trace].
      rewrite act_trace, <- app_assoc. eexists. split; [done|].
      apply Forall_app. split; [repeat constructor|].
      apply Forall_forall. intros [o e] [-> _]%elem_of_tag. right. by eexists.
  - simpl. destruct (pending w !! tid) as [t|].
    + unfold settleTask. rewrite act_trace. cbn [trace].
      eexists. split; [done|].
      apply Forall_forall. intros [o' e] [-> _]%elem_of_tag. right. by eexists.
    + exists []. by rewrite app_nil_r.
  - simpl. case_match.
    + rewrite act_trace. eexists. split; [done|].
      eapply Forall_impl; [apply intervalCallback_silent|]. by left.
    + exists []. by rewrite app_nil_r.
Qed.

Lemma run_origins opts ins :
  Forall (λ oe, silent oe ∨ ∃ tid, oe.1 = OConnectToDevice tid)
    (trace (run (init opts) ins)).
Proof.
  induction ins as [|i ins IH] using rev_ind.
  { repeat constructor. }
  rewrite run_snoc.
  destruct (step_origins (run (init opts) ins) i) as (effs & -> & Heffs).
  by apply Forall_app.
Qed.

Lemma own_origin opts ins o e :
  let w := run (init opts) ins in
  (o, e) ∈ trace w → ownEffect e →
  ∃ tid, o = OConnectToDevice tid ∧ (tid < nextTask w)%nat
         ∧ e ∈ byTask tid (trace w).
Proof.
  intros w Hel Hown.
  pose proof (run_origins opts ins) as Hall.
  rewrite Forall_forall in Hall. destruct (Hall _ Hel) as [Hs|[tid Ho]].
  - exfalso. destruct o, e as [| | | | |[]| | | |]; done.
  - simpl in Ho. subst o. exists tid. split_and!; [done| |by apply elem_byTask].
    by apply (inv_origin _ (inv_run opts ins) tid e).
Qed.

Section elements.
Implicit Types effs : list Effect.

Lemma elem_marks effs k s : (k, s) ∈ marks effs ↔ SetStatus k s ∈ effs.
Proof.
  unfold marks. rewrite list_elem_of_omap. split.
  - intros ([] & Hel & Heq); simplify_eq. done.
  - intros Hel. by exists (SetStatus k s).
Qed.

Lemma elem_registered effs id d : (id, d) ∈ registered effs ↔ SetDevice id d ∈ effs.
Proof.
  unfold registered. rewrite list_elem_of_omap. split.
  - intros ([] & Hel & Heq); simplify_eq. done.
  - intros Hel. by exists (SetDevice id d).
Qed.

Lemma elem_queued effs ci nd : (ci, nd) ∈ queued effs ↔ PushCallback ci nd ∈ effs.
Proof.
  unfold queued. rewrite list_elem_of_omap. split.
  - intros ([] & Hel & Heq); simplify_eq. done.
  - intros Hel. by exists (PushCallback ci nd).
Qed.

Lemma elem_events effs ev : ev ∈ events effs ↔ Emit ev ∈ effs.
Proof.
  unfold events. rewrite list_elem_of_omap. split.
  - intros ([] & Hel & Heq); simplify_eq. done.
  - intros Hel. by exists (Emit ev).
Qed.

Lemma elem_connects effs nd : nd ∈ connects effs ↔ Connect nd ∈ effs.
Proof.
  unfold connects. rewrite list_elem_of_omap. split.
  - intros ([] & Hel & Heq); simplify_eq. done.
  - intros Hel. by exists (Connect nd).
Qed.

End elements.

Lemma statusWrites_elem k s tr :
  s ∈ statusWrites k tr → ∃ o, (o, SetStatus k s) ∈ tr.
Proof.
  unfold statusWrites. rewrite list_elem_of_omap.
  intros ([o []] & Hel & Heq); simplify_eq/=.
  case_decide; simplify_eq. by exists o.
Qed.

Lemma pushed_elem ci nd tr : (ci, nd) ∈ pushed tr → ∃ o, (o, PushCallback ci nd) ∈ tr.
Proof.
  unfold pushed. rewrite list_elem_of_omap.
  intros ([o []] & Hel & Heq); simplify_eq/=. by exists o.
Qed.

Lemma emitted_elem ev tr : ev ∈ emitted tr → ∃ o, (o, Emit ev) ∈ tr.
Proof.
  unfold emitted. rewrite list_elem_of_omap.
  intros ([o []] & Hel & Heq); simplify_eq/=. by exists o.
Qed.


Lemma elem_writesOf k s effs : s ∈ writesOf k effs ↔ SetStatus k s ∈ effs.
Proof.
  unfold writesOf. rewrite list_elem_of_omap. split.
  - intros ([] & Hel & Heq); simplify_eq/=. case_decide; by simplify_eq.
  - intros Hel. exists (SetStatus k s). split; [done|]. simpl.
    by rewrite decide_True.
Qed.

(** ** Whatever is done about a key is done by one invocation *)

Lemma owner_omap {A} (f : Effect → option A) tid tr :
  (∀ o e, (o, e) ∈ tr → is_Some (f e) → o = OConnectToDevice tid) →
  omap (λ oe, f oe.2) tr = omap f (byTask tid tr).
Proof.
  induction tr as [|[o e] tr IH]; intros Hown; [done|].
  assert (omap (λ oe, f oe.2) tr = omap f (byTask tid tr)) as IH'.
  { apply IH. intros o' e' Hel. apply Hown. by apply list_elem_of_further. }
  unfold byTask. cbn [omap list_omap fst snd]. fold (byTask tid tr).
  destruct (f e) as [x|] eqn:Hf.
  - rewrite (Hown o e) by (by rewrite ?Hf; try apply list_elem_of_here).
    rewrite decide_True by done. cbn [omap list_omap]. rewrite Hf.
    by f_equal.
  - destruct o as [| |tid'| |]; try done.
    case_decide; [|done]. cbn [omap list_omap]. by rewrite Hf.
Qed.

Lemma pushed_filter k tr :
  filter (λ p, deviceId p.1 = k) (pushed tr)
  = omap (λ oe, match oe.2 with
                | PushCallback ci nd =>
                    if decide (deviceId ci = k) then Some (ci, nd) else None
                | _ => None
                end) tr.
Proof.
  induction tr as [|[o e] tr IH]; [done|].
  destruct e; try exact IH. unfold pushed in *. simpl.
  case_decide.
  - rewrite filter_cons_True by done. by f_equal.
  - by rewrite filter_cons_False.
Qed.

Lemma emitted_filter k tr :
  filter (λ e, eventKey e = Some k) (emitted tr)
  = omap (λ oe, match oe.2 with
                | Emit ev => if decide (eventKey ev = Some k) then Some ev else None
                | _ => None
                end) tr.
Proof.
  induction tr as [|[o e] tr IH]; [done|].
  destruct e; try exact IH. unfold emitted in *. simpl.
  case_decide.
  - rewrite filter_cons_True by done. by f_equal.
  - by rewrite filter_cons_False.
Qed.

(** In a run, the writes to a key of the tracker, the pairs queued and
    the events emitted for it are those of the invocation that marked
    the key. *)
Lemma key_owner opts ins tid k :
  let w := run (init opts) ins in
  (OConnectToDevice tid, SetStatus k CONNECTING) ∈ trace w →
  statusWrites k (trace w) = writesOf k (byTask tid (trace w))
  ∧ filter (λ p, deviceId p.1 = k) (pushed (trace w))
    = queuedFor k (byTask tid (trace w))
  ∧ filter (λ e, eventKey e = Some k) (emitted (trace w))
    = eventsFor k (byTask tid (trace w)).
Proof.
  intros w Hmark.
  pose proof (inv_run opts ins) as HI. fold w in HI.
  assert (∀ o e, (o, e) ∈ trace w → keyOf e = Some k → o = OConnectToDevice tid)
    as Hown.
  { intros o e Hel Hk.
    apply (inv_markers _ HI o (OConnectToDevice tid) k); [|done].
    by apply (inv_owner _ HI o e k). }
  split_and!.
  - unfold statusWrites, writesOf.
    refine (owner_omap
      (λ e, match e with
            | SetStatus k' s => if decide (k' = k) then Some s else None
            | _ => None
            end) tid (trace w) _).
    intros o e Hel Hsome. apply (Hown o e Hel).
    destruct e; try by destruct Hsome. simpl in *.
    case_decide; [by subst|by destruct Hsome].
  - rewrite pushed_filter. unfold queuedFor.
    refine (owner_omap
      (λ e, match e with
            | PushCallback ci nd =>
                if decide (deviceId ci = k) then Some (ci, nd) else None
            | _ => None
            end) tid (trace w) _).
    intros o e Hel Hsome. apply (Hown o e Hel).
    destruct e; try by destruct Hsome. simpl in *.
    case_decide; [by subst|by destruct Hsome].
  - rewrite emitted_filter. unfold eventsFor.
    refine (owner_omap
      (λ e, match e with
            | Emit ev => if decide (eventKey ev = Some k) then Some ev else None
            | _ => None
            end) tid (trace w) _).
    intros o e Hel Hsome. apply (Hown o e Hel).
    destruct e as [| | | | |[]| | | |]; try by destruct Hsome.
    simpl in *. case_decide as Hk; [|by destruct Hsome]. by injection Hk as ->.
Qed.

(** The readers of [Progress] by key. *)
Lemma marks_writesOf k effs :
  writesOf k effs = (filter (λ ks, ks.1 = k) (marks effs)).*2.
Proof.
  induction effs as [|e effs IH]; [done|].
  destruct e; try exact IH. unfold writesOf, marks in *. simpl.
  case_decide.
  - rewrite filter_cons_True by done. simpl. by f_equal.
  - by rewrite filter_cons_False.
Qed.

Lemma queued_queuedFor k effs :
  queuedFor k effs = filter (λ p, deviceId p.1 = k) (queued effs).
Proof.
  induction effs as [|e effs IH]; [done|].
  destruct e; try exact IH. unfold queuedFor, queued in *. simpl.
  case_decide.
  - rewrite filter_cons_True by done. by f_equal.
  - by rewrite filter_cons_False.
Qed.

Lemma events_eventsFor k effs :
  eventsFor k effs = filter (λ e, eventKey e = Some k) (events effs).
Proof.
  induction effs as [|e effs IH]; [done|].
  destruct e; try exact IH. unfold eventsFor, events in *. simpl.
  case_decide.
  - rewrite filter_cons_True by done. by f_equal.
  - by rewrite filter_cons_False.
Qed.

(** ** The history of a key *)

Lemma filter_fmap_all {A B} (P : B → Prop) `{∀ x, Decision (P x)}
    (f : A → B) (l : list A) :
  (∀ x, P (f x)) → filter P (f <$> l) = f <$> l.
Proof.
  intros HP. induction l as [|x l IH]; [done|].
  simpl. rewrite filter_cons_True by done. by f_equal.
Qed.

(** What an invocation in a given state has done about its key. *)
Lemma progress_key opts tid ci r a bs fin :
  Progress opts tid ci r a bs fin →
  writesOf (deviceId ci) r.1
  = CONNECTING :: ((λ _, CONNECTED) <$> bs)
    ++ (if decide (fin = Some FAILED) then [FAILED] else [])
  ∧ queuedFor (deviceId ci) r.1 = (λ b, (ci, session tid ci b)) <$> bs
  ∧ eventsFor (deviceId ci) r.1 = (λ _, EConnected ci) <$> bs.
Proof.
  intros [_ _ Hm Hq He _ _ _ _]. split_and!.
  - rewrite marks_writesOf, Hm. rewrite filter_cons_True by done.
    rewrite filter_app, filter_fmap_all by done. simpl.
    rewrite fmap_app, <- list_fmap_compose. f_equal. f_equal.
    case_decide; [|done]. by rewrite filter_cons_True.
  - rewrite queued_queuedFor, Hq. by apply filter_fmap_all.
  - rewrite events_eventsFor, He. by apply filter_fmap_all.
Qed.

(** The invocation behind a key that was written. *)
Lemma key_progress opts ins k s :
  let w := run (init opts) ins in
  s ∈ statusWrites k (trace w) →
  ∃ tid ci a bs fin,
    (tid < nextTask w)%nat ∧ Discovered ci ∈ ins ∧ isIgnored opts ci = false
    ∧ deviceId ci = k
    ∧ Progress opts tid ci (byTask tid (trace w), pending w !! tid) a bs fin
    ∧ (caught bs fin ≤ listenerThrows (settles tid ins))%nat
    ∧ statusWrites k (trace w)
      = CONNECTING :: ((λ _, CONNECTED) <$> bs)
        ++ (if decide (fin = Some FAILED) then [FAILED] else [])
    ∧ filter (λ p, deviceId p.1 = k) (pushed (trace w))
      = (λ b, (ci, session tid ci b)) <$> bs
    ∧ filter (λ e, eventKey e = Some k) (emitted (trace w))
      = (λ _, EConnected ci) <$> bs.
Proof.
  intros w [o Hel]%statusWrites_elem.
  pose proof (inv_run opts ins) as HI. fold w in HI.
  pose proof (inv_owner _ HI o _ k Hel eq_refl) as Hmark.
  destruct (own_origin opts ins o _ Hmark I) as (tid & -> & Hlt & Hby).
  fold w in Hlt, Hby.
  destruct (run_progress opts ins tid Hlt)
    as (ci & a & bs & fin & Hd & Hi & HP & Hc).
  fold w in HP.
  assert (deviceId ci = k) as Hk.
  { apply elem_marks in Hby.
    pose proof (prog_marks _ _ _ _ _ _ _ HP) as Hm. cbn [fst] in Hm.
    rewrite Hm in Hby.
    apply elem_of_cons in Hby as [Heq|Hby]; [by injection Heq|].
    apply elem_of_app in Hby as [Hby|Hby].
    - by apply list_elem_of_fmap in Hby as (? & [=] & _).
    - case_decide; [|by apply elem_of_nil in Hby].
      by apply list_elem_of_singleton in Hby. }
  destruct (key_owner opts ins tid k Hmark) as (Hw & Hq & He). fold w in Hw, Hq, He.
  destruct (progress_key _ _ _ _ _ _ _ HP) as (Hw' & Hq' & He').
  cbn [fst] in Hw', Hq', He'. rewrite Hk in Hw', Hq', He'.
  exists tid, ci, a, bs, fin.
  rewrite Hw, Hq, He, Hw', Hq', He'. by split_and!.
Qed.

Lemma caught_zero bs fin a :
  caught bs fin = 0%nat →
  match fin with Some CONNECTED => last bs = Some a | _ => True end →
  bs = if decide (fin = Some CONNECTED) then [a] else [].
Proof.
  unfold caught. case_decide as Hfin.
  - subst fin. intros Hlen Hlast. destruct bs as [|b [|b' bs]]; simpl in *.
    + done.
    + by injection Hlast as ->.
    + lia.
  - intros Hlen _. destruct bs; [done|simpl in Hlen; lia].
Qed.

(** The attempts that went through, when no listener threw. *)
Lemma progress_quiet opts tid ci r a bs fin :
  Progress opts tid ci r a bs fin → caught bs fin = 0%nat →
  bs = if decide (fin = Some CONNECTED) then [a] else [].
Proof.
  intros HP Hc. apply caught_zero; [done|].
  pose proof (prog_state _ _ _ _ _ _ _ HP) as Hst.
  destruct fin as [[| |]|]; try done. by destruct r.2, Hst.
Qed.

(** ** The tracker *)

Lemma not_elem_connecting (bs : list Z) (tail : list ConnectionStatus) :
  CONNECTING ∉ tail → CONNECTING ∉ ((λ _, CONNECTED) <$> bs) ++ tail.
Proof.
  intros Htail [Hel|Hel]%elem_of_app; [|done].
  by apply list_elem_of_fmap in Hel as (? & [=] & _).
Qed.




(** ** Every connect fails *)

Lemma listenerThrows_rejected errs : listenerThrows (Rejected <$> errs) = 0%nat.
Proof. induction errs as [|e errs IH]; [done|]. exact IH. Qed.

(** An invocation from the discovery message that starts it: what it
    does, and what is done about its key, in the run and by itself. *)
Lemma spawned_key opts ins1 ci ins2 :
  let w1 := run (init opts) ins1 in
  let tid := nextTask w1 in
  discoveryStatus (self w1) !! deviceId ci = None →
  isIgnored opts ci = false →
  let w2 := run w1 (Discovered ci :: ins2) in
  let r := invocation opts tid ci (settles tid ins2) in
  byTask tid (trace w2) = r.1 ∧ pending w2 !! tid = r.2
  ∧ statusWrites (deviceId ci) (trace w2) = writesOf (deviceId ci) r.1
  ∧ filter (λ p, deviceId p.1 = deviceId ci) (pushed (trace w2))
    = queuedFor (deviceId ci) r.1
  ∧ filter (λ e, eventKey e = Some (deviceId ci)) (emitted (trace w2))
    = eventsFor (deviceId ci) r.1.
Proof.
  intros w1 tid Hs Hi w2 r.
  destruct (invocation_trace opts ins1 ci ins2 Hs Hi) as [Hb Hp].
  fold w1 tid w2 r in Hb, Hp.
  assert (w2 = run (init opts) (ins1 ++ Discovered ci :: ins2)) as Hw2
    by (unfold w2, w1; by rewrite run_app).
  assert ((OConnectToDevice tid, SetStatus (deviceId ci) CONNECTING) ∈ trace w2)
    as Hmark.
  { apply elem_byTask. rewrite Hb. unfold r, invocation, connectToDevice.
    destruct (attemptLoop opts tid ci 1). cbn [fst].
    apply list_elem_of_here. }
  rewrite Hw2 in Hmark.
  destruct (key_owner opts (ins1 ++ Discovered ci :: ins2) tid (deviceId ci) Hmark)
    as (Hw & Hq & He).
  rewrite <- Hw2 in Hw, Hq, He. rewrite Hb in Hw, Hq, He. by split_and!.
Qed.

(** C3: a fresh announcement that is not ignored is handled, and every
    promise its [connectToDevice] awaits (each is a [connect()]) is
    rejected, whatever else happens in between.  Then the driver opens
    exactly [maxRetries - 1] sessions, one an attempt; the key ends FAILED;
    the promise of [connectToDevice] is rejected with the "Could not
    connect" error and nothing is left suspended; no [connected] event is
    emitted for the key; and no entry of the registry holds a session
    opened by this driver or a session of an announcement with this key:
    an entry of the registry was there before the announcement was
    handled, or was registered since by another invocation. *)
Theorem all_connects_fail (opts : StageLinqOptions) (ins1 ins2 : list Input)
    (ci : ConnectionInfo) (errs : list JsError) :
  let w1 := run (init opts) ins1 in
  let tid := nextTask w1 in
  let w2 := run w1 (Discovered ci :: ins2) in
  (1 ≤ maxRetries opts)%Z →
  discoveryStatus (self w1) !! deviceId ci = None →
  isIgnored opts ci = false →
  settles tid ins2 = Rejected <$> errs →
  (Z.to_nat (maxRetries opts - 1) ≤ length errs)%nat →
  attempts tid (trace w2) = session tid ci <$> seqZ 1 (maxRetries opts - 1)
  ∧ Z.of_nat (length (attempts tid (trace w2))) = maxRetries opts - 1
  ∧ discoveryStatus (self w2) !! deviceId ci = Some FAILED
  ∧ thrown tid (trace w2) = [JsErr ("Could not connect to " +:+ deviceId ci)]
  ∧ pending w2 !! tid = None
  ∧ filter (λ e, eventKey e = Some (deviceId ci)) (emitted (trace w2)) = []
  ∧ ∀ id d, devices (self w2) !! id = Some d →
            nd_owner (networkDevice d) ≠ tid
            ∧ deviceId (nd_info (networkDevice d)) ≠ deviceId ci
            ∧ (devices (self w1) !! id = Some d
               ∨ ∃ tid', tid' ≠ tid
                   ∧ (OConnectToDevice tid', SetDevice id d) ∈ trace w2).
Proof.
  intros w1 tid w2 Hmax Hfresh Hi Hos Hlen.
  destruct (spawned_key opts ins1 ci ins2 Hfresh Hi) as (Hb & Hp & Hw & _ & He).
  fold w1 tid w2 in Hb, Hp, Hw, He. rewrite Hos in Hb, Hp, Hw, He.
  destruct (invocation_rejected opts tid ci errs Hmax Hlen)
    as (Hr2 & Hc & Ht & Hmark & Hfail & Hh).
  destruct (progress_invocation opts tid ci (Rejected <$> errs))
    as (a & bs & fin & HP & Hcaught).
  rewrite listenerThrows_rejected in Hcaught.
  destruct (progress_key _ _ _ _ _ _ _ HP) as (Hw' & _ & He').
  assert (fin = Some FAILED) as ->.
  { apply elem_writesOf in Hfail. rewrite Hw' in Hfail.
    case_decide; [done|]. exfalso.
    apply elem_of_cons in Hfail as [?|Hfail]; [done|].
    rewrite app_nil_r in Hfail.
    by apply list_elem_of_fmap in Hfail as (? & [=] & _). }
  rewrite (progress_quiet _ _ _ _ _ _ _ HP) in Hw', He' by lia.
  rewrite decide_False in Hw', He' by done. rewrite decide_True in Hw' by done.
  rewrite Hw' in Hw. rewrite He' in He. cbn [fmap list_fmap app] in Hw, He.
  rewrite <-Hb in Hc, Ht, Hmark, Hfail, Hh. rewrite <-Hp in Hr2.
  assert (w2 = run (init opts) (ins1 ++ Discovered ci :: ins2)) as Hw2
    by by rewrite run_app.
  assert (Inv w2) as Hinv by (rewrite Hw2; apply inv_run).
  assert (Consistent opts w2) as Hcons by (rewrite Hw2; apply consistent_run).
  split_and!.
  - done.
  - unfold attempts. rewrite Hc, length_fmap, length_seqZ. lia.
  - by rewrite (cons_status _ _ Hcons), Hw.
  - done.
  - done.
  - done.
  - assert (∀ id d, (OConnectToDevice tid, SetDevice id d) ∉ trace w2) as Hnone.
    { intros id d Ho%elem_byTask.
      by apply (proj1 (Forall_forall _ _) Hh) in Ho. }
    intros id d Hd.
    destruct (cons_devices _ _ Hcons _ _ Hd) as [o Ho].
    destruct (inv_devices _ Hinv _ _ _ Ho) as (_ & Hown & Hm).
    split_and!.
    + intros Htid. rewrite Hown, Htid in Ho. by destruct (Hnone id d).
    + intros Hkey. rewrite Hkey in Hm. apply elem_byTask in Hmark.
      rewrite (inv_markers _ Hinv _ _ _ Hm Hmark) in Ho.
      by destruct (Hnone id d).
    + destruct (run_act w1 (Discovered ci :: ins2)) as (effs & Htr & Hself).
      fold w2 in Htr, Hself. rewrite Hself in Hd.
      apply perform_devices in Hd as [Hd|[o' Ho']]; [by left|].
      right. assert ((o', SetDevice id d) ∈ trace w2) as Hin.
      { rewrite Htr. apply elem_of_app. by right. }
      destruct (inv_devices _ Hinv _ _ _ Hin) as (_ & -> & _).
      eexists. split; [|done]. intros Htid. rewrite Htid in Hin.
      by destruct (Hnone id d).
Qed.

Lemma all_connects_fail_witness :
  let w := run (init options3) (Discovered token16 :: connectsFail) in
  length (attempts 0 (trace w)) = 2%nat
  ∧ discoveryStatus (self w) !! deviceId token16 = Some FAILED
  ∧ thrown 0 (trace w) = [JsErr ("Could not connect to " +:+ deviceId token16)].
Proof.
  intros w.
  destruct (all_connects_fail options3 [] connectsFail token16
    [JsErr "refused"; JsErr "timeout"])
    as (Ha & _ & Hs & Ht & _); [done|reflexivity|reflexivity|reflexivity| |].
  - simpl. lia.
  - split_and!; [|done|done]. exact (f_equal length Ha).
Defined.

(** ** An attempt succeeds *)

Lemma drive_done opts tid t os1 os2 :
  (drive opts tid t os1).2 = None →
  drive opts tid t (os1 ++ os2) = drive opts tid t os1.
Proof.
  intros Hdone. rewrite drive_app, Hdone, drive_none. cbn [fst snd].
  rewrite app_nil_r. destruct (drive opts tid t os1) as [effs t'].
  simpl in Hdone. by subst t'.
Qed.

Lemma invocation_done opts tid ci os1 os2 :
  (invocation opts tid ci os1).2 = None →
  invocation opts tid ci (os1 ++ os2) = invocation opts tid ci os1.
Proof.
  unfold invocation. cbn [snd]. intros Hdone. by rewrite drive_done.
Qed.

Lemma listenerThrows_attempts opts (fails : list AttemptFailure) :
  listenerThrows ((fails ≫= failureSettles) ++ successSettles opts) = 0%nat.
Proof.
  rewrite listenerThrows_app.
  assert (listenerThrows (successSettles opts) = 0%nat) as ->.
  { unfold successSettles. by destruct (downloadDbSources opts). }
  induction fails as [|f fails IH]; [done|].
  change ((f :: fails) ≫= failureSettles)
    with (failureSettles f ++ (fails ≫= failureSettles)).
  rewrite listenerThrows_app. by destruct f.
Qed.




(** ** The invocation behind an entry of the tracker *)

Lemma status_progress opts ins k s :
  let w := run (init opts) ins in
  discoveryStatus (self w) !! k = Some s →
  ∃ tid ci a bs fin,
    (tid < nextTask w)%nat ∧ Discovered ci ∈ ins ∧ isIgnored opts ci = false
    ∧ deviceId ci = k
    ∧ Progress opts tid ci (byTask tid (trace w), pending w !! tid) a bs fin
    ∧ (caught bs fin ≤ listenerThrows (settles tid ins))%nat
    ∧ statusWrites k (trace w)
      = CONNECTING :: ((λ _, CONNECTED) <$> bs)
        ++ (if decide (fin = Some FAILED) then [FAILED] else [])
    ∧ filter (λ p, deviceId p.1 = k) (pushed (trace w))
      = (λ b, (ci, session tid ci b)) <$> bs
    ∧ filter (λ e, eventKey e = Some k) (emitted (trace w))
      = (λ _, EConnected ci) <$> bs.
Proof.
  intros w Hs. apply (key_progress opts ins k s). fold w.
  rewrite (cons_status _ _ (consistent_run opts ins)) in Hs. fold w in Hs.
  destruct (statusWrites k (trace w)) as [|x l] using rev_ind; [done|].
  rewrite last_snoc in Hs. injection Hs as ->.
  apply elem_of_app. right. apply list_elem_of_here.
Qed.

(** ** The registry, entry by entry *)

Lemma registrations_app id tr1 tr2 :
  registrations id (tr1 ++ tr2) = registrations id tr1 ++ registrations id tr2.
Proof. apply omap_app. Qed.

Lemma perform_registry this tr id :
  devices (foldl perform this tr.*2) !! id
  = from_option Some (devices this !! id) (last (registrations id tr)).
Proof.
  revert this. induction tr as [|[o e] tr IH]; intros this; simpl; [done|].
  rewrite IH. unfold registrations at 2. simpl. fold (registrations id tr).
  destruct e; simpl; try done.
  case_decide as Hk; simpl.
  - subst. rewrite last_cons, lookup_insert_eq.
    by destruct (last (registrations id tr)).
  - by rewrite lookup_insert_ne.
Qed.

(** The registry holds, under each id, the session registered last. *)
Lemma run_registry opts ins id :
  let w := run (init opts) ins in
  devices (self w) !! id = last (registrations id (trace w)).
Proof.
  intros w. subst w.
  destruct (run_act (init opts) ins) as (effs & -> & ->).
  rewrite perform_registry, registrations_app. simpl.
  by destruct (last (registrations id effs)).
Qed.

Lemma elem_registrations id d tr :
  d ∈ registrations id tr ↔ ∃ o, (o, SetDevice id d) ∈ tr.
Proof.
  unfold registrations. rewrite list_elem_of_omap. split.
  - intros ([o []] & Hel & Heq); simplify_eq/=.
    case_decide; simplify_eq. by exists o.
  - intros [o Hel]. exists (o, SetDevice id d). split; [done|].
    simpl. by rewrite decide_True.
Qed.

Lemma elem_session tid ci (b a : Z) :
  (1 ≤ b ≤ a)%Z → session tid ci b ∈ session tid ci <$> seqZ 1 a.
Proof.
  intros Hb. apply list_elem_of_fmap. exists b. split; [done|].
  apply elem_of_seqZ. lia.
Qed.

(** An entry of the registry was made by the invocation that opened its
    session, under the identifier of its announcement. *)
Lemma registry_entry opts ins id d :
  let w := run (init opts) ins in
  devices (self w) !! id = Some d →
  ∃ sid, sourceId (nd_info (networkDevice d)) = inr sid
         ∧ id = "net://" +:+ sid
         ∧ d = entryOf (networkDevice d)
         ∧ networkDevice d ∈ attempts (nd_owner (networkDevice d)) (trace w)
         ∧ Discovered (nd_info (networkDevice d)) ∈ ins
         ∧ isIgnored opts (nd_info (networkDevice d)) = false.
Proof.
  intros w Hd.
  apply (cons_devices _ _ (consistent_run opts ins)) in Hd as [o Hel].
  destruct (own_origin opts ins o _ Hel I) as (tid & -> & Hlt & Hby).
  destruct (run_progress opts ins tid Hlt)
    as (ci & a & bs & fin & Hdisc & Hi & HP & _).
  fold w in Hby, HP.
  destruct (prog_registered _ _ _ _ _ _ _ HP id d)
    as (sid & b & Hsid & -> & Hb & ->).
  { by apply elem_registered. }
  exists sid. simpl. split_and!; try done.
  unfold attempts. fold w.
  pose proof (prog_connects _ _ _ _ _ _ _ HP) as Hc. cbn [fst] in Hc.
  rewrite Hc. by apply elem_session.
Qed.

(** Membership in a list that can be computed. *)
Ltac elem_compute :=
  match goal with |- ?P => apply (@bool_decide_unpack P _) end;
  vm_compute; exact I.

(** ** The ignore policy *)

(** X1: [handleDevice] on an announcement that [isIgnored] accepts, in
    any state of the object: it logs the discovery line, which ends in
    ["(IGNORED)"] whatever the tracker holds for the key, and does
    nothing else.  No field is written, no invocation of
    [connectToDevice] starts, none that is suspended is touched. *)
Theorem handleDevice_ignored (w : World) (ci : ConnectionInfo) :
  isIgnored (options (self w)) ci = true →
  let w' := step w (Discovered ci) in
  self w' = self w
  ∧ pending w' = pending w
  ∧ nextTask w' = nextTask w
  ∧ trace w' = trace w ++
      [(OHandleDevice,
        Log Silly (MsgDiscovery
          (("Discovery: " +:+ deviceId ci +:+ " ") +:+ "(IGNORED)")))].
Proof.
  intros Hi. simpl. unfold handleDevice, showDiscoveryStatus.
  rewrite Hi, !orb_true_r. done.
Qed.

Lemma handleDevice_ignored_witness :
  let w := run (init options3) firstAttempt in
  let w' := step w (Discovered lighting) in
  self w' = self w ∧ pending w' = pending w ∧ nextTask w' = nextTask w.
Proof.
  intros w w'.
  destruct (handleDevice_ignored w lighting) as (Hs & Hp & Hn & _);
    [reflexivity|].
  by split_and!.
Defined.

Lemma attempt_owner opts ins tid nd :
  let w := run (init opts) ins in
  nd ∈ attempts tid (trace w) →
  ∃ ci a bs fin,
    Discovered ci ∈ ins ∧ isIgnored opts ci = false
    ∧ Progress opts tid ci (byTask tid (trace w), pending w !! tid) a bs fin
    ∧ ∃ b, (1 ≤ b ≤ a)%Z ∧ nd = session tid ci b.
Proof.
  intros w Hel. unfold attempts in Hel.
  pose proof Hel as Hby. apply elem_connects, elem_byTask in Hby.
  pose proof (inv_origin _ (inv_run opts ins) _ _ Hby) as Hlt.
  destruct (run_progress opts ins tid Hlt)
    as (ci & a & bs & fin & Hd & Hi & HP & _).
  fold w in HP. exists ci, a, bs, fin. split_and!; try done.
  pose proof (prog_connects _ _ _ _ _ _ _ HP) as Hc. cbn [fst] in Hc.
  rewrite Hc in Hel. apply list_elem_of_fmap in Hel as (b & -> & Hb).
  apply elem_of_seqZ in Hb. exists b. split; [lia|done].
Qed.

Lemma connected_owner opts ins ci :
  let w := run (init opts) ins in
  EConnected ci ∈ emitted (trace w) →
  ∃ tid a bs fin,
    (tid < nextTask w)%nat ∧ Discovered ci ∈ ins ∧ isIgnored opts ci = false
    ∧ Progress opts tid ci (byTask tid (trace w), pending w !! tid) a bs fin
    ∧ bs ≠ [].
Proof.
  intros w [o Hel]%emitted_elem.
  destruct (own_origin opts ins o _ Hel I) as (tid & -> & Hlt & Hby).
  destruct (run_progress opts ins tid Hlt)
    as (ci' & a & bs & fin & Hd & Hi & HP & _).
  fold w in Hby, HP.
  pose proof (prog_events _ _ _ _ _ _ _ HP) as He. cbn [fst] in He.
  apply elem_events in Hby. rewrite He in Hby.
  apply list_elem_of_fmap in Hby as (b & Heq & Hb). injection Heq as ->.
  exists tid, a, bs, fin. split_and!; try done.
  intros ->. by apply elem_of_nil in Hb.
Qed.

(** X2: in every run, what the object tracks, attempts and reports as
    connected belongs to announcements that were discovered and that
    [isIgnored] rejects: every key of the tracker is the key of such an
    announcement, every session opened and every [connected] event is
    for one. *)
Theorem tracked_not_ignored (opts : StageLinqOptions) (ins : list Input) :
  let w := run (init opts) ins in
  (∀ k s, discoveryStatus (self w) !! k = Some s →
     ∃ ci, Discovered ci ∈ ins ∧ deviceId ci = k ∧ isIgnored opts ci = false)
  ∧ (∀ tid nd, nd ∈ attempts tid (trace w) →
       Discovered (nd_info nd) ∈ ins ∧ isIgnored opts (nd_info nd) = false)
  ∧ (∀ ci, EConnected ci ∈ emitted (trace w) →
       Discovered ci ∈ ins ∧ isIgnored opts ci = false).
Proof.
  intros w. split_and!.
  - intros k s Hs.
    destruct (status_progress opts ins k s Hs)
      as (tid & ci & a & bs & fin & _ & ? & ? & ? & _).
    by exists ci.
  - intros tid nd Hel.
    destruct (attempt_owner opts ins tid nd Hel)
      as (ci & a & bs & fin & ? & ? & _ & b & _ & ->).
    done.
  - intros ci Hel.
    by destruct (connected_owner opts ins ci Hel)
      as (tid & a & bs & fin & _ & ? & ? & _).
Qed.

Lemma tracked_not_ignored_witness :
  let w := run (init options3) (Discovered lighting :: firstAttempt) in
  ∃ ci, Discovered ci ∈ Discovered lighting :: firstAttempt
        ∧ deviceId ci = deviceId token16 ∧ isIgnored options3 ci = false.
Proof.
  intros w.
  exact (proj1 (tracked_not_ignored options3 (Discovered lighting :: firstAttempt))
           (deviceId token16) CONNECTED eq_refl).
Defined.

(** X3: as long as every announcement discovered is one [isIgnored]
    accepts, the object stays as it was built: the tracker and the
    registry are empty, no invocation of [connectToDevice] was started,
    and no tick of the interval emits [ready]. *)
Theorem only_ignored_idle (opts : StageLinqOptions) (ins : list Input) :
  (∀ ci, Discovered ci ∈ ins → isIgnored opts ci = true) →
  let w := run (init opts) ins in
  discoveryStatus (self w) = ∅
  ∧ devices (self w) = ∅
  ∧ stateMapCallback (self w) = []
  ∧ nextTask w = 0%nat
  ∧ pending w = ∅
  ∧ (EReady ∉ emitted (trace w)).
Proof.
  intros Hall w.
  assert (∀ ins', (∃ more, ins = ins' ++ more) →
            nextTask (run (init opts) ins') = 0%nat) as Hnone.
  { intros ins' [more ->].
    destruct (nextTask (run (init opts) ins')) as [|n] eqn:Hn; [done|].
    destruct (run_progress opts ins' 0) as (ci & _ & _ & _ & Hd & Hi & _); [lia|].
    rewrite Hall in Hi; [done|]. apply elem_of_app. by left. }
  assert (∀ ins', (∃ more, ins = ins' ++ more) →
            discoveryStatus (self (run (init opts) ins')) = ∅) as Hempty.
  { intros ins' Hpre. apply map_empty. intros k.
    destruct (discoveryStatus (self (run (init opts) ins')) !! k) as [s|] eqn:Hs;
      [|done].
    destruct (status_progress opts ins' k s Hs) as (tid & _ & _ & _ & _ & Hlt & _).
    rewrite (Hnone ins' Hpre) in Hlt. lia. }
  assert (nextTask w = 0%nat) as Hn.
  { apply Hnone. exists []. by rewrite app_nil_r. }
  split_and!.
  - apply Hempty. exists []. by rewrite app_nil_r.
  - apply map_empty. intros id.
    destruct (devices (self w) !! id) as [d|] eqn:Hd; [|done].
    destruct (registry_entry opts ins id d Hd) as (_ & _ & _ & _ & _ & Hdisc & Hi).
    by rewrite Hall in Hi.
  - unfold w. rewrite (cons_queue _ _ (consistent_run opts ins)).
    destruct (pushed (trace (run (init opts) ins))) as [|[ci nd] l] eqn:Hq; [done|].
    assert ((ci, nd) ∈ pushed (trace (run (init opts) ins))) as Hel
      by (rewrite Hq; apply list_elem_of_here).
    apply pushed_elem in Hel as [o Hel].
    destruct (own_origin opts ins o _ Hel I) as (tid & _ & Hlt & _).
    fold w in Hlt. lia.
  - done.
  - apply map_empty. intros tid.
    destruct (pending w !! tid) as [t|] eqn:Ht; [|done].
    destruct (inv_pending _ (inv_run opts ins) tid t Ht) as (_ & Hel).
    apply (inv_origin _ (inv_run opts ins)) in Hel. fold w in Hel. lia.
  - destruct (barrier_run opts ins)
      as [(_ & Hr & _)|(_ & ins1 & ins2 & Hins & _ & (k & s & Hs) & _)];
      [done|].
    rewrite Hempty in Hs; [done|]. by exists (Tick :: ins2).
Qed.

Lemma only_ignored_idle_witness :
  let w := run (init options3)
             [Discovered lighting; Tick; Discovered myself; Tick] in
  discoveryStatus (self w) = ∅ ∧ (EReady ∉ emitted (trace w)).
Proof.
  intros w.
  destruct (only_ignored_idle options3
              [Discovered lighting; Tick; Discovered myself; Tick])
    as (Hs & _ & _ & _ & _ & Hr); [|by split].
  intros ci Hel.
  repeat (apply elem_of_cons in Hel as [Hel|Hel];
          [by (discriminate Hel || (injection Hel as ->))|]).
  by apply elem_of_nil in Hel.
Defined.

(** ** [isDeviceSeen] and the discovery line *)

Lemma includes_deviceId (ci : ConnectionInfo) : includes "]" (deviceId ci) = true.
Proof.
  unfold deviceId. rewrite !includes_app. simpl. by rewrite !orb_true_r.
Qed.

(** X4: [isDeviceSeen] asks the tracker for the address of the
    announcement, and the tracker is keyed by [deviceId].  In every run
    it answers [true] only if the address is, letter for letter, the key
    of an announcement that was discovered; for an address without a
    ["]"] it answers [false], also when the key of the announcement is
    in the tracker. *)
Theorem isDeviceSeen_by_address (opts : StageLinqOptions) (ins : list Input)
    (d : ConnectionInfo) :
  let w := run (init opts) ins in
  (isDeviceSeen (self w) d = true →
     ∃ ci, Discovered ci ∈ ins ∧ address d = deviceId ci)
  ∧ (includes "]" (address d) = false → isDeviceSeen (self w) d = false).
Proof.
  intros w.
  assert (isDeviceSeen (self w) d = true →
          ∃ ci, Discovered ci ∈ ins ∧ address d = deviceId ci) as Hseen.
  { intros [s Hs]%bool_decide_eq_true.
    destruct (status_progress opts ins _ s Hs)
      as (_ & ci & _ & _ & _ & _ & ? & _ & ? & _).
    by exists ci. }
  split; [done|]. intros Hplain.
  destruct (isDeviceSeen (self w) d) eqn:Hd; [|done].
  destruct (Hseen eq_refl) as (ci & _ & Heq).
  by rewrite Heq, includes_deviceId in Hplain.
Qed.

Lemma isDeviceSeen_by_address_witness :
  let w := run (init options3) firstAttempt in
  isConnected (self w) token16 = true ∧ isDeviceSeen (self w) token16 = false.
Proof.
  intros w. split; [reflexivity|].
  apply (proj2 (isDeviceSeen_by_address options3 firstAttempt token16)).
  reflexivity.
Defined.

Lemma append_inj_l (s t1 t2 : string) : s +:+ t1 = s +:+ t2 → t1 = t2.
Proof.
  induction s as [|c s IH]; [done|]. rewrite !app_cons. intros Heq.
  injection Heq as Heq. by apply IH.
Qed.

(** X5: the discovery line [handleDevice] logs ends in ["(NEW)"] exactly
    when that call starts an invocation of [connectToDevice]: the tag
    and the guard of [handleDevice] agree. *)
Theorem discovery_line_new (w : World) (ci : ConnectionInfo) :
  showDiscoveryStatus (self w) ci
  = ("Discovery: " +:+ deviceId ci +:+ " ") +:+ "(NEW)"
  ↔ nextTask (step w (Discovered ci)) = S (nextTask w)
    ∧ pending (step w (Discovered ci)) !! nextTask w
      = (connectToDevice (options (self w)) (nextTask w) ci).2.
Proof.
  split.
  - intros Hline. unfold showDiscoveryStatus in Hline.
    assert (isConnected (self w) ci || isConnecting (self w) ci
            || isFailed (self w) ci || isIgnored (options (self w)) ci = false)
      as Hguard.
    { destruct (isIgnored (options (self w)) ci);
        [by apply append_inj_l in Hline|].
      destruct (isConnecting (self w) ci);
        [by apply append_inj_l in Hline|].
      destruct (isConnected (self w) ci);
        [by apply append_inj_l in Hline|].
      destruct (isFailed (self w) ci);
        [by apply append_inj_l in Hline|].
      done. }
    change (step w (Discovered ci)) with (handleDevice ci w).
    unfold handleDevice. rewrite Hguard. split; [done|].
    destruct (settleTask_byTask (nextTask w) (nextTask w)
      (connectToDevice (options (self w)) (nextTask w) ci)
      {| self := self (act [(OHandleDevice,
                   Log Silly (MsgDiscovery (showDiscoveryStatus (self w) ci)))] w);
         pending := pending w; nextTask := S (nextTask w);
         trace := trace (act [(OHandleDevice,
                   Log Silly (MsgDiscovery (showDiscoveryStatus (self w) ci)))] w) |})
      as [_ Hp].
    by rewrite decide_True in Hp.
  - intros [Hn _].
    destruct (step_spawn w (Discovered ci)) as [Heq|(ci' & Hci & Hs & Hi & _)];
      [lia|].
    injection Hci as <-. unfold showDiscoveryStatus, isConnecting, isConnected,
      isFailed. rewrite Hi, Hs. done.
Qed.

Lemma discovery_line_new_witness :
  nextTask (step (init options3) (Discovered token16)) = 1%nat.
Proof.
  apply (proj1 (discovery_line_new (init options3) token16)). reflexivity.
Defined.

(** ** The tracker and the invocations *)

Lemma elem_emitted o ev tr : (o, Emit ev) ∈ tr → ev ∈ emitted tr.
Proof.
  intros Hel. unfold emitted. apply list_elem_of_omap. by exists (o, Emit ev).
Qed.

Lemma last_sessions tid ci (a : Z) :
  (1 ≤ a)%Z → last (session tid ci <$> seqZ 1 a) = Some (session tid ci a).
Proof.
  intros Ha. replace a with (a - 1 + 1) at 1 by lia.
  rewrite seqZ_snoc, fmap_app by lia. cbn [fmap list_fmap].
  rewrite last_snoc. do 2 f_equal. lia.
Qed.

Lemma last_writes (bs : list Z) (fin : option ConnectionStatus) :
  last (CONNECTING :: ((λ _, CONNECTED) <$> bs)
        ++ (if decide (fin = Some FAILED) then [FAILED] else []))
  = Some (statusAfter bs fin).
Proof.
  unfold statusAfter. case_decide.
  - by rewrite app_comm_cons, last_snoc.
  - rewrite app_nil_r. destruct bs as [|b bs] using rev_ind; [done|].
    rewrite fmap_app, app_comm_cons. cbn [fmap list_fmap]. rewrite last_snoc.
    rewrite decide_False; [done|]. by destruct bs.
Qed.

(** A listener threw in an invocation. *)
Lemma listenerThrows_pos ins tid :
  (1 ≤ listenerThrows (settles tid ins))%nat →
  ∃ e, Settle tid (ListenerThrows e) ∈ ins.
Proof.
  unfold listenerThrows. intros Hlen.
  destruct (filter _ (settles tid ins)) as [|o l] eqn:Hf; [simpl in Hlen; lia|].
  assert (o ∈ filter (λ o, is_Some (listenerOf o)) (settles tid ins)) as Hel.
  { rewrite Hf. apply list_elem_of_here. }
  apply list_elem_of_filter in Hel as [[e He] Hel].
  destruct o as [|e'|e']; try done. exists e'.
  apply list_elem_of_omap in Hel as (i & Hi & Heq).
  destruct i as [ci|tid' o|]; try done.
  case_decide; [|done]. by simplify_eq.
Qed.

(** What an invocation of a run has done, and what this leaves under its
    key. *)
Lemma task_progress opts ins tid :
  let w := run (init opts) ins in
  (tid < nextTask w)%nat →
  ∃ ci a bs fin,
    Discovered ci ∈ ins ∧ isIgnored opts ci = false
    ∧ Progress opts tid ci (byTask tid (trace w), pending w !! tid) a bs fin
    ∧ (caught bs fin ≤ listenerThrows (settles tid ins))%nat
    ∧ discoveryStatus (self w) !! deviceId ci = Some (statusAfter bs fin)
    ∧ filter (λ p, deviceId p.1 = deviceId ci) (stateMapCallback (self w))
      = (λ b, (ci, session tid ci b)) <$> bs
    ∧ filter (λ e, eventKey e = Some (deviceId ci)) (emitted (trace w))
      = (λ _, EConnected ci) <$> bs.
Proof.
  intros w Hlt.
  destruct (run_progress opts ins tid Hlt)
    as (ci & a & bs & fin & Hd & Hi & HP & Hc).
  fold w in HP.
  assert ((OConnectToDevice tid, SetStatus (deviceId ci) CONNECTING) ∈ trace w)
    as Hmark.
  { apply elem_byTask, elem_marks.
    pose proof (prog_marks _ _ _ _ _ _ _ HP) as Hm. cbn [fst] in Hm.
    rewrite Hm. apply list_elem_of_here. }
  destruct (key_owner opts ins tid _ Hmark) as (Hw & Hq & He).
  fold w in Hw, Hq, He.
  destruct (progress_key _ _ _ _ _ _ _ HP) as (Hw' & Hq' & He').
  cbn [fst] in Hw', Hq', He'.
  exists ci, a, bs, fin. split_and!; try done.
  - unfold w. rewrite (cons_status _ _ (consistent_run opts ins)). fold w.
    rewrite Hw, Hw'. apply last_writes.
  - unfold w. rewrite (cons_queue _ _ (consistent_run opts ins)). fold w.
    by rewrite Hq.
  - by rewrite He.
Qed.

(** A suspended invocation in a run. *)
Lemma pending_progress opts ins tid t :
  let w := run (init opts) ins in
  pending w !! tid = Some t →
  ∃ a bs,
    Progress opts tid (t_info t) (byTask tid (trace w), Some t) a bs None
    ∧ Discovered (t_info t) ∈ ins ∧ isIgnored opts (t_info t) = false
    ∧ (length bs ≤ listenerThrows (settles tid ins))%nat
    ∧ discoveryStatus (self w) !! deviceId (t_info t)
      = Some (if decide (bs = []) then CONNECTING else CONNECTED).
Proof.
  intros w Ht.
  destruct (inv_pending _ (inv_run opts ins) tid t Ht) as (_ & Hel).
  apply (inv_origin _ (inv_run opts ins)) in Hel.
  destruct (task_progress opts ins tid Hel)
    as (ci & a & bs & fin & Hd & Hi & HP & Hc & Hs & _).
  fold w in HP, Hs. rewrite Ht in HP.
  pose proof (prog_state _ _ _ _ _ _ _ HP) as Hst. cbn [snd] in Hst.
  destruct fin; [done|]. destruct Hst as (<- & _).
  rewrite (caught_running bs None) in Hc by done.
  exists a, bs. by split_and!.
Qed.

(** The invocation behind a pair of the queue. *)
Lemma queue_owner opts ins ci nd :
  let w := run (init opts) ins in
  (ci, nd) ∈ stateMapCallback (self w) →
  ∃ tid a bs fin b,
    Progress opts tid ci (byTask tid (trace w), pending w !! tid) a bs fin
    ∧ (caught bs fin ≤ listenerThrows (settles tid ins))%nat
    ∧ b ∈ bs ∧ nd = session tid ci b
    ∧ discoveryStatus (self w) !! deviceId ci = Some (statusAfter bs fin)
    ∧ filter (λ p, deviceId p.1 = deviceId ci) (stateMapCallback (self w))
      = (λ b, (ci, session tid ci b)) <$> bs
    ∧ filter (λ e, eventKey e = Some (deviceId ci)) (emitted (trace w))
      = (λ _, EConnected ci) <$> bs.
Proof.
  intros w Hel. unfold w in Hel.
  rewrite (cons_queue _ _ (consistent_run opts ins)) in Hel.
  apply pushed_elem in Hel as [o Hel].
  destruct (own_origin opts ins o _ Hel I) as (tid & -> & Hlt & Hby).
  destruct (task_progress opts ins tid Hlt)
    as (ci' & a & bs & fin & _ & _ & HP & Hc & Hs & Hq & He).
  fold w in Hby, HP, Hs, Hq, He.
  pose proof (prog_queued _ _ _ _ _ _ _ HP) as Hpq. cbn [fst] in Hpq.
  apply elem_queued in Hby. rewrite Hpq in Hby.
  apply list_elem_of_fmap in Hby as (b & Heq & Hb). injection Heq as -> ->.
  by exists tid, a, bs, fin, b.
Qed.

(** X6: in every run, a key of the tracker that is CONNECTING has an
    invocation of [connectToDevice] suspended at an [await], and no key
    has two.  The key of a suspended invocation is CONNECTING, unless a
    listener of [connected] threw in that invocation: then an attempt
    went through before, the invocation is in a later attempt, and the
    key still reads CONNECTED. *)
Theorem connecting_pending (opts : StageLinqOptions) (ins : list Input)
    (k : string) :
  let w := run (init opts) ins in
  (discoveryStatus (self w) !! k = Some CONNECTING →
   ∃ tid t, pending w !! tid = Some t ∧ deviceId (t_info t) = k)
  ∧ (∀ tid t, pending w !! tid = Some t → deviceId (t_info t) = k →
       discoveryStatus (self w) !! k = Some CONNECTING
       ∨ discoveryStatus (self w) !! k = Some CONNECTED
         ∧ ∃ e, Settle tid (ListenerThrows e) ∈ ins)
  ∧ ∀ tid1 tid2 t1 t2,
      pending w !! tid1 = Some t1 → pending w !! tid2 = Some t2 →
      deviceId (t_info t1) = k → deviceId (t_info t2) = k → tid1 = tid2.
Proof.
  intros w. split_and!.
  - intros Hs.
    destruct (status_progress opts ins k _ Hs)
      as (tid & ci & a & bs & fin & _ & _ & _ & Hk & HP & _ & Hw & _).
    fold w in HP, Hw.
    unfold w in Hs. rewrite (cons_status _ _ (consistent_run opts ins)) in Hs.
    fold w in Hs. rewrite Hw, last_writes in Hs. unfold statusAfter in Hs.
    case_decide as Hfin; [done|]. case_decide as Hbs; [|done]. subst bs.
    pose proof (prog_state _ _ _ _ _ _ _ HP) as Hst. cbn [snd] in Hst.
    destruct (pending w !! tid) as [t|] eqn:Ht.
    + exists tid, t. destruct fin; [done|]. by destruct Hst as (-> & _).
    + by destruct fin as [[| |]|]; try done; destruct Hst.
  - intros tid t Ht <-.
    destruct (pending_progress opts ins tid t Ht)
      as (a & bs & _ & _ & _ & Hlen & Hs).
    fold w in Hs. rewrite Hs. case_decide as Hbs; [by left|right].
    split; [done|]. apply listenerThrows_pos.
    destruct bs; [done|simpl in Hlen; lia].
  - intros tid1 tid2 t1 t2 H1 H2 Hk1 Hk2.
    apply (inv_unique _ (inv_run opts ins) tid1 tid2 t1 t2 H1 H2).
    unfold key. by rewrite Hk1, Hk2.
Qed.

Lemma connecting_pending_witness :
  let w := run (init options3) (take 2 firstAttempt) in
  ∃ tid t, pending w !! tid = Some t ∧ deviceId (t_info t) = deviceId token16.
Proof.
  intros w.
  apply (proj1 (connecting_pending options3 (take 2 firstAttempt)
                  (deviceId token16))).
  reflexivity.
Defined.

(** X7: a suspended invocation of [connectToDevice] in a run: its
    attempt counter is at least 1 and below [maxRetries], it has opened
    one session for each attempt up to that one and no other, the session
    it holds is the last of them, and its promise was not rejected.  When
    no listener of [connected] throws it has neither queued a pair nor
    emitted an event. *)
Theorem pending_attempt (opts : StageLinqOptions) (ins : list Input)
    (tid : nat) (t : Task) :
  let w := run (init opts) ins in
  pending w !! tid = Some t →
  (1 ≤ t_attempt t < maxRetries opts)%Z
  ∧ attempts tid (trace w) = session tid (t_info t) <$> seqZ 1 (t_attempt t)
  ∧ last (attempts tid (trace w)) = Some (t_device t)
  ∧ thrown tid (trace w) = []
  ∧ (listenersReturn ins →
     queued (byTask tid (trace w)) = [] ∧ events (byTask tid (trace w)) = []).
Proof.
  intros w Ht.
  destruct (pending_progress opts ins tid t Ht) as (a & bs & HP & _ & _ & Hlen & _).
  fold w in HP.
  destruct HP as [Hc Hb _ Hq He Hth _ _ (_ & Ha & Hdev & H1 & _)].
  cbn [fst snd] in *. subst a. unfold attempts, thrown.
  rewrite Hc, Hq, He, Hth, Hdev. split_and!; try done; [lia|by apply last_sessions|].
  intros Hret. rewrite (listenersReturn_settles _ tid Hret) in Hlen.
  by destruct bs; [|simpl in Hlen; lia].
Qed.

Lemma pending_attempt_witness :
  let w := run (init options3) (take 2 firstAttempt) in
  ∃ t, pending w !! 0%nat = Some t ∧ (1 ≤ t_attempt t < 3)%Z.
Proof.
  intros w. eexists. split; [reflexivity|].
  eapply (proj1 (pending_attempt options3 (take 2 firstAttempt) 0 _ eq_refl)).
Defined.

(** X8: in every run, a key is FAILED only after its invocation of
    [connectToDevice] has used all its attempts.  The invocation is
    over, it opened exactly [maxRetries - 1] sessions (none when
    [maxRetries] is below 2) and its promise was rejected once, with the
    "Could not connect" error for the key.  When no listener of
    [connected] throws, no pair of the queue and no [connected] event
    carries the key. *)
Theorem failed_exhausted (opts : StageLinqOptions) (ins : list Input)
    (k : string) :
  let w := run (init opts) ins in
  discoveryStatus (self w) !! k = Some FAILED →
  ∃ tid ci,
    Discovered ci ∈ ins ∧ deviceId ci = k
    ∧ pending w !! tid = None
    ∧ attempts tid (trace w)
      = session tid ci <$> seqZ 1 (Z.max 0 (maxRetries opts - 1))
    ∧ thrown tid (trace w) = [JsErr ("Could not connect to " +:+ k)]
    ∧ (listenersReturn ins →
       filter (λ p, deviceId p.1 = k) (stateMapCallback (self w)) = []
       ∧ filter (λ e, eventKey e = Some k) (emitted (trace w)) = []).
Proof.
  intros w Hs.
  destruct (status_progress opts ins k _ Hs)
    as (tid & ci & a & bs & fin & _ & Hd & _ & Hk & HP & Hcaught & Hw & Hq & He).
  fold w in HP, Hw, Hq, He.
  unfold w in Hs. rewrite (cons_status _ _ (consistent_run opts ins)) in Hs.
  fold w in Hs. rewrite Hw, last_writes in Hs. unfold statusAfter in Hs.
  case_decide as Hfin; [|by case_decide]. subst fin.
  destruct HP as [Hc _ _ _ _ Hth _ _ Hst]. cbn [fst snd] in *.
  rewrite decide_True in Hth by done.
  destruct (pending w !! tid) eqn:Ht; [done|]. subst a.
  exists tid, ci. unfold attempts, thrown. rewrite Hc, Hth, Hk.
  split_and!; try done.
  intros Hret. rewrite (listenersReturn_settles _ tid Hret) in Hcaught.
  unfold caught in Hcaught. rewrite decide_False in Hcaught by done.
  unfold w. rewrite (cons_queue _ _ (consistent_run opts ins)). fold w.
  rewrite Hq, He. by destruct bs; [|simpl in Hcaught; lia].
Qed.

Lemma failed_exhausted_witness :
  let w := run (init options3) (Discovered token16 :: connectsFail) in
  ∃ tid ci, deviceId ci = deviceId token16
            ∧ attempts tid (trace w)
              = session tid ci <$> seqZ 1 (Z.max 0 (maxRetries options3 - 1)).
Proof.
  intros w.
  destruct (failed_exhausted options3 (Discovered token16 :: connectsFail)
              (deviceId token16) eq_refl)
    as (tid & ci & _ & Hk & _ & Ha & _).
  exists tid, ci. split; [exact Hk|exact Ha].
Defined.

(** ** The queue of deferred StateMap setups *)

Lemma filter_elem_length {A} (P : A → Prop) `{∀ x, Decision (P x)} (l : list A) :
  filter P l = [] ∨ ∃ x, x ∈ l ∧ P x.
Proof.
  destruct (filter P l) as [|x l'] eqn:Hf; [by left|right].
  assert (x ∈ filter P l) as [? ?]%list_elem_of_filter
    by (rewrite Hf; apply list_elem_of_here).
  by exists x.
Qed.

Lemma filter_elem {A} (P : A → Prop) `{∀ x, Decision (P x)} (l : list A) x :
  x ∈ filter P l → x ∈ l.
Proof. by intros [_ ?]%list_elem_of_filter. Qed.

(** X9: the queue of deferred StateMap setups in every run.  A key that
    is CONNECTED has a pair in the queue.  A pair of the queue holds an
    announcement and a session that [connectToDevice] opened for it;
    [connected] was emitted for the announcement, and its key is
    CONNECTED or FAILED.  For every key the queue holds as many pairs as
    there were [connected] events.  When no listener of [connected]
    throws, a key is queued at most once, it is CONNECTED, the session is
    the last one its invocation opened, and that invocation is over. *)
Theorem queue_connected (opts : StageLinqOptions) (ins : list Input) :
  let w := run (init opts) ins in
  (∀ k, discoveryStatus (self w) !! k = Some CONNECTED →
        ∃ ci nd, (ci, nd) ∈ stateMapCallback (self w) ∧ deviceId ci = k)
  ∧ (∀ ci nd, (ci, nd) ∈ stateMapCallback (self w) →
       nd_info nd = ci
       ∧ nd ∈ attempts (nd_owner nd) (trace w)
       ∧ EConnected ci ∈ emitted (trace w)
       ∧ (discoveryStatus (self w) !! deviceId ci = Some CONNECTED
          ∨ discoveryStatus (self w) !! deviceId ci = Some FAILED))
  ∧ (∀ k, length (filter (λ p, deviceId p.1 = k) (stateMapCallback (self w)))
          = length (filter (λ e, eventKey e = Some k) (emitted (trace w))))
  ∧ (listenersReturn ins →
     (∀ k, (length (filter (λ p, deviceId p.1 = k) (stateMapCallback (self w)))
            ≤ 1)%nat)
     ∧ ∀ ci nd, (ci, nd) ∈ stateMapCallback (self w) →
         discoveryStatus (self w) !! deviceId ci = Some CONNECTED
         ∧ last (attempts (nd_owner nd) (trace w)) = Some nd
         ∧ pending w !! nd_owner nd = None).
Proof.
  intros w.
  pose proof (consistent_run opts ins) as HC. fold w in HC.
  assert (∀ ci nd, (ci, nd) ∈ stateMapCallback (self w) → listenersReturn ins →
            discoveryStatus (self w) !! deviceId ci = Some CONNECTED
            ∧ last (attempts (nd_owner nd) (trace w)) = Some nd
            ∧ pending w !! nd_owner nd = None
            ∧ (length (filter (λ p, deviceId p.1 = deviceId ci)
                         (stateMapCallback (self w))) ≤ 1)%nat) as Hquiet.
  { intros ci nd Hel Hret.
    destruct (queue_owner opts ins ci nd Hel)
      as (tid & a & bs & fin & b & HP & Hc & Hb & -> & Hs & Hq & _).
    fold w in HP, Hs, Hq.
    rewrite (listenersReturn_settles _ tid Hret) in Hc.
    assert (caught bs fin = 0%nat) as Hc0 by lia.
    pose proof (progress_quiet _ _ _ _ _ _ _ HP Hc0) as Hbs.
    case_decide as Hfin; [|subst bs; by apply elem_of_nil in Hb].
    subst bs fin. apply list_elem_of_singleton in Hb as ->.
    destruct HP as [Hcon _ _ _ _ _ _ _ Hst]. cbn [fst snd] in *.
    change (nd_owner (session tid ci a)) with tid.
    destruct (pending w !! tid); [done|]. destruct Hst as [Ha _].
    rewrite Hs, Hq. unfold attempts. rewrite Hcon, last_sessions by done.
    by split_and!. }
  split_and!.
  - intros k Hs.
    destruct (status_progress opts ins k _ Hs)
      as (tid & ci & a & bs & fin & _ & _ & _ & Hk & _ & _ & Hw & Hq & _).
    fold w in Hw, Hq.
    rewrite (cons_status _ _ HC), Hw, last_writes in Hs. unfold statusAfter in Hs.
    case_decide; [done|]. case_decide; [done|].
    destruct bs as [|b bs]; [done|].
    exists ci, (session tid ci b). split; [|done].
    rewrite (cons_queue _ _ HC).
    apply (filter_elem (λ p, deviceId p.1 = k)).
    rewrite Hq. apply list_elem_of_here.
  - intros ci nd Hel.
    destruct (queue_owner opts ins ci nd Hel)
      as (tid & a & bs & fin & b & HP & _ & Hb & -> & Hs & _ & He).
    fold w in HP, Hs, He.
    split_and!; try done.
    + change (nd_owner (session tid ci b)) with tid. unfold attempts.
      pose proof (prog_connects _ _ _ _ _ _ _ HP) as Hc. cbn [fst] in Hc.
      rewrite Hc. apply elem_session.
      by destruct (prog_done _ _ _ _ _ _ _ HP b Hb).
    + apply (filter_elem (λ e, eventKey e = Some (deviceId ci))).
      rewrite He. apply list_elem_of_fmap. by exists b.
    + rewrite Hs. unfold statusAfter. case_decide; [by right|left].
      rewrite decide_False; [done|]. intros ->. by apply elem_of_nil in Hb.
  - intros k.
    destruct (filter_elem_length (λ p, deviceId p.1 = k)
                (stateMapCallback (self w))) as [Hq|([ci nd] & Hel & Hk)].
    + destruct (filter_elem_length (λ e, eventKey e = Some k)
                  (emitted (trace w))) as [He|(ev & Hel & Hk)];
        [by rewrite Hq, He|].
      destruct ev as [ci|]; [|done]. injection Hk as Hk.
      destruct (connected_owner opts ins ci Hel)
        as (tid & a & bs & fin & Hlt & _ & _ & HP & Hne).
      destruct (task_progress opts ins tid Hlt)
        as (ci' & a' & bs' & fin' & _ & _ & HP' & _ & _ & Hq' & He').
      fold w in HP, HP', Hq', He'.
      assert (ci' = ci) as ->.
      { pose proof (prog_events _ _ _ _ _ _ _ HP) as H1.
        pose proof (prog_events _ _ _ _ _ _ _ HP') as H2.
        cbn [fst] in H1, H2. rewrite H1 in H2.
        destruct bs as [|b bs], bs' as [|b' bs']; try done.
        cbn in H2. by injection H2. }
      rewrite <- Hk, Hq', He'. by rewrite !length_fmap.
    + simpl in Hk. subst k.
      destruct (queue_owner opts ins ci nd Hel)
        as (tid & a & bs & fin & b & _ & _ & _ & _ & _ & Hq & He).
      fold w in Hq, He. rewrite Hq, He. by rewrite !length_fmap.
  - intros Hret. split.
    + intros k.
      destruct (filter_elem_length (λ p, deviceId p.1 = k)
                  (stateMapCallback (self w))) as [->|([ci nd] & Hel & Hk)];
        [simpl; lia|].
      simpl in Hk. subst k. by destruct (Hquiet ci nd Hel Hret) as (_ & _ & _ & ?).
    + intros ci nd Hel. by destruct (Hquiet ci nd Hel Hret) as (? & ? & ? & _).
Qed.

Lemma queue_connected_witness :
  let w := run (init options3) firstAttempt in
  ∃ ci nd, (ci, nd) ∈ stateMapCallback (self w)
           ∧ deviceId ci = deviceId token16.
Proof.
  intros w.
  apply (proj1 (queue_connected options3 firstAttempt) (deviceId token16)).
  reflexivity.
Defined.

(** ** [disconnectAll], [downloadFile] and the [Player] *)

Lemma elem_disconnectAll this nd :
  nd ∈ disconnectAll this
  ↔ ∃ id d, devices this !! id = Some d ∧ networkDevice d = nd.
Proof.
  unfold disconnectAll. rewrite list_elem_of_fmap. split.
  - intros (d & -> & Hel). apply list_elem_of_fmap in Hel as ([id d'] & -> & Hel).
    apply elem_of_map_to_list in Hel. by exists id, d'.
  - intros (id & d & Hd & <-). exists d. split; [done|].
    apply list_elem_of_fmap. exists (id, d). split; [done|].
    by apply elem_of_map_to_list.
Qed.

(** X10: [disconnectAll] in every run.  It calls [disconnect()] on the
    sessions of the registry, each once; these are the sessions that,
    under some identifier, were registered last.  Each of them was
    opened by an invocation of [connectToDevice], for an announcement
    that was discovered, and sits under the identifier of that
    announcement.  A session that was opened but not registered, or
    whose entry was replaced by a later registration, is not
    disconnected. *)
Theorem disconnectAll_sessions (opts : StageLinqOptions) (ins : list Input) :
  let w := run (init opts) ins in
  NoDup (disconnectAll (self w))
  ∧ (∀ nd, nd ∈ disconnectAll (self w)
           ↔ ∃ id, last (registrations id (trace w)) = Some (entryOf nd))
  ∧ (∀ nd, nd ∈ disconnectAll (self w) →
       nd ∈ attempts (nd_owner nd) (trace w)
       ∧ Discovered (nd_info nd) ∈ ins
       ∧ ∃ sid, sourceId (nd_info nd) = inr sid
                ∧ devices (self w) !! ("net://" +:+ sid) = Some (entryOf nd)).
Proof.
  intros w. split_and!.
  - unfold disconnectAll. rewrite <- list_fmap_compose.
    apply NoDup_fmap_2_strong; [|apply NoDup_map_to_list].
    intros [id1 d1] [id2 d2] H1%elem_of_map_to_list H2%elem_of_map_to_list Heq.
    simpl in Heq.
    destruct (registry_entry opts ins id1 d1 H1) as (sid1 & Hs1 & -> & He1 & _).
    destruct (registry_entry opts ins id2 d2 H2) as (sid2 & Hs2 & -> & He2 & _).
    rewrite Heq, Hs2 in Hs1. injection Hs1 as ->.
    by rewrite He1, He2, Heq.
  - intros nd. rewrite elem_disconnectAll. split.
    + intros (id & d & Hd & <-). exists id.
      destruct (registry_entry opts ins id d Hd) as (_ & _ & _ & <- & _).
      rewrite <- Hd. symmetry. apply (run_registry opts ins id).
    + intros (id & Hl). exists id, (entryOf nd). split; [|done].
      rewrite <- Hl. apply (run_registry opts ins id).
  - intros nd (id & d & Hd & <-)%elem_disconnectAll.
    destruct (registry_entry opts ins id d Hd)
      as (sid & Hs & -> & He & Ha & Hdisc & _).
    split_and!; try done. exists sid. by rewrite <- He.
Qed.

Lemma disconnectAll_sessions_witness :
  let w := run (init options3) downloadFails in
  session 0 token16 1 ∈ attempts 0 (trace w)
  ∧ disconnectAll (self w) = [session 0 token16 1].
Proof.
  intros w.
  assert (session 0 token16 1 ∈ disconnectAll (self w)) as Hel.
  { apply (proj1 (proj2 (disconnectAll_sessions options3 downloadFails))).
    by exists "net://00010203-0405-0607-0809-0a0b0c0d0e0f". }
  split; [|reflexivity].
  exact (proj1 (proj2 (proj2 (disconnectAll_sessions options3 downloadFails))
                  (session 0 token16 1) Hel)).
Defined.

Lemma connected_registered opts ins ci :
  let w := run (init opts) ins in
  EConnected ci ∈ emitted (trace w) →
  ∃ sid d,
    sourceId ci = inr sid
    ∧ devices (self w) !! ("net://" +:+ sid) = Some d
    ∧ sourceId (nd_info (networkDevice d)) = inr sid.
Proof.
  intros w Hel.
  destruct (connected_owner opts ins ci Hel)
    as (tid & a & bs & fin & _ & _ & _ & HP & Hne).
  fold w in HP.
  destruct bs as [|b bs]; [done|].
  destruct (prog_done _ _ _ _ _ _ _ HP b) as (_ & sid & Hsid & Hin);
    [apply list_elem_of_here|].
  cbn [fst] in Hin.
  assert (entryOf (session tid ci b) ∈ registrations ("net://" +:+ sid) (trace w))
    as Hreg.
  { apply elem_registrations. exists (OConnectToDevice tid).
    by apply elem_byTask, elem_registered. }
  destruct (last (registrations ("net://" +:+ sid) (trace w))) as [d|] eqn:Hd.
  2:{ apply last_None in Hd. rewrite Hd in Hreg. by apply elem_of_nil in Hreg. }
  rewrite <- (run_registry opts ins) in Hd. fold w in Hd.
  destruct (registry_entry opts ins _ d Hd) as (sid' & Hs' & Hid & _).
  apply append_inj_l in Hid as <-.
  by exists sid, d.
Qed.

(** X11: after [connected] was emitted for an announcement, in every
    run, [sourceId] of the announcement is defined, the registry has an
    entry under ["net://"] followed by it, that entry is a session of a
    device with the same identifier, and [downloadFile] on that key does
    not throw: it waits for the file-transfer service of the entry. *)
Theorem connected_downloadable (opts : StageLinqOptions) (ins : list Input)
    (ci : ConnectionInfo) :
  let w := run (init opts) ins in
  EConnected ci ∈ emitted (trace w) →
  ∃ sid d,
    sourceId ci = inr sid
    ∧ devices (self w) !! ("net://" +:+ sid) = Some d
    ∧ sourceId (nd_info (networkDevice d)) = inr sid
    ∧ ∀ path, ∃ k,
        downloadFile (self w) ("net://" +:+ sid) path
        = Await (WaitTillAvailable (fileTransferService d)) k.
Proof.
  intros w Hel.
  destruct (connected_registered opts ins ci Hel) as (sid & d & Hs & Hd & Hs').
  exists sid, d. split_and!; try done.
  intros path. unfold downloadFile. fold w in Hd. rewrite Hd. by eexists.
Qed.

Lemma connected_downloadable_witness :
  let w := run (init options3) firstAttempt in
  ∃ sid d, sourceId token16 = inr sid
           ∧ devices (self w) !! ("net://" +:+ sid) = Some d.
Proof.
  intros w.
  destruct (connected_downloadable options3 firstAttempt token16)
    as (sid & d & Hs & Hd & _).
  - elem_compute.
  - exists sid, d. split; [exact Hs|exact Hd].
Defined.

Lemma run_queue_grows w ins :
  ∃ more, stateMapCallback (self (run w ins)) = stateMapCallback (self w) ++ more.
Proof.
  destruct (run_act w ins) as (effs & _ & ->). rewrite perform_queue. by eexists.
Qed.

(** [setupStateMap] only runs for pairs of the queue. *)
Lemma runs_queued opts ins p :
  let w := run (init opts) ins in
  p ∈ stateMapRuns (trace w) → p ∈ stateMapCallback (self w).
Proof.
  intros w Hel.
  destruct (barrier_run opts ins)
    as [(_ & _ & Hr)|(_ & ins1 & ins2 & -> & _ & _ & _ & _ & Hr)].
  - fold w in Hr. rewrite Hr in Hel. by apply elem_of_nil in Hel.
  - fold w in Hr. rewrite Hr in Hel. unfold w. rewrite run_app.
    destruct (run_queue_grows (run (init opts) ins1) (Tick :: ins2)) as [more ->].
    apply elem_of_app. by left.
Qed.

(** X12: [setupStateMap] is only ever invoked for pairs of the queue,
    and for such a pair, once [connectToService(StateMap)] is fulfilled,
    it does not throw: [sourceId] is defined, the four listeners are
    subscribed, and the [Player] is built on the session of the pair
    with, as [deviceId], the identifier under which the registry has an
    entry (after ["net://"]). *)
Theorem setupStateMap_player (opts : StageLinqOptions) (ins : list Input)
    (ci : ConnectionInfo) (nd : NetworkDevice) :
  let w := run (init opts) ins in
  ((ci, nd) ∈ stateMapRuns (trace w) → (ci, nd) ∈ stateMapCallback (self w))
  ∧ ((ci, nd) ∈ stateMapCallback (self w) →
     ∃ listeners player,
       setupStateMapResumed ci nd Fulfilled = (listeners, inr player)
       ∧ length listeners = 4%nat
       ∧ po_stateMap player = nd ∧ nd_info nd = ci
       ∧ sourceId ci = inr (po_deviceId player)
       ∧ is_Some (devices (self w) !! ("net://" +:+ po_deviceId player))).
Proof.
  intros w. split; [apply runs_queued|]. intros Hel.
  destruct (queue_owner opts ins ci nd Hel)
    as (tid & a & bs & fin & b & _ & _ & Hb & -> & _ & _ & He).
  assert (EConnected ci ∈ emitted (trace w)) as Hev.
  { apply (filter_elem (λ e, eventKey e = Some (deviceId ci))).
    fold w in He. rewrite He. apply list_elem_of_fmap. by exists b. }
  destruct (connected_registered opts ins ci Hev) as (sid & d & Hs & Hd & _).
  unfold setupStateMapResumed. rewrite Hs. do 2 eexists.
  split_and!; first [done|simpl; by rewrite Hd].
Qed.

Lemma setupStateMap_player_witness :
  let w := run (init options3) (firstAttempt ++ [Tick]) in
  ∃ listeners player,
    setupStateMapResumed token16 (session 0 token16 1) Fulfilled
    = (listeners, inr player)
    ∧ po_deviceId player = "00010203-0405-0607-0809-0a0b0c0d0e0f".
Proof.
  intros w.
  destruct (proj2 (setupStateMap_player options3 (firstAttempt ++ [Tick])
                     token16 (session 0 token16 1)))
    as (ls & p & Heq & _ & _ & _ & Hs & _).
  - apply (proj1 (setupStateMap_player options3 (firstAttempt ++ [Tick])
                    token16 (session 0 token16 1))).
    elem_compute.
  - exists ls, p. split; [exact Heq|].
    assert (inr (po_deviceId p)
            = (inr "00010203-0405-0607-0809-0a0b0c0d0e0f" : JsError + string))
      as Hid by (rewrite <- Hs; reflexivity).
    by injection Hid.
Defined.

(** ** How many sessions, how many promises *)

(** X13: in every run, whatever the promises do, an invocation of
    [connectToDevice] opens at most [maxRetries - 1] sessions; they are
    all its own, all for the same announcement, and numbered 1, 2, ...
    in the order in which they are opened. *)
Theorem attempts_bounded (opts : StageLinqOptions) (ins : list Input)
    (tid : nat) :
  let w := run (init opts) ins in
  (length (attempts tid (trace w)) ≤ Z.to_nat (maxRetries opts - 1))%nat
  ∧ nd_attempt <$> attempts tid (trace w)
    = seqZ 1 (Z.of_nat (length (attempts tid (trace w))))
  ∧ (∀ nd, nd ∈ attempts tid (trace w) → nd_owner nd = tid)
  ∧ (∀ nd1 nd2, nd1 ∈ attempts tid (trace w) → nd2 ∈ attempts tid (trace w) →
       nd_info nd1 = nd_info nd2).
Proof.
  intros w.
  destruct (decide (tid < nextTask w)%nat) as [Hlt|Hge].
  - destruct (run_progress opts ins tid Hlt)
      as (ci & a & bs & fin & _ & _ & HP & _).
    fold w in HP. destruct HP as [Hc Hb _ _ _ _ _ _ _]. cbn [fst] in Hc.
    unfold attempts. rewrite Hc, length_fmap, length_seqZ, <- list_fmap_compose.
    split_and!.
    + lia.
    + rewrite Z2Nat.id by lia. rewrite <- (list_fmap_id (seqZ 1 a)) at 2.
      by apply list_fmap_ext.
    + by intros nd (b & -> & _)%list_elem_of_fmap.
    + by intros nd1 nd2 (b1 & -> & _)%list_elem_of_fmap
        (b2 & -> & _)%list_elem_of_fmap.
  - unfold attempts.
    rewrite (byTask_fresh w tid) by (apply inv_run || lia).
    split_and!; [simpl; lia|done| |].
    + intros nd Hel. by apply elem_of_nil in Hel.
    + intros nd1 nd2 Hel. by apply elem_of_nil in Hel.
Qed.

Lemma attempts_bounded_witness :
  let w := run (init options3) (Discovered token16 :: connectsFail) in
  (length (attempts 0 (trace w)) ≤ 2)%nat
  ∧ nd_owner (session 0 token16 2) = 0%nat.
Proof.
  intros w.
  destruct (attempts_bounded options3 (Discovered token16 :: connectsFail) 0)
    as (Hlen & _ & Hown & _).
  split; [exact Hlen|]. apply Hown. elem_compute.
Defined.

Lemma awaitsPerAttempt_pos opts : (2 ≤ awaitsPerAttempt opts)%nat.
Proof. unfold awaitsPerAttempt. destruct (downloadDbSources opts); lia. Qed.

Lemma awaitsLeft_pos opts t : (1 ≤ awaitsLeft opts t)%nat.
Proof.
  pose proof (awaitsPerAttempt_pos opts). unfold awaitsLeft.
  generalize (awaitsPerAttempt opts
              * Z.to_nat (maxRetries opts - 1 - t_attempt t))%nat.
  intros n. destruct (t_at t); lia.
Qed.

Lemma catchRetry_awaitsLeft opts tid t e :
  match (catchRetry opts tid t e).2 with
  | Some t' => (awaitsLeft opts t' < awaitsLeft opts t)%nat
  | None => True
  end.
Proof.
  unfold catchRetry, attemptLoop. case_bool_decide as Hlt; [|done].
  cbn [snd]. pose proof (awaitsPerAttempt_pos opts) as Hper.
  unfold awaitsLeft. cbn [t_attempt t_at].
  replace (Z.to_nat (maxRetries opts - 1 - t_attempt t))
    with (S (Z.to_nat (maxRetries opts - 1 - (t_attempt t + 1)))) by lia.
  rewrite Nat.mul_succ_r.
  generalize (awaitsPerAttempt opts
              * Z.to_nat (maxRetries opts - 1 - (t_attempt t + 1)))%nat.
  intros n. destruct (t_at t); lia.
Qed.

Lemma completeAttempt_awaitsLeft opts tid t listener :
  match (completeAttempt opts tid t listener).2 with
  | Some t' => (awaitsLeft opts t' < awaitsLeft opts t)%nat
  | None => True
  end.
Proof.
  destruct listener as [e|]; [|done]. apply catchRetry_awaitsLeft.
Qed.

Lemma resume_awaitsLeft opts tid t o :
  match (resume opts tid t o).2 with
  | Some t' => (awaitsLeft opts t' < awaitsLeft opts t)%nat
  | None => True
  end.
Proof.
  assert ((∃ e, o = Rejected e) ∨ (∀ e, o ≠ Rejected e)) as [[e ->]|Hok]
    by (destruct o; eauto).
  { apply catchRetry_awaitsLeft. }
  assert (resume opts tid t o
          = match t_at t with
            | AwaitConnect =>
                match setupFileTransferService t with
                | inl e => catchRetry opts tid t e
                | inr (effs, p) => (effs, Some (suspendAt p t))
                end
            | AwaitFileTransfer sid =>
                if downloadDbSources opts then
                  (registerFileTransfer sid t :: downloadDatabase t,
                   Some (suspendAt AwaitDownload t))
                else
                  let r := completeAttempt opts tid t (listenerOf o) in
                  (registerFileTransfer sid t :: r.1, r.2)
            | AwaitDownload =>
                let r := completeAttempt opts tid t (listenerOf o) in
                (databaseDownloaded t ++ r.1, r.2)
            end) as ->.
  { destruct o as [|e|e]; [done| |done]. by destruct (Hok e). }
  unfold setupFileTransferService.
  destruct (t_at t) as [|sid|] eqn:Hat.
  - destruct (sourceId (t_info t)); [apply catchRetry_awaitsLeft|].
    cbn [snd]. pose proof (awaitsPerAttempt_pos opts).
    unfold awaitsLeft. rewrite Hat. cbn [suspendAt t_attempt t_at].
    generalize (awaitsPerAttempt opts
                * Z.to_nat (maxRetries opts - 1 - t_attempt t))%nat.
    intros n. lia.
  - destruct (downloadDbSources opts) eqn:Hdb.
    + unfold awaitsLeft, awaitsPerAttempt. rewrite Hat, Hdb.
      cbn [snd suspendAt t_attempt t_at]. lia.
    + cbn [snd]. apply completeAttempt_awaitsLeft.
  - cbn [snd]. apply completeAttempt_awaitsLeft.
Qed.

Lemma drive_terminates opts tid os : ∀ t,
  (awaitsLeft opts t ≤ length os)%nat → (drive opts tid (Some t) os).2 = None.
Proof.
  induction os as [|o os IH]; intros t Hlen.
  - pose proof (awaitsLeft_pos opts t). simpl in Hlen. lia.
  - rewrite drive_cons. cbn [snd].
    pose proof (resume_awaitsLeft opts tid t o) as Hdec.
    destruct (resume opts tid t o).2 as [t'|]; [|by rewrite drive_none].
    apply IH. simpl in Hlen. lia.
Qed.

Lemma invocation_terminates opts tid ci os :
  (awaitsPerAttempt opts * Z.to_nat (maxRetries opts - 1) ≤ length os)%nat →
  (invocation opts tid ci os).2 = None.
Proof.
  intros Hlen. unfold invocation, connectToDevice, attemptLoop.
  case_bool_decide as Hlt; cbn [fst snd]; [|by rewrite drive_none].
  apply drive_terminates. unfold awaitsLeft. cbn [t_attempt t_at].
  replace (Z.to_nat (maxRetries opts - 1))
    with (S (Z.to_nat (maxRetries opts - 1 - 1))) in Hlen by lia.
  rewrite Nat.mul_succ_r in Hlen. done.
Qed.

(** X14: an invocation of [connectToDevice] awaits a bounded number of
    promises.  Once [awaitsPerAttempt * (maxRetries - 1)] of the
    promises it awaited have settled (three an attempt with the database
    download, two without), however they settled, whatever the
    listeners of [connected] did and whatever else happened in between,
    the invocation is over and its key is CONNECTED or FAILED: it no
    longer holds the barrier back, and it opens no further session. *)
Theorem connectToDevice_settles (opts : StageLinqOptions)
    (ins1 ins2 : list Input) (ci : ConnectionInfo) :
  let w1 := run (init opts) ins1 in
  let tid := nextTask w1 in
  let w2 := run w1 (Discovered ci :: ins2) in
  discoveryStatus (self w1) !! deviceId ci = None →
  isIgnored opts ci = false →
  (awaitsPerAttempt opts * Z.to_nat (maxRetries opts - 1)
   ≤ length (settles tid ins2))%nat →
  pending w2 !! tid = None
  ∧ (discoveryStatus (self w2) !! deviceId ci = Some CONNECTED
     ∨ discoveryStatus (self w2) !! deviceId ci = Some FAILED)
  ∧ ∀ ins3, attempts tid (trace (run w2 ins3)) = attempts tid (trace w2).
Proof.
  intros w1 tid w2 Hs Hi Hlen.
  destruct (invocation_trace opts ins1 ci ins2 Hs Hi) as [Hb Hp].
  fold w1 tid w2 in Hb, Hp.
  pose proof (invocation_terminates opts tid ci _ Hlen) as Hend.
  destruct (progress_invocation opts tid ci (settles tid ins2))
    as (a & bs & fin & HP & _).
  pose proof (prog_marks _ _ _ _ _ _ _ HP) as Hm.
  pose proof (prog_state _ _ _ _ _ _ _ HP) as Hst.
  destruct (progress_key _ _ _ _ _ _ _ HP) as (Hw & _).
  rewrite <- Hb in Hm, Hw. rewrite Hend in Hst. rewrite Hend in Hp.
  assert (w2 = run (init opts) (ins1 ++ Discovered ci :: ins2)) as Hw2
    by (unfold w2, w1; by rewrite run_app).
  pose proof (consistent_run opts (ins1 ++ Discovered ci :: ins2)) as HC.
  rewrite <- Hw2 in HC.
  assert ((OConnectToDevice tid, SetStatus (deviceId ci) CONNECTING) ∈ trace w2)
    as Hmark.
  { apply elem_byTask, elem_marks. rewrite Hm. apply list_elem_of_here. }
  rewrite Hw2 in Hmark.
  destruct (key_owner opts _ tid _ Hmark) as (Hwrites & _).
  rewrite <- Hw2 in Hwrites.
  split_and!.
  - done.
  - rewrite (cons_status _ _ HC), Hwrites, Hw, last_writes. unfold statusAfter.
    destruct fin as [[| |]|]; try done.
    + left. rewrite decide_False by done. rewrite decide_False; [done|].
      intros ->. by destruct Hst.
    + right. by rewrite decide_True.
  - intros ins3. unfold attempts.
    destruct (run_byTask w2 ins3 tid) as [Hb3 _].
    { unfold w2.
      change (run w1 (Discovered ci :: ins2))
        with (run (handleDevice ci w1) ins2).
      eapply Nat.lt_le_trans;
        [|apply (run_nextTask (handleDevice ci w1) ins2)].
      pose proof (cons_options _ _ (consistent_run opts ins1)) as Ho.
      fold w1 in Ho. rewrite handleDevice_fresh by (by rewrite ?Ho).
      simpl. fold tid. lia. }
    rewrite Hb3, Hp, drive_none. cbn [fst]. by rewrite app_nil_r.
Qed.

Lemma connectToDevice_settles_witness :
  let w := run (init options3)
             (Discovered token16 :: connectsFail
                ++ [Settle 0 Fulfilled; Settle 0 (Rejected (JsErr "busy"));
                    Settle 0 Fulfilled; Settle 0 Fulfilled]) in
  pending w !! 0%nat = None.
Proof.
  intros w.
  refine (proj1 (connectToDevice_settles options3 [] _ token16 _ _ _));
    [reflexivity|reflexivity|simpl; lia].
Defined.

(** ** After [ready] *)

(** X15: once [ready] was emitted nothing is set up any more.  In every
    continuation of the run the interval stays cleared, [ready] is not
    emitted again and no further [setupStateMap] is invoked: a pair that
    [connectToDevice] queues after [ready] stays in the queue, and its
    [setupStateMap] never runs. *)
Theorem after_ready (opts : StageLinqOptions) (ins ins' : list Input) :
  let w := run (init opts) ins in
  let w' := run w ins' in
  EReady ∈ emitted (trace w) →
  deviceWatchTimeout (self w') = false
  ∧ filter (EReady =.) (emitted (trace w')) = [EReady]
  ∧ stateMapRuns (trace w') = stateMapRuns (trace w)
  ∧ ∀ p, p ∉ stateMapCallback (self w) → p ∉ stateMapRuns (trace w').
Proof.
  intros w w' Hready.
  assert (∀ ins0, filter (EReady =.) (emitted (trace (run (init opts) ins0)))
                  = [EReady] →
                  EReady ∈ emitted (trace (run (init opts) ins0))) as Hin.
  { intros ins0 Hf. apply (filter_elem (EReady =.)). rewrite Hf.
    apply list_elem_of_here. }
  assert (∀ ins0, EReady ∈ emitted (trace (run (init opts) ins0)) →
                  deviceWatchTimeout (self (run (init opts) ins0)) = false
                  ∧ filter (EReady =.) (emitted (trace (run (init opts) ins0)))
                    = [EReady]) as Hoff.
  { intros ins0 Hel. pose proof (ready_timer opts ins0) as Htimer.
    cbv zeta in Htimer.
    destruct (deviceWatchTimeout (self (run (init opts) ins0))); [|done].
    by destruct Htimer. }
  assert (filter (EReady =.) (emitted (trace w')) = [EReady]
          ∧ stateMapRuns (trace w') = stateMapRuns (trace w)) as [Hf Hruns].
  { unfold w'. induction ins' as [|i ins' [IHf IHr]] using rev_ind.
    { split; [|done]. by apply (Hoff ins). }
    rewrite run_snoc. unfold w in *. rewrite <- run_app in *.
    destruct (barrier_waits opts (ins ++ ins') i) as [Hf' Hr'].
    { intros (_ & Hnot & _). apply Hnot. by apply Hin. }
    by rewrite Hf', Hr'. }
  split_and!; try done.
  - unfold w', w. rewrite <- run_app. apply Hoff, Hin.
    rewrite run_app. exact Hf.
  - intros p Hp Hel. apply Hp. rewrite Hruns in Hel.
    by apply (runs_queued opts ins p).
Qed.

Lemma after_ready_witness :
  let w' := run (init options3)
              ((firstAttempt ++ [Tick])
               ++ [Discovered otherDeck; Settle 1 Fulfilled; Settle 1 Fulfilled;
                   Settle 1 Fulfilled; Tick]) in
  (otherDeck, session 1 otherDeck 1) ∈ stateMapCallback (self w')
  ∧ (otherDeck, session 1 otherDeck 1) ∉ stateMapRuns (trace w').
Proof.
  intros w'. split; [elem_compute|].
  unfold w'. rewrite run_app.
  refine (proj2 (proj2 (proj2 (after_ready options3 (firstAttempt ++ [Tick]) _ _)))
            _ _).
  - elem_compute.
  - elem_compute.
Defined.

(** ** The history of a key, whatever the listeners do *)

Lemma statusTail_writes (bs : list Z) (fin : option ConnectionStatus) :
  statusTail (((λ _, CONNECTED) <$> bs)
              ++ (if decide (fin = Some FAILED) then [FAILED] else [])) = true.
Proof. induction bs as [|b bs IH]; [by case_decide|done]. Qed.

Lemma connected_writes (bs : list Z) (fin : option ConnectionStatus) :
  length (filter (CONNECTED =.)
            (CONNECTING :: ((λ _, CONNECTED) <$> bs)
             ++ (if decide (fin = Some FAILED) then [FAILED] else [])))
  = length bs.
Proof.
  rewrite filter_cons_False by done. rewrite filter_app, length_app.
  rewrite filter_fmap_all, length_fmap by done.
  case_decide; [|simpl; lia]. rewrite filter_cons_False by done. simpl. lia.
Qed.

(** X16: the writes to the tracker under a key, in every run and whatever
    the listeners of [connected] do: CONNECTING once, then CONNECTED any
    number of times, then possibly FAILED, and nothing after FAILED.  The
    key was marked CONNECTED as often as [connected] was emitted for
    it. *)
Theorem status_history (opts : StageLinqOptions) (ins : list Input)
    (k : string) :
  let w := run (init opts) ins in
  statusHistory (statusWrites k (trace w)) = true
  ∧ length (filter (CONNECTED =.) (statusWrites k (trace w)))
    = length (filter (λ e, eventKey e = Some k) (emitted (trace w))).
Proof.
  intros w.
  assert (∀ s, s ∈ statusWrites k (trace w) →
            statusHistory (statusWrites k (trace w)) = true
            ∧ length (filter (CONNECTED =.) (statusWrites k (trace w)))
              = length (filter (λ e, eventKey e = Some k) (emitted (trace w))))
    as Hkey.
  { intros s Hs.
    destruct (key_progress opts ins k s Hs)
      as (tid & ci & a & bs & fin & _ & _ & _ & _ & _ & _ & Hw & _ & He).
    fold w in Hw, He. rewrite Hw, He, connected_writes, length_fmap.
    split; [apply statusTail_writes|done]. }
  destruct (statusWrites k (trace w)) as [|s l] eqn:Hw.
  2:{ apply (Hkey s), list_elem_of_here. }
  destruct (filter_elem_length (λ e, eventKey e = Some k) (emitted (trace w)))
    as [->|(ev & Hel & Hk)]; [done|].
  destruct ev as [ci|]; [|done]. injection Hk as <-.
  destruct (connected_owner opts ins ci Hel)
    as (tid & a & bs & fin & _ & _ & _ & HP & _).
  fold w in HP.
  pose proof (prog_marks _ _ _ _ _ _ _ HP) as Hm. cbn [fst] in Hm.
  assert (CONNECTING ∈ statusWrites (deviceId ci) (trace w)) as Hin.
  { apply (elem_statusWrites (OConnectToDevice tid)), elem_byTask, elem_marks.
    rewrite Hm. apply list_elem_of_here. }
  rewrite Hw in Hin. by apply elem_of_nil in Hin.
Qed.
